(** * Breaking-news module: the video generator and the feed parsers

    A shallow embedding of
    - [components/video-generator.tsx]: [wrapText], [drawFrame],
      [handleGenerate] and the promise helpers they await;
    - [app/api/news/route.ts]: [normalizeLabel], [splitCsvLine],
      [parseCsv] and [parseGviz].

    Conventions.  A JavaScript string is the list of its UTF-16 code units.
    A JavaScript number that the code only adds, multiplies, divides and
    compares is a rational; a number that the code uses as a counter or an
    index is an integer.  Calls into the browser (canvas, image and video
    elements, [MediaRecorder]) are answered by an explicit environment, and
    what the code does to the outside world is recorded as a trace. *)

From Stdlib Require Import ZArith QArith Qround List Sorted Lia Lqa Bool Ascii String
  DecimalString DecimalNat.
From stdpp Require Import strings gmap.
Import ListNotations.

(** ** JavaScript strings *)

Module JS.

Definition jsstring := list N.

(** A string literal of the source, as code units. *)
Definition js (s : string) : jsstring := map N_of_ascii (list_ascii_of_string s).

Definition space : N := 32%N.

(** The one-code-unit string "…" (U+2026). *)
Definition ellipsis : jsstring := [8230%N].

(** Truthiness of a string: a string is falsy exactly when it is empty. *)
Definition truthy (s : jsstring) : bool :=
  match s with [] => false | _ :: _ => true end.

(** [a || b] on strings. *)
Definition or_else (a b : jsstring) : jsstring := if truthy a then a else b.

Definition cons_head (c : N) (ws : list jsstring) : list jsstring :=
  match ws with
  | [] => [[c]]
  | w :: ws' => (c :: w) :: ws'
  end.

(** [s.split(" ")]: the empty string splits into one empty token, and two
    adjacent spaces enclose an empty token. *)
Fixpoint split_space (s : jsstring) : list jsstring :=
  match s with
  | [] => [[]]
  | c :: s' => if (c =? space)%N then [] :: split_space s' else cons_head c (split_space s')
  end.

(** [a.join(" ")]. *)
Fixpoint join_space (ws : list jsstring) : jsstring :=
  match ws with
  | [] => []
  | [w] => w
  | w :: ws' => w ++ space :: join_space ws'
  end.

(** [a > b] on numbers. *)
Definition Qgtb (a b : Q) : bool := negb (Qle_bool a b).

(** [a > num / den] for a finite [a]: the quotient by zero is [Infinity],
    [-Infinity] or [NaN], and of these only [-Infinity] is below [a].  (A
    zero that is the difference of two equal numbers is [+0].) *)
Definition gtQuotient (a num den : Q) : bool :=
  if Qeq_bool den 0 then negb (Qle_bool 0 num) else Qgtb a (Qdiv num den).

(** *** Doubles

    A finite double is a rational.  [toDouble x] is the double nearest to
    [x], a tie going to the even significand: the value of a literal, and
    the rounding of the arithmetic operations where the model takes it.
    Results beyond the range of doubles ([Infinity]) are not modelled. *)

(** [e] with [2 ^ e <= |x| < 2 ^ (e + 1)], for [x] other than 0. *)
Definition binade (x : Q) : Z :=
  let n := Z.abs (Qnum x) in
  let e := (Z.log2 n - Z.log2 (Z.pos (Qden x)))%Z in
  if Qle_bool (Qpower 2 e) (n # Qden x) then e else (e - 1)%Z.

(** The nearest integer, a tie going to the even one. *)
Definition roundHalfEven (x : Q) : Z :=
  let f := Qfloor x in
  match Qcompare (x - inject_Z f) (1 # 2) with
  | Lt => f
  | Gt => (f + 1)%Z
  | Eq => if Z.even f then f else (f + 1)%Z
  end.

(** 53 significant bits, and the exponent of the subnormal numbers at the
    bottom of the range. *)
Definition toDouble (x : Q) : Q :=
  if Qeq_bool x 0 then 0
  else
    let quantum := Qpower 2 (Z.max (binade x) (-1022) - 52) in
    Qred (inject_Z (roundHalfEven (x / quantum)) * quantum).

End JS.

Import JS.

(** ** components/video-generator.tsx *)

Module VideoGenerator.

Inductive MediaType := Image | Video.

Record Props := {
  title : jsstring;
  mediaUrl : jsstring;
  mediaType : MediaType;
  durationSec : Q;
  width : Q;
  height : Q
}.

Inductive GenState :=
| Idle
| Recording (progress : Q)
| Done (url : jsstring) (size : Z)
| Error (message : jsstring).

(** The part of an image, or of a video element, that [drawFrame] reads. *)
Record HTMLImageElement := { naturalWidth : Z; naturalHeight : Z }.
Record HTMLVideoElement := { videoWidth : Z; videoHeight : Z; readyState : Z }.

Inductive Source := ImageSource | VideoSource.

(** What the code does to the 2D context. *)
Inductive CanvasOp :=
| SetFillStyle (colour : string)
| SetFont (font : string)
| SetTextBaseline (b : string)
| SetTextAlign (a : string)
| FillRect (x y w h : Q)
| FillText (text : jsstring) (x y : Q)
| DrawImage (src : Source) (dx dy dw dh : Q).

(** *** wrapText *)

(** How a call of [wrapText] ends: at the [return] that follows the
    truncated line, or by reaching the end of the body. *)
Inductive Exit := ReturnedTruncated | ReachedEnd.

(** One turn of the [for] loop either goes on to [n + 1] with a new [line]
    and [lineCount], or returns from the function. *)
Inductive Turn :=
| Continue (line : jsstring) (lineCount : Z) (ops : list CanvasOp)
| Return (ops : list CanvasOp).

Section WrapText.

(** [ctx.measureText(s).width] under the font in force. *)
Variable measureText : jsstring -> Q.
Variables (text : jsstring) (x y maxWidth lineHeight : Q) (maxLines : Z).

Definition words : list jsstring := split_space text.

Definition lineY (lineCount : Z) : Q := y + inject_Z lineCount * lineHeight.

(** One test of the [while] condition: the shortened [rest] when the body
    runs, [None] when the loop is left. *)
Definition truncateStep (rest : jsstring) : option jsstring :=
  if Qgtb (measureText (rest ++ ellipsis)) maxWidth && (0 <? length rest)%nat
  then Some (removelast rest)
  else None.

(** The [while] loop that shortens [rest]; [None] when the fuel runs out
    before the loop condition turns false. *)
Fixpoint truncateRest (fuel : nat) (rest : jsstring) : option jsstring :=
  match fuel with
  | O => None
  | S fuel' =>
      match truncateStep rest with
      | Some rest' => truncateRest fuel' rest'
      | None => Some rest
      end
  end.

Definition testLineOf (line word : jsstring) : jsstring :=
  if truthy line then line ++ space :: word else word.

(** The body of the [for] loop at index [n]. *)
Definition wrapTurn (fuel n : nat) (line : jsstring) (lineCount : Z) : option Turn :=
  let testLine := testLineOf line (nth n words []) in
  if Qgtb (measureText testLine) maxWidth && (0 <? n)%nat then
    let committed := FillText line x (lineY lineCount) in
    let lineCount' := (lineCount + 1)%Z in
    if (lineCount' >=? maxLines - 1)%Z then
      match truncateRest fuel (join_space (drop n words)) with
      | Some rest => Some (Return [committed; FillText (rest ++ ellipsis) x (lineY lineCount')])
      | None => None
      end
    else Some (Continue (nth n words []) lineCount' [committed])
  else Some (Continue testLine lineCount []).

(** The [for] loop from index [n] on, followed by the last [fillText]. *)
Fixpoint wrapLoop (fuel n : nat) (line : jsstring) (lineCount : Z)
  : option (list CanvasOp * Exit) :=
  match fuel with
  | O => None
  | S fuel' =>
      if (n <? length words)%nat then
        match wrapTurn fuel' n line lineCount with
        | None => None
        | Some (Return ops) => Some (ops, ReturnedTruncated)
        | Some (Continue line' lineCount' ops) =>
            match wrapLoop fuel' (S n) line' lineCount' with
            | Some (ops', e) => Some (ops ++ ops', e)
            | None => None
            end
        end
      else Some ([FillText line x (lineY lineCount)], ReachedEnd)
  end.

Definition wrapText_fuel (fuel : nat) : option (list CanvasOp * Exit) :=
  wrapLoop fuel 0 [] 0.

(** Fuel that is always enough (see [wrapText_terminates]). *)
Definition wrapText_bound : nat := length words + length text + 2.

Definition wrapText : option (list CanvasOp * Exit) := wrapText_fuel wrapText_bound.

End WrapText.

(** *** drawFrame *)

(** Besides the canvas operations, the trace of [drawFrame] records every
    division the code evaluates, with its dividend and its divisor.  The
    one quotient that can have a zero divisor, [mediaW / mediaH], is only
    compared with an aspect ratio: [gtQuotient] makes that comparison as
    JavaScript does, on [Infinity], [-Infinity] and [NaN] too. *)
Inductive FrameEvent :=
| Op (o : CanvasOp)
| Divide (dividend divisor : Q).

Definition headerFont : string :=
  "bold 42px system-ui, -apple-system, Segoe UI, Roboto, Helvetica, Arial, sans-serif".
Definition titleFont : string :=
  "700 36px system-ui, -apple-system, Segoe UI, Roboto, Helvetica, Arial, sans-serif".

(** [t / Math.max(total - 1, 1)] and [1.0 + progress * 0.1]. *)
Definition zoomDivisor (total : Z) : Q := inject_Z (Z.max (total - 1) 1).
Definition zoomProgress (t total : Z) : Q := inject_Z t / zoomDivisor total.
Definition zoomScale (t total : Z) : Q := 1 + zoomProgress t total * (1 # 10).

Definition nonzero (n : Z) : bool := negb (n =? 0)%Z.

Section DrawFrame.

Local Open Scope Q_scope.

(** [ctx.measureText(s).width] as a function of the font in force. *)
Variable measureText : string -> jsstring -> Q.
Variable props : Props.

Let headerH : Q := 100.
Let footerH : Q := 120.
Let mediaY : Q := headerH.
Let mediaH : Q := height props - headerH - footerH.
Let mediaW : Q := width props.

(** The branch [mediaType === "image" && image]. *)
Definition drawImageBranch (t total : Z) (image : HTMLImageElement) : list FrameEvent :=
  let scale := zoomScale t total in
  let iw := naturalWidth image in
  let ih := naturalHeight image in
  Divide (inject_Z t) (zoomDivisor total) ::
  if nonzero iw && nonzero ih then
    let imgAspect := inject_Z iw / inject_Z ih in
    let fit :=
      (* [imgAspect > mediaAspect], with [mediaAspect = mediaW / mediaH] *)
      if gtQuotient imgAspect mediaW mediaH then
        let drawH := mediaH * scale in
        let drawW := drawH * imgAspect in
        (drawW, drawH, [])
      else
        let drawW := mediaW * scale in
        let drawH := drawW / imgAspect in
        (drawW, drawH, [Divide drawW imgAspect]) in
    let '(drawW, drawH, divs) := fit in
    let offsetX := (mediaW - drawW) / 2 in
    let offsetY := (mediaH - drawH) / 2 in
    [Divide mediaW mediaH; Divide (inject_Z iw) (inject_Z ih)] ++ divs ++
    [Divide (mediaW - drawW) 2; Divide (mediaH - drawH) 2;
     Op (DrawImage ImageSource offsetX (mediaY + offsetY) drawW drawH)]
  else [].

(** The branch [mediaType === "video" && video && video.readyState >= 2]. *)
Definition drawVideoBranch (video : HTMLVideoElement) : list FrameEvent :=
  let vw := videoWidth video in
  let vh := videoHeight video in
  if nonzero vw && nonzero vh then
    let vidAspect := inject_Z vw / inject_Z vh in
    let fit :=
      (* [vidAspect > mediaAspect], with [mediaAspect = mediaW / mediaH] *)
      if gtQuotient vidAspect mediaW mediaH then
        let drawH := mediaH in
        let drawW := drawH * vidAspect in
        (drawW, drawH, [])
      else
        let drawW := mediaW in
        let drawH := drawW / vidAspect in
        (drawW, drawH, [Divide drawW vidAspect]) in
    let '(drawW, drawH, divs) := fit in
    let offsetX := (mediaW - drawW) / 2 in
    let offsetY := (mediaH - drawH) / 2 in
    [Divide mediaW mediaH; Divide (inject_Z vw) (inject_Z vh)] ++ divs ++
    [Divide (mediaW - drawW) 2; Divide (mediaH - drawH) 2;
     Op (DrawImage VideoSource offsetX (mediaY + offsetY) drawW drawH)]
  else [].

Definition drawMedia (t total : Z)
  (image : option HTMLImageElement) (video : option HTMLVideoElement) : list FrameEvent :=
  match mediaType props, image with
  | Image, Some img => drawImageBranch t total img
  | _, _ =>
      match mediaType props, video with
      | Video, Some vid => if (readyState vid >=? 2)%Z then drawVideoBranch vid else []
      | _, _ => []
      end
  end.

Definition drawHeader : list FrameEvent :=
  [Op (SetFillStyle "#ffffff"); Op (FillRect 0 0 (width props) (height props));
   Op (SetFillStyle "#e11d48"); Op (FillRect 0 0 (width props) headerH);
   Op (SetFillStyle "#ffffff"); Op (SetFont headerFont);
   Op (SetTextBaseline "middle"); Op (SetTextAlign "left");
   Divide headerH 2; Op (FillText (js "Breaking News") 36 (headerH / 2))].

Definition drawMediaBand : list FrameEvent :=
  [Op (SetFillStyle "#000000"); Op (FillRect 0 mediaY mediaW mediaH)].

Definition drawFooter : option (list FrameEvent) :=
  let padding : Q := 36 in
  let titleY := height props - footerH + 24 in
  match wrapText (measureText titleFont) (title props) padding titleY
                 (width props - padding * 2) 44 2 with
  | Some (ops, _) =>
      Some ([Op (SetFillStyle "#0a0a0a"); Op (SetTextAlign "left");
             Op (SetTextBaseline "top"); Op (SetFont titleFont)] ++ map Op ops)
  | None => None
  end.

(** [drawFrame(ctx, t, total, image, video)]; [None] only if [wrapText]
    were to run out of fuel. *)
Definition drawFrame (t total : Z)
  (image : option HTMLImageElement) (video : option HTMLVideoElement)
  : option (list FrameEvent) :=
  match drawFooter with
  | Some footer => Some (drawHeader ++ drawMediaBand ++ drawMedia t total image video ++ footer)
  | None => None
  end.

End DrawFrame.

(** *** handleGenerate *)

(** A thrown value, or the reason of a rejected promise: all that the
    [catch] clause reads of it is [e?.message]. *)
Record Exn := { exn_message : option jsstring }.

Definition newError (msg : string) : Exn := {| exn_message := Some (js msg) |}.

(** What a run of [handleGenerate] does, in program order. *)
Inductive Event :=
| SetState (s : GenState)
| ImageSrc (url : jsstring)
| VideoSrc (url : jsstring)
| VideoPlay
| CaptureStream (fps : Z)
| NewMediaRecorder (mimeType : option jsstring)
| RecorderStart
| DrawFrameCall (f total : Z)
| WaitMs (ms : Q)
| RecorderStop
| NewBlob (type : jsstring)
| CreateObjectURL.

(** The browser's answers during one run.  An [option Exn] is the exception
    a call throws, if it throws. *)
Record Env := {
  getContext_2d : bool;
  image_loads : bool;
  video_play_rejects : option Exn;
  video_becomes_ready : bool;
  captureStream_throws : option Exn;
  isTypeSupported : jsstring -> bool;
  MediaRecorder_throws : option jsstring -> option Exn;
  recorder_start_throws : option Exn;
  drawFrame_throws : Z -> option Exn;
  recorder_stop_throws : option Exn;
  blob_size : Z;
  createObjectURL_result : Exn + jsstring
}.

(** A computation leaves a trace and then has a value, has thrown, or is
    suspended for ever at an [await] whose promise never settles. *)
Inductive Res (A : Type) :=
| Value (a : A)
| Thrown (e : Exn)
| Suspended.
Arguments Value {A} a.
Arguments Thrown {A} e.
Arguments Suspended {A}.

Definition Run (A : Type) : Type := list Event * Res A.

Definition ret {A} (a : A) : Run A := ([], Value a).
Definition throw {A} (e : Exn) : Run A := ([], Thrown e).
Definition never {A} : Run A := ([], Suspended).
Definition emit (ev : Event) : Run unit := ([ev], Value tt).

Definition bind {A B} (m : Run A) (k : A -> Run B) : Run B :=
  match m with
  | (tr, Value a) => let '(tr', r) := k a in (tr ++ tr', r)
  | (tr, Thrown e) => (tr, Thrown e)
  | (tr, Suspended) => (tr, Suspended)
  end.

Declare Scope run_scope.
Delimit Scope run_scope with run.
Notation "m ;; k" := (bind m (fun _ => k))
  (at level 100, k at level 200, right associativity) : run_scope.

(** [try { body } catch (e) { handler(e) }]. *)
Definition try_catch (body : Run unit) (handler : Exn -> Run unit) : Run unit :=
  match body with
  | (tr, Thrown e) => let '(tr', r) := handler e in (tr ++ tr', r)
  | _ => body
  end.

(** A call that throws [e] when the environment says [Some e]. *)
Definition call (o : option Exn) : Run unit :=
  match o with
  | Some e => throw e
  | None => ret tt
  end.

(** [promise.catch(() => {})]. *)
Definition swallow (m : Run unit) : Run unit := try_catch m (fun _ => ret tt).

Definition waitMs (ms : Q) : Run unit := emit (WaitMs ms).

Definition waitImage (env : Env) : Run unit :=
  if image_loads env then ret tt
  else throw (newError "Failed to load image for canvas.").

Definition waitVideoReady (env : Env) : Run unit :=
  if video_becomes_ready env then ret tt else never.

Definition mimeTypeCandidates : list jsstring :=
  [js "video/webm;codecs=vp9"; js "video/webm;codecs=vp8"; js "video/webm"].

(** [mimeTypeCandidates.find((m) => MediaRecorder.isTypeSupported(m))],
    or the empty string when [find] answers undefined. *)
Definition selectMimeType (env : Env) : jsstring :=
  match find (isTypeSupported env) mimeTypeCandidates with
  | Some m => or_else m []
  | None => []
  end.

Definition fps : Z := 30.

(** [Math.max(1, Math.floor(durationSec * fps))]: the product is the
    double product of the double [durationSec]. *)
Definition totalFramesOf (durationSec : Q) : Z :=
  Z.max 1 (Qfloor (toDouble (toDouble durationSec * inject_Z fps))).

(** [1000 / fps], a double. *)
Definition frameInterval : Q := toDouble (1000 / inject_Z fps).

(** [Math.max(1, Math.floor(totalFrames / 50))]. *)
Definition updateStep (totalFrames : Z) : Z := Z.max 1 (totalFrames / 50).

Definition progressOf (f totalFrames : Z) : Q := inject_Z (f + 1) / inject_Z totalFrames.

(** [e?.message || "Failed to generate video"]. *)
Definition errorMessage (e : Exn) : jsstring :=
  match exn_message e with
  | Some m => or_else m (js "Failed to generate video")
  | None => js "Failed to generate video"
  end.

Section HandleGenerate.

Variable props : Props.
Variable env : Env.

Local Open Scope run_scope.

(** The body of the frame loop at index [f]. *)
Definition frameTurn (f totalFrames : Z) : Run unit :=
  emit (DrawFrameCall f totalFrames) ;;
  call (drawFrame_throws env f) ;;
  waitMs frameInterval ;;
  if (Z.rem (f + 1) (updateStep totalFrames) =? 0)%Z
  then emit (SetState (Recording (progressOf f totalFrames)))
  else ret tt.

(** [for (let f = ...; f < totalFrames; f++)] with [count] turns left. *)
Fixpoint frameLoop (count : nat) (f totalFrames : Z) : Run unit :=
  match count with
  | O => ret tt
  | S count' => frameTurn f totalFrames ;; frameLoop count' (f + 1)%Z totalFrames
  end.

Definition prepareMedia : Run unit :=
  match mediaType props with
  | Image =>
      emit (ImageSrc (or_else (mediaUrl props) (js "/breaking-news-image.jpg"))) ;;
      waitImage env
  | Video =>
      emit (VideoSrc (mediaUrl props)) ;;
      swallow (emit VideoPlay ;; call (video_play_rejects env)) ;;
      waitVideoReady env
  end.

Definition generateBody : Run unit :=
  emit (SetState (Recording 0)) ;;
  (if getContext_2d env then ret tt
   else throw (newError "Canvas 2D context not available.")) ;;
  prepareMedia ;;
  emit (CaptureStream fps) ;;
  call (captureStream_throws env) ;;
  let mimeType := selectMimeType env in
  let options := if truthy mimeType then Some mimeType else None in
  emit (NewMediaRecorder options) ;;
  call (MediaRecorder_throws env options) ;;
  let totalFrames := totalFramesOf (durationSec props) in
  emit RecorderStart ;;
  call (recorder_start_throws env) ;;
  frameLoop (Z.to_nat totalFrames) 0 totalFrames ;;
  emit RecorderStop ;;
  call (recorder_stop_throws env) ;;
  emit (NewBlob (or_else mimeType (js "video/webm"))) ;;
  emit CreateObjectURL ;;
  match createObjectURL_result env with
  | inl e => throw e
  | inr url => emit (SetState (Done url (blob_size env)))
  end.

Definition handleGenerate : Run unit :=
  try_catch generateBody
    (fun e => emit (SetState (Error (errorMessage e)))).

End HandleGenerate.

(** *** The status line *)

(** [Math.round(x)]: the nearest integer, a tie going up. *)
Definition Math_round (x : Q) : Z := Qfloor (x + (1 # 2)).

(** The number in the line
    [Rendering video… {Math.round((state.progress || 0) * 100)}%]
    that is rendered in the state [Recording progress]. *)
Definition percentShown (progress : Q) : Z :=
  Math_round ((if Qeq_bool progress 0 then 0 else progress) * 100).

End VideoGenerator.

(** ** app/api/news/route.ts *)

Module NewsRoute.

Inductive MediaType := Image | Video.

Record NewsItem := {
  id : jsstring;
  title : jsstring;
  mediaUrl : jsstring;
  mediaType : MediaType
}.

(** *** String helpers of the platform *)

(** The code units that [String.prototype.trim] strips. *)
Definition isWhiteSpace (c : N) : bool :=
  ((9 <=? c) && (c <=? 13) || (c =? 32) || (c =? 160) || (c =? 5760)
   || (8192 <=? c) && (c <=? 8202) || (c =? 8232) || (c =? 8233)
   || (c =? 8239) || (c =? 8287) || (c =? 12288) || (c =? 65279))%N.

Fixpoint trimStart (s : jsstring) : jsstring :=
  match s with
  | [] => []
  | c :: s' => if isWhiteSpace c then trimStart s' else s
  end.

Definition trim (s : jsstring) : jsstring := rev (trimStart (rev (trimStart s))).

(** [toLowerCase] on the letters A to Z; other code units are kept. *)
Definition lowerUnit (c : N) : N :=
  if ((65 <=? c) && (c <=? 90))%N then (c + 32)%N else c.

Definition toLowerCase (s : jsstring) : jsstring := map lowerUnit s.

(** [a === b] on strings. *)
Definition streq (a b : jsstring) : bool := bool_decide (a = b).

(** [String(n)] for a non-negative integer. *)
Definition String_of_nat (n : nat) : jsstring :=
  js (NilEmpty.string_of_uint (Nat.to_uint n)).

(** [s.indexOf(c)] and [s.lastIndexOf(c)] for a one-unit string [c]. *)
Fixpoint indexOf (c : N) (s : jsstring) : option nat :=
  match s with
  | [] => None
  | d :: s' => if (d =? c)%N then Some O else S <$> indexOf c s'
  end.

Fixpoint lastIndexOf (c : N) (s : jsstring) : option nat :=
  match s with
  | [] => None
  | d :: s' =>
      match lastIndexOf c s' with
      | Some i => Some (S i)
      | None => if (d =? c)%N then Some O else None
      end
  end.

(** [s.slice(a, b)] for indices [0 <= a] and [0 <= b]. *)
Definition slice (a b : nat) (s : jsstring) : jsstring := take (b - a) (drop a s).

(** *** normalizeLabel and the column index *)

(** [label], or the empty string when it is falsy, trimmed and in lower
    case; [None] is a null or undefined
    label. *)
Definition normalizeLabel (label : option jsstring) : jsstring :=
  toLowerCase (trim (or_else (default [] label) [])).

(** The [forEach] that fills [colIndex] (GViz) and [indices] (CSV): a
    later column with the same label overwrites an earlier one. *)
Fixpoint indexLabels (labels : list (option jsstring)) (i : nat)
  (acc : gmap jsstring nat) : gmap jsstring nat :=
  match labels with
  | [] => acc
  | l :: labels' =>
      let key := normalizeLabel l in
      indexLabels labels' (S i) (if truthy key then <[key := i]> acc else acc)
  end.

(** *** parseCsv *)

(** [text.split(/\r?\n/)]. *)
Fixpoint splitLines (s : jsstring) : list jsstring :=
  match s with
  | [] => [[]]
  | c :: s' =>
      if (c =? 10)%N then [] :: splitLines s'
      else
        match s' with
        | d :: s'' =>
            if ((c =? 13) && (d =? 10))%N then [] :: splitLines s''
            else cons_head c (splitLines s')
        | [] => [[c]]
        end
  end.

Definition quote : N := 34%N.
Definition comma : N := 44%N.

(** The loop of [splitCsvLine] over the rest of the line. *)
Fixpoint splitCsvLoop (line current : jsstring) (inQuotes : bool)
  (result : list jsstring) : list jsstring :=
  match line with
  | [] => result ++ [current]
  | ch :: rest =>
      if (ch =? quote)%N then
        match rest with
        | ch' :: rest' =>
            if inQuotes && (ch' =? quote)%N
            then splitCsvLoop rest' (current ++ [quote]) inQuotes result
            else splitCsvLoop rest current (negb inQuotes) result
        | [] => splitCsvLoop rest current (negb inQuotes) result
        end
      else if (ch =? comma)%N && negb inQuotes then
        splitCsvLoop rest [] inQuotes (result ++ [current])
      else splitCsvLoop rest (current ++ [ch]) inQuotes result
  end.

Definition splitCsvLine (line : jsstring) : list jsstring :=
  splitCsvLoop line [] false [].

(** The closure [get]: the cell [cols[ix]] when [ix != null] and the cell
    is truthy, the empty string otherwise. *)
Definition csvGet (indices : gmap jsstring nat) (cols : list jsstring)
  (name : string) : jsstring :=
  match indices !! js name with
  | Some ix => or_else (default [] (cols !! ix)) []
  | None => []
  end.

Definition mediaTypeOfText (raw : jsstring) : MediaType :=
  if streq (toLowerCase raw) (js "video") then Video else Image.

(** The body of the [for] loop of [parseCsv] at line [i]: the item it
    pushes, or [None] when it takes the [continue]. *)
Definition csvRow (indices : gmap jsstring nat) (i : nat) (line : jsstring)
  : option NewsItem :=
  let cols := splitCsvLine line in
  let get := csvGet indices cols in
  let title := get "title" in
  let mediaUrl := or_else (get "mediaurl") (get "media_url") in
  let mediaTypeRaw := or_else (get "mediatype") (get "media_type") in
  let mediaType := mediaTypeOfText (or_else mediaTypeRaw []) in
  if negb (truthy title) && negb (truthy mediaUrl) then None
  else Some {| id := String_of_nat i;
               title := trim title;
               mediaUrl := trim (or_else mediaUrl []);
               mediaType := mediaType |}.

Fixpoint csvRows (indices : gmap jsstring nat) (i : nat) (lines : list jsstring)
  : list NewsItem :=
  match lines with
  | [] => []
  | line :: lines' =>
      match csvRow indices i line with
      | Some item => item :: csvRows indices (S i) lines'
      | None => csvRows indices (S i) lines'
      end
  end.

Definition csvIndices (headerLine : jsstring) : gmap jsstring nat :=
  indexLabels (map Some (splitCsvLine headerLine)) 0 ∅.

Definition parseCsv (text : jsstring) : list NewsItem :=
  match filter (fun l => truthy l = true) (splitLines text) with
  | [] => []
  | headerLine :: lines => csvRows (csvIndices headerLine) 1 lines
  end.

(** *** parseGviz *)

(** The parsed response, in the shape the GViz endpoint answers with:
    a cell value is a string, a number or a boolean; [None] stands for
    null or a missing property at every level. *)
Inductive GValue :=
| VString (s : jsstring)
| VNumber (q : Q)
| VBool (b : bool).

Record GCell := { cell_v : option GValue }.
Record GRow := { row_c : option (list (option GCell)) }.
Record GCol := { col_label : option jsstring }.
Record GTable := {
  table_cols : option (list (option GCol));
  table_rows : option (list (option GRow))
}.
Record GResponse := { response_table : option GTable }.

Section ParseGviz.

(** [JSON.parse], [None] when it throws; and [String(n)] on numbers. *)
Variable JSON_parse : jsstring -> option GResponse.
Variable String_of_number : Q -> jsstring.

Definition valueTruthy (x : GValue) : bool :=
  match x with
  | VString s => truthy s
  | VNumber q => negb (Qeq_bool q 0)
  | VBool b => b
  end.

(** [String(x)]. *)
Definition String_ (x : GValue) : jsstring :=
  match x with
  | VString s => s
  | VNumber q => String_of_number q
  | VBool b => if b then js "true" else js "false"
  end.

(** [String] of [x], or of the empty string when [x] is falsy. *)
Definition String_or_empty (x : GValue) : jsstring :=
  if valueTruthy x then String_ x else [].

(** [c[colIndex[name]]?.v], [None] for undefined or null. *)
Definition gvizCell (colIndex : gmap jsstring nat) (c : list (option GCell))
  (name : string) : option GValue :=
  match colIndex !! js name with
  | Some i =>
      match c !! i with
      | Some (Some cell) => cell_v cell
      | _ => None
      end
  | None => None
  end.

(** [a ?? b ?? e] with [e] the empty string. *)
Definition coalesce2 (a b : option GValue) : GValue :=
  match a with
  | Some x => x
  | None => default (VString []) b
  end.

(** The callback of [rows.map] at index [idx]; [None] is the [null] that
    [filter(Boolean)] drops. *)
Definition gvizRow (colIndex : gmap jsstring nat) (idx : nat) (r : option GRow)
  : option NewsItem :=
  let c := default [] (r ≫= row_c) in
  let cell := gvizCell colIndex c in
  let title := default (VString []) (cell "title") in
  let mediaUrl := coalesce2 (cell "mediaurl") (cell "media_url") in
  let mediaTypeRaw := coalesce2 (cell "mediatype") (cell "media_type") in
  let mediaType := mediaTypeOfText (String_or_empty mediaTypeRaw) in
  if negb (valueTruthy title) && negb (valueTruthy mediaUrl) then None
  else Some {| id := String_of_nat (idx + 1);
               title := trim (String_or_empty title);
               mediaUrl := trim (String_or_empty mediaUrl);
               mediaType := mediaType |}.

Definition gvizIndex (json : GResponse) : gmap jsstring nat :=
  let cols := default [] (response_table json ≫= table_cols) in
  indexLabels (map (fun c => c ≫= col_label) cols) 0 ∅.

Definition gvizItems (json : GResponse) : list NewsItem :=
  let rows := default [] (response_table json ≫= table_rows) in
  omap (fun item => item) (imap (gvizRow (gvizIndex json)) rows).

(** [parseGviz(text)]; [None] when [JSON.parse] throws. *)
Definition parseGviz (text : jsstring) : option (list NewsItem) :=
  match indexOf 123%N text, lastIndexOf 125%N text with
  | Some start, Some end_ =>
      if (end_ <=? start)%nat then Some []
      else gvizItems <$> JSON_parse (slice start (end_ + 1) text)
  | _, _ => Some []
  end.

End ParseGviz.

(** *** GET *)

(** A thrown value or the reason of a rejection: the [catch] clause reads
    [err?.message] only. *)
Record Err := { err_message : option jsstring }.

Definition new_Error (msg : jsstring) : Err := {| err_message := Some msg |}.

(** What the handler reads of the answer of [fetch]: [res.ok],
    [res.status], and the text that [res.text()] resolves to or the reason
    it rejects with. *)
Record FetchResponse := {
  res_ok : bool;
  res_status : nat;
  res_text : Err + jsstring
}.

(** [process.env]; [None] is a variable that is not set. *)
Record ProcessEnv := {
  GSHEETS_GVIZ_URL : option jsstring;
  GSHEETS_CSV_URL : option jsstring
}.

(** The arguments of [NextResponse.json]: the body [{ error, items }] and
    the status, which is 200 when none is given. *)
Record JsonResponse := {
  json_status : nat;
  json_error : option jsstring;
  json_items : list NewsItem
}.

Definition sampleItems : list NewsItem :=
  [ {| id := js "1";
       title := js "Record Monsoon Rains Hit Coastal Region, Authorities Issue Red Alert";
       mediaUrl := js "/monsoon-rains-coast.jpg";
       mediaType := Image |};
    {| id := js "2";
       title := js "Tech Giant Unveils Next-Gen AI Chipset for Edge Devices";
       mediaUrl := js "/ai-chipset-event.jpg";
       mediaType := Image |} ].

(** [err?.message || "Failed to load news"]. *)
Definition errorText (e : Err) : jsstring :=
  match err_message e with
  | Some m => or_else m (js "Failed to load news")
  | None => js "Failed to load news"
  end.

Section Get.

Variable JSON_parse : jsstring -> option GResponse.
Variable String_of_number : Q -> jsstring.

(** The exception that [parseGviz(text)] throws when [JSON.parse] fails. *)
Variable parseGviz_throws : jsstring -> Err.

Variable process_env : ProcessEnv.

(** [fetch(url, { cache: "no-store" })]: the rejection, or the response. *)
Variable fetch : jsstring -> Err + FetchResponse.

(** The body of the [try]: the URLs fetched, and the exception thrown or
    the items. *)
Definition getItems : list jsstring * (Err + list NewsItem) :=
  let gvizUrl := default [] (GSHEETS_GVIZ_URL process_env) in
  let csvUrl := default [] (GSHEETS_CSV_URL process_env) in
  if truthy gvizUrl then
    ([gvizUrl],
     match fetch gvizUrl with
     | inl e => inl e
     | inr res =>
         if negb (res_ok res)
         then inl (new_Error (js "GViz fetch failed: " ++ String_of_nat (res_status res)))
         else
           match res_text res with
           | inl e => inl e
           | inr text =>
               match parseGviz JSON_parse String_of_number text with
               | Some items => inr items
               | None => inl (parseGviz_throws text)
               end
           end
     end)
  else if truthy csvUrl then
    ([csvUrl],
     match fetch csvUrl with
     | inl e => inl e
     | inr res =>
         if negb (res_ok res)
         then inl (new_Error (js "CSV fetch failed: " ++ String_of_nat (res_status res)))
         else
           match res_text res with
           | inl e => inl e
           | inr text => inr (parseCsv text)
           end
     end)
  else ([], inr sampleItems).

(** [GET()]: the URLs fetched and the response. *)
Definition GET : list jsstring * JsonResponse :=
  let '(fetched, result) := getItems in
  (fetched,
   match result with
   | inr items => {| json_status := 200; json_error := None; json_items := items |}
   | inl e => {| json_status := 500; json_error := Some (errorText e); json_items := [] |}
   end).

End Get.

End NewsRoute.

(** * Properties *)

(** ** wrapText *)

Module WrapTextProofs.

Import VideoGenerator.

(** Ten pixels for every code unit: the measure used in the examples. *)
Definition tenPerUnit (s : jsstring) : Q := inject_Z (10 * Z.of_nat (length s)).

Lemma Qgtb_true (a b : Q) : Qgtb a b = true <-> (b < a)%Q.
Proof.
  unfold Qgtb. rewrite negb_true_iff, <- not_true_iff_false, Qle_bool_iff.
  split; [apply Qnot_le_lt | apply Qlt_not_le].
Qed.

Lemma Qgtb_false (a b : Q) : Qgtb a b = false <-> (a <= b)%Q.
Proof. unfold Qgtb. rewrite negb_false_iff. apply Qle_bool_iff. Qed.

Lemma length_removelast_lt {A} (l : list A) :
  l <> [] -> length (removelast l) < length l.
Proof.
  intros Hl. rewrite removelast_firstn_len, length_take.
  destruct l; [congruence | simpl; lia].
Qed.

Lemma join_space_cons (w : jsstring) (ws : list jsstring) :
  ws <> [] -> join_space (w :: ws) = w ++ space :: join_space ws.
Proof. destruct ws; [congruence | reflexivity]. Qed.

Lemma split_space_nonempty (s : jsstring) : split_space s <> [].
Proof.
  induction s as [|c s IH]; simpl; [discriminate |].
  destruct (c =? space)%N; [discriminate |].
  destruct (split_space s); discriminate.
Qed.

Lemma drop_nth_cons {A} (l : list A) (n : nat) (d : A) :
  n < length l -> drop n l = nth n l d :: drop (S n) l.
Proof.
  revert n. induction l as [|a l IH]; intros n Hn; [simpl in Hn; lia |].
  destruct n as [|n]; [reflexivity |]. simpl. apply IH. simpl in Hn. lia.
Qed.

(** Joining the tokens gives the text back. *)
Lemma join_split_space (s : jsstring) : join_space (split_space s) = s.
Proof.
  induction s as [|c s IH]; [reflexivity |].
  simpl. destruct (N.eqb_spec c space) as [-> | Hc].
  - rewrite join_space_cons by apply split_space_nonempty. now rewrite IH.
  - pose proof (split_space_nonempty s) as Hne.
    destruct (split_space s) as [|w ws]; [congruence |].
    simpl cons_head. destruct ws as [|w' ws].
    + simpl in *. now rewrite IH.
    + rewrite join_space_cons in IH by discriminate.
      rewrite join_space_cons by discriminate.
      rewrite <- app_comm_cons. f_equal. exact IH.
Qed.

Lemma length_join_space_drop (ws : list jsstring) (n : nat) :
  length (join_space (drop n ws)) <= length (join_space ws).
Proof.
  revert n. induction ws as [|w ws IH]; intros n.
  - now rewrite drop_nil.
  - destruct n as [|n]; [simpl drop; lia |].
    simpl drop. specialize (IH n).
    destruct ws as [|w' ws]; [rewrite drop_nil; simpl; lia |].
    rewrite (join_space_cons w) by discriminate.
    rewrite length_app. simpl length in *. lia.
Qed.

Section Facts.

Variable measureText : jsstring -> Q.
Variables (text : jsstring) (x y maxWidth lineHeight : Q) (maxLines : Z).

Local Abbreviation truncateStep := (truncateStep measureText maxWidth).
Local Abbreviation truncateRest := (truncateRest measureText maxWidth).
Local Abbreviation wrapTurn := (wrapTurn measureText text x y maxWidth lineHeight maxLines).
Local Abbreviation wrapLoop := (wrapLoop measureText text x y maxWidth lineHeight maxLines).
Local Abbreviation lineY := (lineY y lineHeight).
Local Abbreviation words := (words text).

Lemma truncateStep_shorter (rest rest' : jsstring) :
  truncateStep rest = Some rest' -> length rest' < length rest.
Proof.
  unfold truncateStep. destruct (Qgtb _ _ && _) eqn:Hc; [|discriminate].
  intros [= <-]. apply andb_true_iff in Hc as [_ Hlen].
  apply Nat.ltb_lt in Hlen. apply length_removelast_lt.
  destruct rest; [simpl in Hlen; lia | discriminate].
Qed.

Lemma truncateStep_left (rest : jsstring) :
  truncateStep rest = None ->
  (measureText (rest ++ ellipsis) <= maxWidth)%Q \/ rest = [].
Proof.
  unfold truncateStep. destruct (Qgtb _ _ && _) eqn:Hc; [discriminate |].
  intros _. apply andb_false_iff in Hc as [Hc | Hc].
  - left. now apply Qgtb_false.
  - right. apply Nat.ltb_ge in Hc. destruct rest; [reflexivity | simpl in Hc; lia].
Qed.

(** With more fuel than [rest] has code units, the [while] loop is left. *)
Lemma truncateRest_enough (fuel : nat) (rest : jsstring) :
  length rest < fuel ->
  exists r, truncateRest fuel rest = Some r /\ length r <= length rest.
Proof.
  revert rest. induction fuel as [|fuel IH]; intros rest Hlen; [lia |].
  simpl. destruct (truncateStep rest) as [rest'|] eqn:Hs.
  - apply truncateStep_shorter in Hs.
    destruct (IH rest') as (r & Hr & Hle); [lia |].
    exists r. split; [exact Hr | lia].
  - exists rest. split; [reflexivity | lia].
Qed.

(** What the [while] loop leaves in [rest]. *)
Lemma truncateRest_result (fuel : nat) (rest r : jsstring) :
  truncateRest fuel rest = Some r ->
  (measureText (r ++ ellipsis) <= maxWidth)%Q \/ r = [].
Proof.
  revert rest. induction fuel as [|fuel IH]; intros rest; [discriminate |].
  simpl. destruct (truncateStep rest) as [rest'|] eqn:Hs.
  - apply IH.
  - intros [= <-]. now apply truncateStep_left.
Qed.

Lemma wrapLoop_enough (fuel n : nat) (line : jsstring) (lineCount : Z) :
  (length words - n) + length text + 2 <= fuel ->
  exists res, wrapLoop fuel n line lineCount = Some res.
Proof.
  revert n line lineCount.
  induction fuel as [|fuel IH]; intros n line lineCount Hfuel; [lia |].
  simpl. destruct (Nat.ltb_spec n (length words)) as [Hn | Hn]; [|eauto].
  unfold VideoGenerator.wrapTurn.
  destruct (Qgtb _ _ && _).
  - destruct (_ >=? _)%Z.
    + destruct (truncateRest_enough fuel (join_space (drop n words))) as (r & -> & _).
      { pose proof (length_join_space_drop words n) as Hle.
        unfold VideoGenerator.words in Hle at 2.
        rewrite join_split_space in Hle. lia. }
      eauto.
    + destruct (IH (S n) (nth n words []) (lineCount + 1)%Z) as ([ops e] & ->); [lia |].
      eauto.
  - destruct (IH (S n) (testLineOf line (nth n words [])) lineCount) as ([ops e] & ->); [lia |].
    eauto.
Qed.

Lemma truncateRest_prefix (fuel : nat) (rest r : jsstring) :
  truncateRest fuel rest = Some r -> r `prefix_of` rest.
Proof.
  revert rest. induction fuel as [|fuel IH]; intros rest; [discriminate |].
  simpl. unfold VideoGenerator.truncateStep.
  destruct (Qgtb _ _ && _).
  - intros Hr. apply IH in Hr. etransitivity; [exact Hr |].
    rewrite removelast_firstn_len. apply prefix_take.
  - now intros [= <-].
Qed.

(** The canvas operations of one turn. *)
Definition turnOps (t : Turn) : list CanvasOp :=
  match t with
  | Continue _ _ ops => ops
  | Return ops => ops
  end.

(** The states in which the [for] loop tests its condition. *)
Inductive LoopHead : nat -> jsstring -> Z -> Prop :=
| LoopHead_init : LoopHead 0 [] 0
| LoopHead_next fuel n line lineCount line' lineCount' ops :
    LoopHead n line lineCount ->
    n < length words ->
    wrapTurn fuel n line lineCount = Some (Continue line' lineCount' ops) ->
    LoopHead (S n) line' lineCount'.

Lemma LoopHead_first (n : nat) (line : jsstring) (lineCount : Z) :
  LoopHead n line lineCount -> line <> [] -> 0 < n.
Proof. destruct 1; [congruence | lia]. Qed.

(** A turn commits the current line exactly in the branch taken when the
    candidate line is too wide and [n > 0]. *)
Lemma wrapTurn_rule (fuel n : nat) (line : jsstring) (lineCount : Z) (t : Turn) :
  wrapTurn fuel n line lineCount = Some t ->
  let candidate := testLineOf line (nth n words []) in
  ((maxWidth < measureText candidate)%Q /\ 0 < n ->
   head (turnOps t) = Some (FillText line x (lineY lineCount)) /\
   match t with
   | Continue line' lineCount' ops =>
       line' = nth n words [] /\ lineCount' = (lineCount + 1)%Z /\ length ops = 1
   | Return ops =>
       exists rest, rest `prefix_of` join_space (drop n words) /\
         ops = [FillText line x (lineY lineCount);
                FillText (rest ++ ellipsis) x (lineY (lineCount + 1))]
   end) /\
  (~ ((maxWidth < measureText candidate)%Q /\ 0 < n) ->
   t = Continue candidate lineCount []).
Proof.
  intros Ht candidate. unfold VideoGenerator.wrapTurn in Ht.
  cbv zeta in Ht. fold candidate in Ht.
  destruct (Qgtb (measureText candidate) maxWidth && (0 <? n)) eqn:Hc.
  - split; [intros _ | intros Hno; exfalso; apply Hno].
    + destruct (_ >=? _)%Z.
      * destruct (truncateRest fuel _) as [rest|] eqn:Hr; [|discriminate].
        injection Ht as <-. split; [reflexivity |].
        exists rest. split; [|reflexivity]. eapply truncateRest_prefix, Hr.
      * injection Ht as <-. simpl. auto.
    + apply andb_true_iff in Hc as [Hw Hn].
      apply Qgtb_true in Hw. apply Nat.ltb_lt in Hn. auto.
  - split; [intros [Hw Hn] | intros _; congruence].
    apply Qgtb_true in Hw. apply Nat.ltb_lt in Hn.
    rewrite Hw, Hn in Hc. discriminate.
Qed.

(** At most [maxLines] lines, and the shape of a truncated last line. *)
Lemma wrapLoop_lines (fuel n : nat) (line : jsstring) (lineCount : Z)
  (ops : list CanvasOp) (e : Exit) :
  (lineCount <= maxLines - 2)%Z ->
  wrapLoop fuel n line lineCount = Some (ops, e) ->
  (Z.of_nat (length ops) + lineCount <= maxLines)%Z /\
  (e = ReturnedTruncated ->
   exists rest,
     last ops = Some (FillText (rest ++ ellipsis) x (lineY (maxLines - 1))) /\
     ((measureText (rest ++ ellipsis) <= maxWidth)%Q \/ rest = [])).
Proof.
  revert n line lineCount ops e.
  induction fuel as [|fuel IH]; intros n line lineCount ops e Hlc; [discriminate |].
  simpl. destruct (n <? length words).
  2:{ intros [= <- <-]. split; [simpl; lia | discriminate]. }
  unfold VideoGenerator.wrapTurn.
  destruct (Qgtb _ _ && _).
  - destruct (Z.geb_spec (lineCount + 1) (maxLines - 1)) as [Hge | Hlt].
    + destruct (truncateRest fuel _) as [rest|] eqn:Hr; [|discriminate].
      intros [= <- <-]. split; [simpl; lia |]. intros _.
      exists rest. split; [|eapply truncateRest_result, Hr].
      replace (maxLines - 1)%Z with (lineCount + 1)%Z by lia. reflexivity.
    + destruct (wrapLoop fuel (S n) _ _) as [[ops' e']|] eqn:Hrec; [|discriminate].
      intros [= <- <-]. apply IH in Hrec as [Hlen Hlast]; [|lia].
      split; [simpl length; lia |]. intros He.
      destruct (Hlast He) as (rest & Hl & Hw). exists rest. split; [|exact Hw].
      simpl app. rewrite last_cons, Hl. reflexivity.
  - destruct (wrapLoop fuel (S n) _ _) as [[ops' e']|] eqn:Hrec; [|discriminate].
    intros [= <- <-]. now apply IH in Hrec.
Qed.

(** A committed line: a [fillText] of a non-empty string. *)
Definition drawsNonEmpty (o : CanvasOp) : Prop :=
  match o with
  | FillText s _ _ => s <> []
  | _ => False
  end.

Lemma testLineOf_nonempty (line word : jsstring) :
  word <> [] -> testLineOf line word <> [].
Proof.
  unfold testLineOf. destruct (truthy line); [|auto].
  intros _. destruct line; discriminate.
Qed.

Lemma nth_removelast {A} (l : list A) (k : nat) (d : A) :
  k + 1 < length l -> nth k (removelast l) d = nth k l d.
Proof.
  intros Hk. rewrite removelast_firstn_len, nth_firstn.
  destruct (Nat.ltb_spec k (Nat.pred (length l))); [reflexivity | lia].
Qed.

Lemma wrapLoop_commits_nonempty (fuel n : nat) (line : jsstring) (lineCount : Z)
  (ops : list CanvasOp) (e : Exit) :
  Forall (fun w => w <> []) (removelast words) ->
  (0 < n -> n < length words -> line <> []) ->
  wrapLoop fuel n line lineCount = Some (ops, e) ->
  exists commits final, ops = commits ++ [final] /\ Forall drawsNonEmpty commits.
Proof.
  intros Hwords. revert n line lineCount ops e.
  induction fuel as [|fuel IH]; intros n line lineCount ops e Hline; [discriminate |].
  simpl. destruct (Nat.ltb_spec n (length words)) as [Hn | Hn].
  2:{ intros [= <- <-]. exists [], (FillText line x (lineY lineCount)). auto. }
  assert (Hword : S n < length words -> nth n words [] <> []).
  { intros Hnext. rewrite <- nth_removelast by lia.
    rewrite List.Forall_forall in Hwords. apply Hwords, nth_In.
    rewrite removelast_firstn_len, length_take. lia. }
  unfold VideoGenerator.wrapTurn.
  destruct (Qgtb _ _ && (0 <? n)) eqn:Hc.
  - apply andb_true_iff in Hc as [_ Hpos]. apply Nat.ltb_lt in Hpos.
    destruct (_ >=? _)%Z.
    + destruct (truncateRest fuel _) as [rest|]; [|discriminate].
      intros [= <- <-].
      exists [FillText line x (lineY lineCount)], (FillText (rest ++ ellipsis) x (lineY (lineCount + 1))).
      split; [reflexivity |]. constructor; [simpl; auto | constructor].
    + destruct (wrapLoop fuel (S n) _ _) as [[ops' e']|] eqn:Hrec; [|discriminate].
      intros [= <- <-]. apply IH in Hrec as (commits & final & -> & Hall); [|auto].
      exists (FillText line x (lineY lineCount) :: commits), final.
      split; [reflexivity |]. constructor; [simpl; auto | exact Hall].
  - destruct (wrapLoop fuel (S n) _ _) as [[ops' e']|] eqn:Hrec; [|discriminate].
    intros [= <- <-]. apply IH in Hrec; [exact Hrec |].
    intros _ Hnext. now apply testLineOf_nonempty, Hword.
Qed.

Definition isFillText (o : CanvasOp) : Prop :=
  match o with
  | FillText _ _ _ => True
  | _ => False
  end.

Lemma wrapLoop_fillText (fuel n : nat) (line : jsstring) (lineCount : Z)
  (ops : list CanvasOp) (e : Exit) :
  wrapLoop fuel n line lineCount = Some (ops, e) -> Forall isFillText ops.
Proof.
  revert n line lineCount ops e.
  induction fuel as [|fuel IH]; intros n line lineCount ops e; [discriminate |].
  simpl. destruct (n <? length words).
  2:{ intros [= <- <-]. repeat constructor. }
  unfold VideoGenerator.wrapTurn.
  destruct (Qgtb _ _ && _).
  - destruct (_ >=? _)%Z.
    + destruct (truncateRest fuel _) as [rest|]; [|discriminate].
      intros [= <- <-]. repeat constructor.
    + destruct (wrapLoop fuel (S n) _ _) as [[ops' e']|] eqn:Hrec; [|discriminate].
      intros [= <- <-]. apply IH in Hrec. constructor; [exact I | exact Hrec].
  - destruct (wrapLoop fuel (S n) _ _) as [[ops' e']|] eqn:Hrec; [|discriminate].
    intros [= <- <-]. now apply IH in Hrec.
Qed.

End Facts.

(** A string is at least as wide as its initial and final parts. *)
Definition widthMonotone (measureText : jsstring -> Q) : Prop :=
  forall a b, (measureText a <= measureText (a ++ b))%Q /\
              (measureText b <= measureText (a ++ b))%Q.

Section Wide.

Variable measureText : jsstring -> Q.
Variables (text : jsstring) (x y maxWidth lineHeight : Q) (maxLines : Z).

Local Abbreviation truncateRest := (truncateRest measureText maxWidth).
Local Abbreviation wrapTurn := (wrapTurn measureText text x y maxWidth lineHeight maxLines).
Local Abbreviation wrapLoop := (wrapLoop measureText text x y maxWidth lineHeight maxLines).
Local Abbreviation words := (words text).
Local Abbreviation lineY := (lineY y lineHeight).

Hypothesis monotone : widthMonotone measureText.

Let wide (s : jsstring) : Prop := (maxWidth < measureText s)%Q.

Lemma wide_testLine_line (line word : jsstring) :
  wide line -> wide (testLineOf line word).
Proof.
  intros Hline. unfold testLineOf. destruct line as [|c line]; simpl.
  - eapply Qlt_le_trans; [exact Hline |]. apply (monotone [] word).
  - eapply Qlt_le_trans; [exact Hline |]. apply (monotone (c :: line) (space :: word)).
Qed.

Lemma wide_testLine_word (line word : jsstring) :
  wide word -> wide (testLineOf line word).
Proof.
  intros Hword. unfold testLineOf. destruct line as [|c line]; simpl; [exact Hword |].
  eapply Qlt_le_trans; [exact Hword |].
  change (c :: line ++ space :: word) with ((c :: line) ++ [space] ++ word).
  rewrite app_assoc. apply (monotone ((c :: line) ++ [space]) word).
Qed.

(** The rest of the text from token [n] on starts with that token. *)
Lemma word_prefix_rest (n : nat) :
  n < length words -> nth n words [] `prefix_of` join_space (drop n words).
Proof.
  intros Hn. rewrite (drop_nth_cons words n ([] : jsstring) Hn).
  destruct (drop (S n) words) as [|w ws] eqn:Hrest; [reflexivity |].
  rewrite join_space_cons by discriminate. now exists (space :: join_space (w :: ws)).
Qed.

(** A word too wide to fit is cut when the truncated line starts with
    it. *)
Lemma truncateRest_cuts_word (fuel n : nat) (r : jsstring) :
  n < length words -> wide (nth n words []) ->
  truncateRest fuel (join_space (drop n words)) = Some r ->
  r `prefix_of` nth n words [] /\ (r = nth n words [] -> nth n words [] = []).
Proof.
  intros Hn Hwide Hr.
  pose proof (truncateRest_prefix _ _ _ _ _ Hr) as Hprefix.
  destruct (truncateRest_result _ _ _ _ _ Hr) as [Hfits | ->].
  - destruct (prefix_weak_total _ _ _ Hprefix (word_prefix_rest n Hn)) as [Hrw | [s Hwr]].
    + split; [exact Hrw |]. intros Heq. exfalso. rewrite Heq in Hfits.
      apply (Qlt_not_le _ _ Hwide). eapply Qle_trans; [|exact Hfits].
      apply (monotone (nth n words []) ellipsis).
    + exfalso. rewrite Hwr, <- app_assoc in Hfits.
      apply (Qlt_not_le _ _ Hwide). eapply Qle_trans; [|exact Hfits].
      apply (monotone (nth n words []) (s ++ ellipsis)).
  - split; [apply prefix_nil | congruence].
Qed.

(** Where the words wider than [maxWidth] end up: the current line, if it
    is too wide, is the next line drawn; and a token too wide is drawn
    whole on a line of its own, unless the truncated line starts at or
    before it. *)
Lemma wrapLoop_wide (fuel n : nat) (line : jsstring) (lineCount : Z)
  (ops : list CanvasOp) (e : Exit) :
  (n = 0 -> line = []) ->
  wrapLoop fuel n line lineCount = Some (ops, e) ->
  (0 < n -> wide line -> head ops = Some (FillText line x (lineY lineCount))) /\
  forall m, n <= m < length words -> wide (nth m words []) ->
    (exists k, ops !! k
               = Some (FillText (nth m words []) x (lineY (lineCount + Z.of_nat k)))) \/
    (e = ReturnedTruncated /\
     exists j r ty,
       0 < j /\ n <= j <= m /\
       last ops = Some (FillText (r ++ ellipsis) x ty) /\
       r `prefix_of` join_space (drop j words) /\
       (j = m -> r `prefix_of` nth m words [] /\
                 (r = nth m words [] -> nth m words [] = []))).
Proof.
  revert n line lineCount ops e.
  induction fuel as [|fuel IH]; intros n line lineCount ops e Hinit; [discriminate |].
  cbn [VideoGenerator.wrapLoop].
  destruct (Nat.ltb_spec n (length words)) as [Hn | Hn].
  2:{ intros [= <- <-]. split; [reflexivity |]. intros m Hm. lia. }
  unfold VideoGenerator.wrapTurn. cbv zeta.
  set (w := nth n words []). set (candidate := testLineOf line w).
  destruct (Qgtb (measureText candidate) maxWidth && (0 <? n)) eqn:Hcond.
  - apply andb_true_iff in Hcond as [Hcand Hpos]. apply Nat.ltb_lt in Hpos.
    destruct (lineCount + 1 >=? maxLines - 1)%Z.
    + destruct (truncateRest fuel (join_space (drop n words))) as [r|] eqn:Hr;
        [|discriminate].
      intros [= <- <-]. split; [reflexivity |].
      intros m Hm Hwide. right. split; [reflexivity |].
      exists n, r, (lineY (lineCount + 1)).
      split; [exact Hpos |]. split; [lia |]. split; [reflexivity |].
      split; [eapply truncateRest_prefix, Hr |].
      intros <-. eapply truncateRest_cuts_word; eassumption.
    + destruct (wrapLoop fuel (S n) w (lineCount + 1)) as [[ops' e']|] eqn:Hrest;
        [|discriminate].
      intros [= <- <-].
      destruct (IH (S n) w (lineCount + 1)%Z ops' e' ltac:(lia) Hrest) as [Hhead Hlater].
      split; [reflexivity |].
      intros m Hm Hwide. destruct (Nat.eq_dec m n) as [-> | Hne].
      * left. exists 1. cbn [app]. change ((?a :: ?l) !! 1) with (l !! 0).
        rewrite <- head_lookup. rewrite (Hhead ltac:(lia) Hwide).
        now replace (lineCount + Z.of_nat 1)%Z with (lineCount + 1)%Z by lia.
      * destruct (Hlater m ltac:(lia) Hwide)
          as [[k Hk] | (-> & j & r & ty & Hj & Hjm & Hlast & Hr & Hcut)].
        -- left. exists (S k). cbn [app]. rewrite lookup_cons. rewrite Hk.
           now replace (lineCount + Z.of_nat (S k))%Z with (lineCount + 1 + Z.of_nat k)%Z
             by lia.
        -- right. split; [reflexivity |]. exists j, r, ty.
           split; [exact Hj |]. split; [lia |]. split; [|split; assumption].
           cbn [app]. rewrite last_cons, Hlast. reflexivity.
  - intros Hrun.
    destruct (wrapLoop fuel (S n) candidate lineCount) as [[ops' e']|] eqn:Hrest;
      [|discriminate].
    injection Hrun as <- <-. cbn [app].
    destruct (IH (S n) candidate lineCount ops' e' ltac:(lia) Hrest) as [Hhead Hlater].
    assert (Hnarrow : wide candidate -> n = 0).
    { intros Hwide. apply Qgtb_true in Hwide. rewrite Hwide in Hcond.
      destruct n; [reflexivity | discriminate]. }
    split.
    + intros Hpos Hline. exfalso.
      pose proof (Hnarrow (wide_testLine_line line w Hline)). lia.
    + intros m Hm Hwide. destruct (Nat.eq_dec m n) as [-> | Hne].
      * pose proof (Hnarrow (wide_testLine_word line w Hwide)) as Hzero.
        assert (Hcandidate : candidate = w).
        { subst candidate. rewrite (Hinit Hzero). reflexivity. }
        left. exists 0. rewrite <- head_lookup.
        rewrite (Hhead ltac:(lia)) by (rewrite Hcandidate; exact Hwide).
        rewrite Hcandidate.
        now replace (lineCount + Z.of_nat 0)%Z with lineCount by lia.
      * destruct (Hlater m ltac:(lia) Hwide)
          as [Hk | (-> & j & r & ty & Hj & Hjm & Hrestj)].
        -- left. exact Hk.
        -- right. split; [reflexivity |]. exists j, r, ty.
           split; [exact Hj |]. split; [lia | exact Hrestj].
Qed.


End Wide.

Lemma tenPerUnit_monotone : widthMonotone tenPerUnit.
Proof.
  intros a b. unfold tenPerUnit. rewrite length_app.
  split; rewrite <- Zle_Qle; lia.
Qed.



Lemma split_space_single (s : jsstring) :
  Forall (fun c => c <> space) s -> split_space s = [s].
Proof.
  induction 1 as [|c s Hc _ IH]; [reflexivity |].
  simpl. destruct (N.eqb_spec c space); [congruence |]. now rewrite IH.
Qed.

Lemma wrapText_returns (measureText : jsstring -> Q) (text : jsstring)
  (x y maxWidth lineHeight : Q) (maxLines : Z) :
  exists res, wrapText measureText text x y maxWidth lineHeight maxLines = Some res.
Proof. apply wrapLoop_enough. unfold wrapText_bound. lia. Qed.

(** Past the last token the [for] loop is left at once. *)
Lemma wrapLoop_past_tokens (measureText : jsstring -> Q) (text : jsstring)
  (x y maxWidth lineHeight : Q) (maxLines : Z) (fuel extra : nat)
  (line : jsstring) (lineCount : Z) :
  wrapLoop measureText text x y maxWidth lineHeight maxLines (S fuel)
    (length (words text) + extra) line lineCount
  = Some ([FillText line x (lineY y lineHeight lineCount)], ReachedEnd).
Proof.
  simpl. destruct (Nat.ltb_spec (length (words text) + extra) (length (words text)));
    [lia | reflexivity].
Qed.

(** C10.  [wrapText] terminates on every input, whatever the font measures:
    one test of the [while] condition that runs the body strictly shortens
    [rest]; the [while] loop is left after at most as many shortenings as
    [rest] has code units (so also when the ellipsis alone is wider than
    [maxWidth]); the [for] loop takes one token a turn and is left at once
    past the last token; and the whole call returns within a number of
    loop tests bounded by the number of tokens plus the length of the
    text. *)
Theorem wrapText_terminates (measureText : jsstring -> Q) (text : jsstring)
  (x y maxWidth lineHeight : Q) (maxLines : Z) :
  (forall rest : jsstring,
     match truncateStep measureText maxWidth rest with
     | Some rest' => length rest' < length rest
     | None => True
     end) /\
  (forall (rest : jsstring) (extra : nat),
     exists r, truncateRest measureText maxWidth (S (length rest) + extra) rest = Some r
               /\ length r <= length rest) /\
  (forall (fuel extra : nat) (line : jsstring) (lineCount : Z),
     wrapLoop measureText text x y maxWidth lineHeight maxLines (S fuel)
       (length (words text) + extra) line lineCount
     = Some ([FillText line x (lineY y lineHeight lineCount)], ReachedEnd)) /\
  (forall extra : nat,
     exists res,
       wrapText_fuel measureText text x y maxWidth lineHeight maxLines
         (wrapText_bound text + extra) = Some res) /\
  (exists res, wrapText measureText text x y maxWidth lineHeight maxLines = Some res).
Proof.
  split; [|split; [|split; [|split]]].
  - intros rest. destruct (truncateStep _ _ rest) eqn:Hs; [|exact I].
    eapply truncateStep_shorter, Hs.
  - intros rest extra. apply truncateRest_enough. lia.
  - intros fuel extra line lineCount. apply wrapLoop_past_tokens.
  - intros extra. apply wrapLoop_enough. unfold wrapText_bound. lia.
  - apply wrapText_returns.
Qed.

(** The ellipsis alone is wider than [maxWidth]: the loop empties [rest]
    and stops. *)
Example truncateRest_narrow :
  truncateRest tenPerUnit 5 4 (js "abc") = Some [].
Proof. reflexivity. Qed.

(** C1, as the code has it.  For [maxLines >= 2], [wrapText] draws at most
    [maxLines] lines; and when it returns after truncating, the last line
    drawn is the shortened rest followed by the ellipsis, on line
    [maxLines - 1], and it is no wider than [maxWidth] unless the rest has
    been shortened to nothing (the bare ellipsis is drawn whatever its
    width). *)
Theorem wrapText_at_most_maxLines (measureText : jsstring -> Q) (text : jsstring)
  (x y maxWidth lineHeight : Q) (maxLines : Z) (fuel : nat)
  (ops : list CanvasOp) (e : Exit) :
  (2 <= maxLines)%Z ->
  wrapText_fuel measureText text x y maxWidth lineHeight maxLines fuel = Some (ops, e) ->
  (Z.of_nat (length ops) <= maxLines)%Z /\
  (e = ReturnedTruncated ->
   exists rest,
     last ops = Some (FillText (rest ++ ellipsis) x (lineY y lineHeight (maxLines - 1))) /\
     ((measureText (rest ++ ellipsis) <= maxWidth)%Q \/ rest = [])).
Proof.
  intros HmaxLines Hrun.
  apply wrapLoop_lines in Hrun as [Hlen Hlast]; [|lia].
  split; [lia | exact Hlast].
Qed.

Lemma wrapText_at_most_maxLines_witness :
  (Z.of_nat (length [FillText (js "ab cd") 0 (0 + inject_Z 0 * 44);
                     FillText (js "ef g" ++ ellipsis) 0 (0 + inject_Z 1 * 44)]) <= 2)%Z /\
  (ReturnedTruncated = ReturnedTruncated ->
   exists rest,
     last [FillText (js "ab cd") 0 (0 + inject_Z 0 * 44);
           FillText (js "ef g" ++ ellipsis) 0 (0 + inject_Z 1 * 44)]
     = Some (FillText (rest ++ ellipsis) 0 (lineY 0 44 (2 - 1))) /\
     ((tenPerUnit (rest ++ ellipsis) <= 50)%Q \/ rest = [])).
Proof.
  apply (wrapText_at_most_maxLines tenPerUnit (js "ab cd ef gh") 0 0 50 44 2 20).
  - lia.
  - reflexivity.
Defined.

(** C1 as stated fails twice, with [maxWidth > 0] and [maxLines >= 1].
    With [maxLines = 1] two lines are drawn; and with a [maxWidth] smaller
    than the ellipsis the truncated last line is wider than [maxWidth]. *)
Lemma wrapText_claim_counterexample :
  (exists ops,
     wrapText tenPerUnit (js "a b") 0 0 15 44 1 = Some (ops, ReturnedTruncated) /\
     ops = [FillText (js "a") 0 (0 + inject_Z 0 * 44);
            FillText ellipsis 0 (0 + inject_Z 1 * 44)] /\
     ~ (Z.of_nat (length ops) <= 1)%Z) /\
  (exists ops rest,
     wrapText tenPerUnit (js "a b") 0 0 5 44 2 = Some (ops, ReturnedTruncated) /\
     last ops = Some (FillText (rest ++ ellipsis) 0 (0 + inject_Z 1 * 44)) /\
     ~ (tenPerUnit (rest ++ ellipsis) <= 5)%Q).
Proof.
  split.
  - eexists. split; [reflexivity |]. split; [reflexivity |]. simpl. lia.
  - exists [FillText (js "a") 0 (0 + inject_Z 0 * 44);
            FillText ellipsis 0 (0 + inject_Z 1 * 44)], [].
    split; [reflexivity |]. split; [reflexivity |].
    intros H. apply H. reflexivity.
Qed.

(** C7, as the code has it.  A turn of the loop commits the current line
    (draws it, and goes on with a fresh line that starts with the token, or
    returns after the truncated rest of the text) exactly when the candidate
    line is wider than [maxWidth] and the token is not the first one; in any
    other case it draws nothing and keeps the candidate.  A non-empty current
    line is only met at [n > 0], so it is committed whenever the candidate is
    too wide.  When no token but the last is empty (the text has no leading
    and no doubled space), every committed line is non-empty.
    A text without a space is drawn whole, on one line, whatever its
    width.  And when a string is at least as wide as its parts, a word wider
    than [maxWidth] is drawn whole on a line of its own, unless the
    truncated last line starts at or before it; the truncated line never
    starts at the first word, and the word it starts with is cut. *)
Theorem wrapText_commit_rule (measureText : jsstring -> Q) (text : jsstring)
  (x y maxWidth lineHeight : Q) (maxLines : Z) :
  (forall (fuel n : nat) (line : jsstring) (lineCount : Z) (t : Turn),
     wrapTurn measureText text x y maxWidth lineHeight maxLines fuel n line lineCount
     = Some t ->
     let candidate := testLineOf line (nth n (words text) []) in
     ((maxWidth < measureText candidate)%Q /\ 0 < n ->
      head (turnOps t) = Some (FillText line x (lineY y lineHeight lineCount)) /\
      match t with
      | Continue line' lineCount' ops =>
          line' = nth n (words text) [] /\ lineCount' = (lineCount + 1)%Z /\
          length ops = 1
      | Return ops =>
          exists rest, rest `prefix_of` join_space (drop n (words text)) /\
            ops = [FillText line x (lineY y lineHeight lineCount);
                   FillText (rest ++ ellipsis) x (lineY y lineHeight (lineCount + 1))]
      end) /\
     (~ ((maxWidth < measureText candidate)%Q /\ 0 < n) ->
      t = Continue candidate lineCount [])) /\
  (forall (n : nat) (line : jsstring) (lineCount : Z),
     LoopHead measureText text x y maxWidth lineHeight maxLines n line lineCount ->
     line <> [] -> 0 < n) /\
  (forall (fuel : nat) (ops : list CanvasOp) (e : Exit),
     Forall (fun w => w <> []) (removelast (words text)) ->
     wrapText_fuel measureText text x y maxWidth lineHeight maxLines fuel = Some (ops, e) ->
     exists commits final, ops = commits ++ [final] /\ Forall drawsNonEmpty commits) /\
  (forall fuel : nat,
     Forall (fun c => c <> space) text ->
     wrapText_fuel measureText text x y maxWidth lineHeight maxLines (2 + fuel)
     = Some ([FillText text x (lineY y lineHeight 0)], ReachedEnd)) /\
  (widthMonotone measureText ->
   exists ops e,
     wrapText measureText text x y maxWidth lineHeight maxLines = Some (ops, e) /\
     forall m word,
       m < length (words text) -> word = nth m (words text) [] ->
       (maxWidth < measureText word)%Q ->
       (exists k, ops !! k = Some (FillText word x (lineY y lineHeight (Z.of_nat k)))) \/
       (e = ReturnedTruncated /\
        exists j rest ty,
          0 < j <= m /\
          last ops = Some (FillText (rest ++ ellipsis) x ty) /\
          rest `prefix_of` join_space (drop j (words text)) /\
          (j = m -> rest `prefix_of` word /\ (rest = word -> word = [])))).
Proof.
  split; [|split; [|split; [|split]]].
  - intros fuel n line lineCount t. apply wrapTurn_rule.
  - intros n line lineCount. apply LoopHead_first.
  - intros fuel ops e Hwords Hrun.
    eapply wrapLoop_commits_nonempty; [exact Hwords | | exact Hrun]. lia.
  - intros fuel Hword. unfold wrapText_fuel. simpl.
    unfold VideoGenerator.wrapTurn, VideoGenerator.words.
    rewrite (split_space_single text Hword). simpl.
    rewrite andb_false_r. reflexivity.
  - intros Hmonotone.
    destruct (wrapText_returns measureText text x y maxWidth lineHeight maxLines)
      as [[ops e] Hrun].
    exists ops, e. split; [exact Hrun |]. intros m word Hm -> Hwide.
    destruct (wrapLoop_wide measureText text x y maxWidth lineHeight maxLines Hmonotone
                _ 0 [] 0%Z ops e ltac:(reflexivity) Hrun) as [_ Hlater].
    destruct (Hlater m ltac:(lia) Hwide)
      as [[k Hk] | (-> & j & r & ty & Hj & Hjm & Hlast & Hr & Hcut)].
    + left. exists k. now rewrite Z.add_0_l in Hk.
    + right. split; [reflexivity |]. exists j, r, ty.
      split; [lia |]. split; [exact Hlast |]. split; [exact Hr | exact Hcut].
Qed.

(** The text "ab cd ef", fifty pixels wide at most, on up to three lines:
    the turn at [n = 2] commits "ab cd" and starts the line "ef"; no token
    is empty, and the one committed line is not empty either.  The single
    word "abcdefgh", eighty pixels wide, is drawn whole.  In
    "ab abcdefghij cd", on up to three lines, the word of a hundred pixels
    is not the one the truncated line starts with: it is drawn whole. *)
Lemma wrapText_commit_rule_witness :
  (head (turnOps (Continue (js "ef") 1 [FillText (js "ab cd") 0 (0 + inject_Z 0 * 44)]))
   = Some (FillText (js "ab cd") 0 (lineY 0 44 0))) /\
  (exists commits final,
     [FillText (js "ab cd") 0 (0 + inject_Z 0 * 44);
      FillText (js "ef") 0 (0 + inject_Z 1 * 44)] = commits ++ [final]
     /\ Forall drawsNonEmpty commits) /\
  wrapText_fuel tenPerUnit (js "abcdefgh") 0 0 50 44 3 (2 + 0)
  = Some ([FillText (js "abcdefgh") 0 (lineY 0 44 0)], ReachedEnd) /\
  (wrapText tenPerUnit (js "ab abcdefghij cd") 0 0 50 44 3
   = Some ([FillText (js "ab") 0 (lineY 0 44 0);
            FillText (js "abcdefghij") 0 (lineY 0 44 1);
            FillText (js "cd" ++ ellipsis) 0 (lineY 0 44 2)], ReturnedTruncated) /\
   exists ops e,
     wrapText tenPerUnit (js "ab abcdefghij cd") 0 0 50 44 3 = Some (ops, e) /\
     ((exists k, ops !! k = Some (FillText (js "abcdefghij") 0 (lineY 0 44 (Z.of_nat k)))) \/
      (e = ReturnedTruncated /\
       exists j rest ty,
         0 < j <= 1 /\
         last ops = Some (FillText (rest ++ ellipsis) 0 ty) /\
         rest `prefix_of` join_space (drop j (words (js "ab abcdefghij cd"))) /\
         (j = 1 -> rest `prefix_of` js "abcdefghij" /\
                   (rest = js "abcdefghij" -> js "abcdefghij" = []))))).
Proof.
  pose proof (wrapText_commit_rule tenPerUnit (js "ab cd ef") 0 0 50 44 3)
    as (Hturn & _ & Hcommits & _).
  pose proof (wrapText_commit_rule tenPerUnit (js "abcdefgh") 0 0 50 44 3)
    as (_ & _ & _ & Hsingle & _).
  pose proof (wrapText_commit_rule tenPerUnit (js "ab abcdefghij cd") 0 0 50 44 3)
    as (_ & _ & _ & _ & Hwide).
  split; [|split; [|split; [|split]]].
  - refine (proj1 (proj1 (Hturn 5 2 (js "ab cd") 0%Z _ eq_refl) _)).
    split; [reflexivity | lia].
  - apply (Hcommits 10 _ ReachedEnd).
    + repeat constructor; discriminate.
    + reflexivity.
  - apply Hsingle. repeat constructor; discriminate.
  - reflexivity.
  - destruct (Hwide tenPerUnit_monotone) as (ops & e & Hrun & Hword).
    exists ops, e. split; [exact Hrun |].
    apply (Hword 1 (js "abcdefghij")); [simpl; lia | reflexivity | reflexivity].
Defined.

(** C7 as stated fails in two ways.  On a text that starts with a space
    the first token is empty, so at [n = 1] the current line is empty, the
    candidate "ab" is wider than [maxWidth], and the empty line is
    committed.  And a word wider than [maxWidth] is broken when the
    truncated line starts with it: of "ab abcdefghij", on up to two lines
    of fifty pixels, the second line is "abcd" and the ellipsis. *)
Lemma wrapText_commits_empty_line :
  (words (js " ab") = [[]; js "ab"] /\
   wrapTurn tenPerUnit (js " ab") 0 0 15 44 3 5 1 [] 0
   = Some (Continue (js "ab") 1 [FillText [] 0 (0 + inject_Z 0 * 44)]) /\
   wrapText tenPerUnit (js " ab") 0 0 15 44 3
   = Some ([FillText [] 0 (0 + inject_Z 0 * 44);
            FillText (js "ab") 0 (0 + inject_Z 1 * 44)], ReachedEnd) /\
   ~ drawsNonEmpty (FillText [] 0 (0 + inject_Z 0 * 44))) /\
  (words (js "ab abcdefghij") = [js "ab"; js "abcdefghij"] /\
   (50 < tenPerUnit (js "abcdefghij"))%Q /\
   wrapText tenPerUnit (js "ab abcdefghij") 0 0 50 44 2
   = Some ([FillText (js "ab") 0 (0 + inject_Z 0 * 44);
            FillText (js "abcd" ++ ellipsis) 0 (0 + inject_Z 1 * 44)],
           ReturnedTruncated)).
Proof.
  repeat split. simpl. congruence.
Qed.

End WrapTextProofs.

(** ** drawFrame *)

Module DrawFrameProofs.

Import VideoGenerator.
Import WrapTextProofs.

Local Open Scope Q_scope.

Lemma inject_Z_nonzero (n : Z) : n <> 0%Z -> ~ inject_Z n == 0.
Proof. intros Hn H. apply Hn. apply (inject_Z_injective n 0). exact H. Qed.

Lemma Qdiv_nonzero (a b : Q) : ~ a == 0 -> ~ b == 0 -> ~ a / b == 0.
Proof.
  intros Ha Hb H. apply Ha.
  rewrite <- (Qmult_div_r a b Hb), H. apply Qmult_0_r.
Qed.

Lemma zoomDivisor_pos (total : Z) : 1 <= zoomDivisor total.
Proof.
  unfold zoomDivisor. change 1 with (inject_Z 1). rewrite <- Zle_Qle. lia.
Qed.

Lemma zoomDivisor_nonzero (total : Z) : ~ zoomDivisor total == 0.
Proof.
  pose proof (zoomDivisor_pos total) as H. intros H0. lra.
Qed.

Lemma zoomScale_first (total : Z) : zoomScale 0 total == 1.
Proof.
  unfold zoomScale, zoomProgress, Qdiv. change (inject_Z 0) with 0.
  rewrite !Qmult_0_l. reflexivity.
Qed.

Lemma zoomScale_last (total : Z) : (2 <= total)%Z -> zoomScale (total - 1) total == 11 # 10.
Proof.
  intros Htotal. unfold zoomScale, zoomProgress, zoomDivisor.
  rewrite Z.max_l by lia. unfold Qdiv.
  rewrite Qmult_inv_r by (apply inject_Z_nonzero; lia). reflexivity.
Qed.

Lemma zoomScale_monotone (total t1 t2 : Z) :
  (t1 <= t2)%Z -> zoomScale t1 total <= zoomScale t2 total.
Proof.
  intros Ht. unfold zoomScale, zoomProgress, Qdiv.
  apply Qplus_le_r. apply Qmult_le_compat_r; [|discriminate].
  apply Qmult_le_compat_r; [now rewrite <- Zle_Qle |].
  apply Qinv_le_0_compat. pose proof (zoomDivisor_pos total). lra.
Qed.

(** C2, as the code has it.  The scale follows
    [1 + (t / max (total - 1) 1) * 0.1]; it is exactly 1 at frame 0 and
    non-decreasing in the frame index for every [total]; it is exactly 1.1
    at the last frame when there are at least two frames, and a run of one
    frame keeps the scale 1. *)
Theorem zoomScale_linear (total : Z) :
  (1 <= total)%Z ->
  (forall t : Z,
     zoomScale t total == 1 + (inject_Z t / inject_Z (Z.max (total - 1) 1)) * (1 # 10)) /\
  zoomScale 0 total == 1 /\
  ((2 <= total)%Z -> zoomScale (total - 1) total == 11 # 10) /\
  (total = 1%Z -> zoomScale (total - 1) total == 1) /\
  (forall t1 t2 : Z, (t1 <= t2)%Z -> zoomScale t1 total <= zoomScale t2 total).
Proof.
  intros _. split; [reflexivity |]. split; [apply zoomScale_first |].
  split; [apply zoomScale_last |]. split; [|apply zoomScale_monotone].
  intros ->. apply zoomScale_first.
Qed.

Lemma zoomScale_linear_witness :
  (forall t : Z, zoomScale t 150 == 1 + (inject_Z t / inject_Z (Z.max (150 - 1) 1)) * (1 # 10)) /\
  zoomScale 0 150 == 1 /\
  ((2 <= 150)%Z -> zoomScale (150 - 1) 150 == 11 # 10) /\
  (150%Z = 1%Z -> zoomScale (150 - 1) 150 == 1) /\
  (forall t1 t2 : Z, (t1 <= t2)%Z -> zoomScale t1 150 <= zoomScale t2 150).
Proof. apply (zoomScale_linear 150). lia. Defined.

(** C2 as stated fails for a run of one frame: frame [totalFrames - 1] is
    frame 0, and its scale is 1, not 1.1. *)
Lemma zoomScale_single_frame :
  (1 <= 1)%Z /\ zoomScale (1 - 1) 1 == 1 /\ ~ zoomScale (1 - 1) 1 == 11 # 10.
Proof.
  split; [lia |]. split; [reflexivity |]. intros H. discriminate H.
Qed.

(** A division by zero would show as a [Divide] with a zero divisor. *)
Definition divisorNonzero (e : FrameEvent) : Prop :=
  match e with
  | Divide _ d => ~ d == 0
  | Op _ => True
  end.

Definition notDrawImage (e : FrameEvent) : Prop :=
  match e with
  | Op (DrawImage _ _ _ _ _) => False
  | _ => True
  end.

(** The media of the frame reports a zero width or height. *)
Definition zeroDimension (props : Props)
  (image : option HTMLImageElement) (video : option HTMLVideoElement) : Prop :=
  match mediaType props with
  | Image => exists img, image = Some img /\ (naturalWidth img = 0%Z \/ naturalHeight img = 0%Z)
  | Video => exists vid, video = Some vid /\ (videoWidth vid = 0%Z \/ videoHeight vid = 0%Z)
  end.

Section Facts.

Variable measureText : string -> jsstring -> Q.
Variable props : Props.

Lemma nonzero_true (n : Z) : nonzero n = true <-> n <> 0%Z.
Proof. unfold nonzero. rewrite negb_true_iff. apply Z.eqb_neq. Qed.

Hypothesis bandHeight : ~ height props - 100 - 120 == 0.

Lemma drawImageBranch_divisors (t total : Z) (image : HTMLImageElement) :
  Forall divisorNonzero (drawImageBranch props t total image).
Proof.
  unfold drawImageBranch. constructor; [apply zoomDivisor_nonzero |].
  destruct (nonzero _ && nonzero _) eqn:Hdim; [|constructor].
  apply andb_true_iff in Hdim as [Hw%nonzero_true Hh%nonzero_true].
  assert (Haspect : ~ inject_Z (naturalWidth image) / inject_Z (naturalHeight image) == 0)
    by (apply Qdiv_nonzero; now apply inject_Z_nonzero).
  destruct (gtQuotient _ _ _); simpl; repeat constructor;
    try exact bandHeight; try exact Haspect; try discriminate;
    now apply inject_Z_nonzero.
Qed.

Lemma drawVideoBranch_divisors (video : HTMLVideoElement) :
  Forall divisorNonzero (drawVideoBranch props video).
Proof.
  unfold drawVideoBranch.
  destruct (nonzero _ && nonzero _) eqn:Hdim; [|constructor].
  apply andb_true_iff in Hdim as [Hw%nonzero_true Hh%nonzero_true].
  assert (Haspect : ~ inject_Z (videoWidth video) / inject_Z (videoHeight video) == 0)
    by (apply Qdiv_nonzero; now apply inject_Z_nonzero).
  destruct (gtQuotient _ _ _); simpl; repeat constructor;
    try exact bandHeight; try exact Haspect; try discriminate;
    now apply inject_Z_nonzero.
Qed.

Lemma drawMedia_divisors (t total : Z)
  (image : option HTMLImageElement) (video : option HTMLVideoElement) :
  Forall divisorNonzero (drawMedia props t total image video).
Proof.
  unfold drawMedia.
  destruct (mediaType props), image as [img|], video as [vid|];
    try apply drawImageBranch_divisors; try constructor.
  all: destruct (readyState vid >=? 2)%Z;
    [apply drawVideoBranch_divisors | constructor].
Qed.

End Facts.

Lemma drawMedia_zeroDimension (props : Props) (t total : Z)
  (image : option HTMLImageElement) (video : option HTMLVideoElement) :
  zeroDimension props image video ->
  Forall notDrawImage (drawMedia props t total image video).
Proof.
  unfold zeroDimension, drawMedia.
  destruct (mediaType props).
  - intros (img & -> & Hz). unfold drawImageBranch.
    replace (nonzero (naturalWidth img) && nonzero (naturalHeight img)) with false.
    + repeat constructor.
    + symmetry. apply andb_false_iff. unfold nonzero.
      destruct Hz as [-> | ->]; auto.
  - intros (vid & -> & Hz).
    assert (Hbranch : drawVideoBranch props vid = []).
    { unfold drawVideoBranch.
      replace (nonzero (videoWidth vid) && nonzero (videoHeight vid)) with false;
        [reflexivity |].
      symmetry. apply andb_false_iff. unfold nonzero.
      destruct Hz as [-> | ->]; auto. }
    destruct image; destruct (_ >=? _)%Z; rewrite ?Hbranch; constructor.
Qed.

Lemma map_Op_fillText (ops : list CanvasOp) :
  Forall isFillText ops ->
  Forall divisorNonzero (map Op ops) /\ Forall notDrawImage (map Op ops).
Proof.
  induction 1 as [|o ops Ho _ [IH1 IH2]]; simpl; split; constructor; auto.
  - exact I.
  - destruct o; simpl in *; auto.
Qed.

Lemma drawFooter_total (measureText : string -> jsstring -> Q) (props : Props) :
  exists footer, drawFooter measureText props = Some footer /\
    Forall divisorNonzero footer /\ Forall notDrawImage footer.
Proof.
  unfold drawFooter.
  destruct (wrapText_returns (measureText titleFont) (title props)
              36 (height props - 120 + 24) (width props - 36 * 2) 44 2)
    as ([ops e] & Hwrap).
  rewrite Hwrap. eexists. split; [reflexivity |].
  apply wrapLoop_fillText, map_Op_fillText in Hwrap as [Hdiv Hdraw].
  split; apply Forall_app; (split; [repeat constructor | assumption]).
Qed.

(** The division [mediaW / mediaH], the one whose divisor can be zero. *)
Definition bandAspect (props : Props) : FrameEvent :=
  Divide (width props) (height props - 100 - 120).

Definition safeDivision (props : Props) (e : FrameEvent) : Prop :=
  divisorNonzero e \/ e = bandAspect props.

(** The divisions that do not depend on the media: [headerH / 2], and the
    progress of the zoom. *)
Definition plainDivision (t total : Z) (e : FrameEvent) : Prop :=
  match e with
  | Divide a d => (a = 100 /\ d = 2) \/ (a = inject_Z t /\ d = zoomDivisor total)
  | Op _ => True
  end.

Lemma drawMedia_safe (props : Props) (t total : Z)
  (image : option HTMLImageElement) (video : option HTMLVideoElement) :
  Forall (safeDivision props) (drawMedia props t total image video).
Proof.
  assert (Himage : forall img, Forall (safeDivision props) (drawImageBranch props t total img)).
  { intros img. unfold drawImageBranch.
    constructor; [left; apply zoomDivisor_nonzero |].
    destruct (nonzero _ && nonzero _) eqn:Hdim; [|constructor].
    apply andb_true_iff in Hdim as [Hw%nonzero_true Hh%nonzero_true].
    assert (Haspect : ~ inject_Z (naturalWidth img) / inject_Z (naturalHeight img) == 0)
      by (apply Qdiv_nonzero; now apply inject_Z_nonzero).
    destruct (gtQuotient _ _ _); cbn [app];
      (constructor; [right; reflexivity |]);
      repeat (constructor; [left; simpl; first
        [exact I | exact Haspect | now apply inject_Z_nonzero | discriminate] |]);
      constructor. }
  assert (Hvideo : forall vid, Forall (safeDivision props) (drawVideoBranch props vid)).
  { intros vid. unfold drawVideoBranch.
    destruct (nonzero _ && nonzero _) eqn:Hdim; [|constructor].
    apply andb_true_iff in Hdim as [Hw%nonzero_true Hh%nonzero_true].
    assert (Haspect : ~ inject_Z (videoWidth vid) / inject_Z (videoHeight vid) == 0)
      by (apply Qdiv_nonzero; now apply inject_Z_nonzero).
    destruct (gtQuotient _ _ _); cbn [app];
      (constructor; [right; reflexivity |]);
      repeat (constructor; [left; simpl; first
        [exact I | exact Haspect | now apply inject_Z_nonzero | discriminate] |]);
      constructor. }
  unfold drawMedia.
  destruct (mediaType props), image as [img|], video as [vid|];
    try apply Himage; try constructor.
  all: destruct (readyState vid >=? 2)%Z; [apply Hvideo | constructor].
Qed.

(** With a zero dimension no aspect ratio is computed. *)
Lemma drawMedia_zero_plain (props : Props) (t total : Z)
  (image : option HTMLImageElement) (video : option HTMLVideoElement) :
  zeroDimension props image video ->
  Forall (plainDivision t total) (drawMedia props t total image video).
Proof.
  unfold zeroDimension, drawMedia.
  destruct (mediaType props).
  - intros (img & -> & Hz). unfold drawImageBranch.
    replace (nonzero (naturalWidth img) && nonzero (naturalHeight img)) with false.
    + constructor; [right; split; reflexivity | constructor].
    + symmetry. apply andb_false_iff. unfold nonzero.
      destruct Hz as [-> | ->]; auto.
  - intros (vid & -> & Hz).
    assert (Hbranch : drawVideoBranch props vid = []).
    { unfold drawVideoBranch.
      replace (nonzero (videoWidth vid) && nonzero (videoHeight vid)) with false;
        [reflexivity |].
      symmetry. apply andb_false_iff. unfold nonzero.
      destruct Hz as [-> | ->]; auto. }
    destruct image; destruct (_ >=? _)%Z; rewrite ?Hbranch; constructor.
Qed.

Lemma map_Op_plain (t total : Z) (ops : list CanvasOp) :
  Forall (plainDivision t total) (map Op ops).
Proof. induction ops; simpl; constructor; [exact I | assumption]. Qed.

Lemma plainDivision_nonzero (t total : Z) (e : FrameEvent) :
  plainDivision t total e -> divisorNonzero e.
Proof.
  destruct e as [o | a d]; [trivial |]. simpl.
  intros [[_ ->] | [_ ->]]; [discriminate | apply zoomDivisor_nonzero].
Qed.

(** C9, as the code has it.  The zoom divisor is at least 1, and the aspect
    ratios of the media are computed, and divided by, only when both
    dimensions of the media are non-zero.  So the one division of
    [drawFrame] whose divisor can be zero is [mediaW / mediaH]: unless the
    media band has height zero ([height = 220]), no division has a zero
    divisor.  For every [height], media with a zero dimension are not
    drawn: the frame has no [drawImage], the band keeps the black fill, no
    aspect ratio is computed and no divisor is zero. *)
Theorem drawFrame_divisions (measureText : string -> jsstring -> Q) (props : Props)
  (t total : Z) (image : option HTMLImageElement) (video : option HTMLVideoElement) :
  exists events,
    drawFrame measureText props t total image video = Some events /\
    1 <= zoomDivisor total /\
    Forall (safeDivision props) events /\
    (~ height props == 220 -> Forall divisorNonzero events) /\
    (zeroDimension props image video ->
     Forall notDrawImage events /\
     In (Op (SetFillStyle "#000000")) events /\
     In (Op (FillRect 0 100 (width props) (height props - 100 - 120))) events /\
     Forall (plainDivision t total) events /\
     Forall divisorNonzero events).
Proof.
  unfold drawFrame.
  destruct (drawFooter_total measureText props) as (footer & Hfooter & Hdiv & Hdraw).
  assert (Hops : exists ops, footer
            = [Op (SetFillStyle "#0a0a0a"); Op (SetTextAlign "left");
               Op (SetTextBaseline "top"); Op (SetFont titleFont)] ++ map Op ops).
  { unfold drawFooter in Hfooter.
    destruct (wrapText _ _ _ _ _ _ _) as [[ops e]|]; [|discriminate].
    injection Hfooter as <-. now exists ops. }
  rewrite Hfooter. eexists. split; [reflexivity |].
  split; [apply zoomDivisor_pos |].
  assert (Hsafe : Forall (safeDivision props)
            (drawHeader props ++ drawMediaBand props
             ++ drawMedia props t total image video ++ footer)).
  { rewrite !Forall_app. repeat split.
    - repeat (constructor; [left; simpl; first [exact I | discriminate] |]). constructor.
    - repeat (constructor; [left; exact I |]). constructor.
    - apply drawMedia_safe.
    - eapply List.Forall_impl; [|exact Hdiv]. intros e He. now left. }
  split; [exact Hsafe |]. split.
  - intros Hheight.
    assert (Hband : ~ height props - 100 - 120 == 0) by (intros H; apply Hheight; lra).
    rewrite !Forall_app. repeat split.
    + repeat constructor; discriminate.
    + repeat constructor.
    + now apply drawMedia_divisors.
    + exact Hdiv.
  - intros Hzero.
    assert (Hplain : Forall (plainDivision t total)
              (drawHeader props ++ drawMediaBand props
               ++ drawMedia props t total image video ++ footer)).
    { destruct Hops as [ops ->]. rewrite !Forall_app. repeat split.
      - repeat (constructor; [simpl; first [exact I | left; split; reflexivity] |]).
        constructor.
      - repeat (constructor; [exact I |]). constructor.
      - now apply drawMedia_zero_plain.
      - repeat (constructor; [exact I |]). constructor.
      - apply map_Op_plain. }
    split; [|split; [|split; [|split]]].
    + rewrite !Forall_app. repeat split.
      * repeat constructor.
      * repeat constructor.
      * now apply drawMedia_zeroDimension.
      * exact Hdraw.
    + apply in_or_app. right. apply in_or_app. left. simpl. auto.
    + apply in_or_app. right. apply in_or_app. left. simpl. auto.
    + exact Hplain.
    + eapply List.Forall_impl; [|exact Hplain]. apply plainDivision_nonzero.
Qed.

Definition sampleProps (mt : MediaType) (h : Q) : Props :=
  {| title := js "Hello world"; mediaUrl := js "/a.jpg"; mediaType := mt;
     durationSec := 5; width := 1280; height := h |}.

Definition widthOfFont (font : string) : jsstring -> Q := tenPerUnit.

(** A canvas 220 high and an image without width: the band has height
    zero, and still nothing is divided by zero and nothing is drawn in the
    band. *)
Lemma drawFrame_divisions_witness :
  exists events,
    drawFrame widthOfFont (sampleProps Image 220) 0 150
      (Some {| naturalWidth := 0; naturalHeight := 600 |}) None = Some events /\
    Forall notDrawImage events /\
    Forall divisorNonzero events.
Proof.
  destruct (drawFrame_divisions widthOfFont (sampleProps Image 220) 0 150
              (Some {| naturalWidth := 0; naturalHeight := 600 |}) None)
    as (events & Hframe & _ & _ & _ & Hzero).
  exists events. split; [exact Hframe |].
  destruct Hzero as (Hdraw & _ & _ & _ & Hdiv).
  - simpl. eexists. split; [reflexivity |]. now left.
  - split; assumption.
Defined.

(** C9 as stated fails when [height = 220]: the media band then has height
    zero, and the band's aspect ratio [mediaW / mediaH] divides by it. *)
Lemma drawFrame_divides_by_zero :
  exists events d,
    drawFrame widthOfFont (sampleProps Image 220) 0 150
      (Some {| naturalWidth := 800; naturalHeight := 600 |}) None = Some events /\
    In (Divide 1280 d) events /\ d == 0.
Proof.
  eexists. exists (220 - 100 - 120). split; [reflexivity |].
  split; [|reflexivity]. simpl. tauto.
Qed.

End DrawFrameProofs.

(** ** handleGenerate *)

Module GenerateProofs.

Import VideoGenerator.

(** *** Reading a trace *)

Definition trace {A} (r : Run A) : list Event := fst r.
Definition outcome {A} (r : Run A) : Res A := snd r.

(** The calls of the frame compositor, as pairs of frame index and total. *)
Fixpoint drawCalls (tr : list Event) : list (Z * Z) :=
  match tr with
  | [] => []
  | DrawFrameCall f total :: tr' => (f, total) :: drawCalls tr'
  | _ :: tr' => drawCalls tr'
  end.

(** The state changes. *)
Fixpoint states (tr : list Event) : list GenState :=
  match tr with
  | [] => []
  | SetState s :: tr' => s :: states tr'
  | _ :: tr' => states tr'
  end.

(** The progress values of the [Recording] states. *)
Fixpoint progressValues (tr : list Event) : list Q :=
  match tr with
  | [] => []
  | SetState (Recording p) :: tr' => p :: progressValues tr'
  | _ :: tr' => progressValues tr'
  end.

(** The options with which a recorder is constructed. *)
Fixpoint recorders (tr : list Event) : list (option jsstring) :=
  match tr with
  | [] => []
  | NewMediaRecorder o :: tr' => o :: recorders tr'
  | _ :: tr' => recorders tr'
  end.

(** The terminal transitions: the changes to [Done] or to [Error]. *)
Fixpoint terminals (tr : list Event) : list GenState :=
  match tr with
  | [] => []
  | SetState (Done url size) :: tr' => Done url size :: terminals tr'
  | SetState (Error message) :: tr' => Error message :: terminals tr'
  | _ :: tr' => terminals tr'
  end.

(** The steps taken on the platform: everything but state changes and
    the pacing delays. *)
Definition isAttempt (ev : Event) : bool :=
  match ev with
  | SetState _ | WaitMs _ => false
  | _ => true
  end.

Fixpoint attempts (tr : list Event) : list Event :=
  match tr with
  | [] => []
  | ev :: tr' => if isAttempt ev then ev :: attempts tr' else attempts tr'
  end.

Lemma trace_pair {A} (tr : list Event) (r : Res A) : trace (tr, r) = tr.
Proof. reflexivity. Qed.

Lemma outcome_pair {A} (tr : list Event) (r : Res A) : outcome (tr, r) = r.
Proof. reflexivity. Qed.

Lemma drawCalls_app (a b : list Event) : drawCalls (a ++ b) = drawCalls a ++ drawCalls b.
Proof. induction a as [|[] a IH]; simpl; congruence. Qed.

Lemma states_app (a b : list Event) : states (a ++ b) = states a ++ states b.
Proof. induction a as [|[] a IH]; simpl; congruence. Qed.

Lemma progressValues_app (a b : list Event) :
  progressValues (a ++ b) = progressValues a ++ progressValues b.
Proof. induction a as [|[[]| | | | | | | | | | |] a IH]; simpl; congruence. Qed.

Lemma terminals_app (a b : list Event) : terminals (a ++ b) = terminals a ++ terminals b.
Proof. induction a as [|[[]| | | | | | | | | | |] a IH]; simpl; congruence. Qed.

Lemma recorders_app (a b : list Event) : recorders (a ++ b) = recorders a ++ recorders b.
Proof. induction a as [|[] a IH]; simpl; congruence. Qed.

Lemma attempts_app (a b : list Event) : attempts (a ++ b) = attempts a ++ attempts b.
Proof. induction a as [|[] a IH]; simpl; congruence. Qed.

(** *** Arithmetic of the progress values *)

Local Open Scope Q_scope.

Definition ratio (a b : Z) : Q := inject_Z a / inject_Z b.

Lemma inject_Z_pos (n : Z) : (0 < n)%Z -> 0 < inject_Z n.
Proof. intros H. change 0 with (inject_Z 0). now rewrite <- Zlt_Qlt. Qed.

Lemma ratio_le (a b t : Z) : (0 < t)%Z -> (a <= b)%Z -> ratio a t <= ratio b t.
Proof.
  intros Ht Hab. unfold ratio, Qdiv.
  apply Qmult_le_compat_r; [now rewrite <- Zle_Qle |].
  apply Qinv_le_0_compat, Qlt_le_weak, inject_Z_pos, Ht.
Qed.

Lemma ratio_0 (t : Z) : ratio 0 t == 0.
Proof. unfold ratio, Qdiv. change (inject_Z 0) with 0. apply Qmult_0_l. Qed.

Lemma ratio_same (t : Z) : (0 < t)%Z -> ratio t t == 1.
Proof.
  intros Ht. unfold ratio, Qdiv. apply Qmult_inv_r.
  intros H. apply inject_Z_pos in Ht. lra.
Qed.

Lemma ratio_minus (a b t : Z) : ratio (a - b) t == ratio a t - ratio b t.
Proof.
  unfold ratio, Qdiv, Z.sub. rewrite inject_Z_plus, inject_Z_opp. ring.
Qed.

Lemma progressOf_ratio (f t : Z) : progressOf f t = ratio (f + 1) t.
Proof. reflexivity. Qed.

(** The next index that is not a multiple of the step lies after the same
    multiple. *)
Lemma floor_multiple_succ (f s : Z) :
  (0 <= f)%Z -> (0 < s)%Z -> Z.rem (f + 1) s <> 0%Z ->
  (f + 1 - (f + 1) mod s = f - f mod s)%Z.
Proof.
  intros Hf Hs Hrem. rewrite Z.rem_mod_nonneg in Hrem by lia.
  pose proof (Z.mod_pos_bound f s Hs) as Hb.
  rewrite <- Zplus_mod_idemp_l in Hrem |- *.
  destruct (Z.eq_dec (f mod s + 1)%Z s) as [Heq | Hne].
  - rewrite Heq, Z_mod_same_full in Hrem. congruence.
  - rewrite Z.mod_small by lia. lia.
Qed.

Lemma floor_multiple_hit (f s : Z) :
  (0 <= f)%Z -> (0 < s)%Z -> Z.rem (f + 1) s = 0%Z ->
  (f + 1 - (f + 1) mod s = f + 1)%Z.
Proof.
  intros Hf Hs Hrem. rewrite Z.rem_mod_nonneg in Hrem by lia. lia.
Qed.

Lemma totalFramesOf_pos (d : Q) : (1 <= totalFramesOf d)%Z.
Proof. unfold totalFramesOf. lia. Qed.

Lemma updateStep_pos (t : Z) : (1 <= updateStep t)%Z.
Proof. unfold updateStep. lia. Qed.

Lemma default_last_cons {A} (d x : A) (l : list A) :
  default d (last (x :: l)) = default x (last l).
Proof. rewrite last_cons. now destruct (last l). Qed.

(** *** The frame loop *)

Section FrameLoop.

Variable env : Env.
Variable total : Z.

(** The state change of the turn at index [f], if it makes one. *)
Definition updateEvents (f : Z) : list Event :=
  if (Z.rem (f + 1) (updateStep total) =? 0)%Z
  then [SetState (Recording (progressOf f total))]
  else [].

Lemma frameLoop_S (count : nat) (f : Z) :
  frameLoop env (S count) f total =
  match drawFrame_throws env f with
  | Some e => ([DrawFrameCall f total], Thrown e)
  | None =>
      (DrawFrameCall f total :: WaitMs frameInterval ::
         updateEvents f ++ trace (frameLoop env count (f + 1) total),
       outcome (frameLoop env count (f + 1) total))
  end.
Proof.
  simpl. unfold frameTurn, updateEvents, trace, outcome.
  destruct (drawFrame_throws env f); [reflexivity |]. simpl.
  destruct (Z.rem _ _ =? 0)%Z; simpl;
    destruct (frameLoop env count (f + 1) total) as [tr r]; reflexivity.
Qed.

Lemma frameLoop_never_suspended (count : nat) (f : Z) :
  outcome (frameLoop env count f total) <> Suspended.
Proof.
  revert f. induction count as [|count IH]; intros f; [discriminate |].
  rewrite frameLoop_S. destruct (drawFrame_throws env f); [discriminate | apply IH].
Qed.

(** The frame indices are drawn in increasing order, once each, up to the
    frame that throws. *)
Lemma frameLoop_drawCalls (count : nat) (f : Z) :
  drawCalls (trace (frameLoop env count f total))
    `prefix_of` map (fun g => (g, total)) (seqZ f (Z.of_nat count)) /\
  (outcome (frameLoop env count f total) = Value tt ->
   drawCalls (trace (frameLoop env count f total))
   = map (fun g => (g, total)) (seqZ f (Z.of_nat count))).
Proof.
  revert f. induction count as [|count IH]; intros f; [split; reflexivity |].
  rewrite frameLoop_S, seqZ_cons by lia.
  replace (Z.pred (Z.of_nat (S count))) with (Z.of_nat count) by lia.
  replace (Z.succ f) with (f + 1)%Z by lia.
  destruct (drawFrame_throws env f).
  - split; [|discriminate]. simpl. apply prefix_cons, prefix_nil.
  - rewrite !trace_pair, !outcome_pair.
    assert (Hdc : forall tr, drawCalls (DrawFrameCall f total :: WaitMs frameInterval
                                         :: updateEvents f ++ tr)
                             = (f, total) :: drawCalls tr).
    { intros tr. unfold updateEvents. destruct (_ =? _)%Z; reflexivity. }
    rewrite Hdc. destruct (IH (f + 1)%Z) as [Hpre Heq]. split.
    + simpl. now apply prefix_cons.
    + intros Hv. simpl. f_equal. now apply Heq.
Qed.

(** A loop that throws has just called the compositor on the frame that
    threw. *)
Lemma frameLoop_throws (count : nat) (f : Z) (e : Exn) :
  outcome (frameLoop env count f total) = Thrown e ->
  exists g, (f <= g < f + Z.of_nat count)%Z /\ drawFrame_throws env g = Some e /\
            last (drawCalls (trace (frameLoop env count f total))) = Some (g, total).
Proof.
  revert f. induction count as [|count IH]; intros f; [discriminate |].
  rewrite frameLoop_S. destruct (drawFrame_throws env f) eqn:Hf.
  - intros [= <-]. exists f. split; [lia |]. split; [exact Hf | reflexivity].
  - rewrite outcome_pair, trace_pair.
    intros Ho. apply IH in Ho as (g & Hg & He & Hlast). exists g.
    split; [lia |]. split; [exact He |].
    unfold updateEvents. destruct (_ =? _)%Z; simpl; rewrite last_cons, Hlast; reflexivity.
Qed.

(** The loop only reports progress, constructs no recorder, and its only
    steps on the platform are the draw calls. *)
Lemma frameLoop_events (count : nat) (f : Z) :
  states (trace (frameLoop env count f total))
  = map Recording (progressValues (trace (frameLoop env count f total))) /\
  recorders (trace (frameLoop env count f total)) = [] /\
  terminals (trace (frameLoop env count f total)) = [] /\
  attempts (trace (frameLoop env count f total))
  = map (fun c => DrawFrameCall c.1 c.2) (drawCalls (trace (frameLoop env count f total))).
Proof.
  revert f. induction count as [|count IH]; intros f; [repeat split |].
  rewrite frameLoop_S. destruct (drawFrame_throws env f); [repeat split |].
  rewrite !trace_pair.
  destruct (IH (f + 1)%Z) as (Hs & Hr & Ht & Ha).
  unfold updateEvents. destruct (_ =? _)%Z; simpl; rewrite ?Hs, ?Hr, ?Ht, ?Ha; repeat split.
Qed.

Lemma frameLoop_value (count : nat) (f : Z) :
  outcome (frameLoop env count f total) = Value tt ->
  forall g, (f <= g < f + Z.of_nat count)%Z -> drawFrame_throws env g = None.
Proof.
  revert f. induction count as [|count IH]; intros f Ho g Hg; [lia |].
  rewrite frameLoop_S in Ho. destruct (drawFrame_throws env f) eqn:Hf; [discriminate |].
  rewrite outcome_pair in Ho.
  destruct (Z.eq_dec g f) as [-> | Hne]; [exact Hf |].
  apply (IH (f + 1)%Z Ho). lia.
Qed.

Hypothesis total_pos : (0 < total)%Z.

(** The progress values are sorted, and lie between the first one the
    loop can report and 1. *)
Lemma frameLoop_progress (count : nat) (f : Z) :
  (0 <= f)%Z -> (f + Z.of_nat count <= total)%Z ->
  let ps := progressValues (trace (frameLoop env count f total)) in
  StronglySorted Qle ps /\ Forall (fun p => progressOf f total <= p /\ p <= 1) ps.
Proof.
  revert f. induction count as [|count IH]; intros f Hf Hend ps.
  { split; constructor. }
  subst ps. rewrite frameLoop_S. destruct (drawFrame_throws env f).
  { split; constructor. }
  rewrite !trace_pair.
  destruct (IH (f + 1)%Z) as [Hsorted Hall]; [lia | lia |].
  assert (Hweaken : Forall (fun p => progressOf f total <= p /\ p <= 1)
                      (progressValues (trace (frameLoop env count (f + 1) total)))).
  { eapply Forall_impl; [exact Hall |]. intros p [Hlo Hhi]. split; [|exact Hhi].
    eapply Qle_trans; [|exact Hlo]. apply ratio_le; [exact total_pos | lia]. }
  unfold updateEvents. destruct (_ =? _)%Z; simpl.
  - split.
    + constructor; [exact Hsorted |].
      eapply Forall_impl; [exact Hweaken |]. now intros p [Hlo _].
    + constructor; [|exact Hweaken]. split; [apply Qle_refl |].
      rewrite <- (ratio_same total total_pos). apply ratio_le; [exact total_pos | lia].
  - split; assumption.
Qed.

(** The last progress value reported when the loop has run to its end:
    it belongs to the last multiple of the step. *)
Lemma frameLoop_last_progress (count : nat) (f : Z) (q : Q) :
  (0 <= f)%Z ->
  ratio (f - f mod updateStep total) total <= q ->
  outcome (frameLoop env count f total) = Value tt ->
  let ps := progressValues (trace (frameLoop env count f total)) in
  let last_f := (f + Z.of_nat count)%Z in
  ratio (last_f - last_f mod updateStep total) total <= default q (last ps).
Proof.
  revert f q. induction count as [|count IH]; intros f q Hf Hq Ho ps last_f.
  { subst ps last_f. simpl. now rewrite Z.add_0_r. }
  subst ps last_f. rewrite frameLoop_S in Ho |- *.
  destruct (drawFrame_throws env f); [discriminate |].
  rewrite outcome_pair in Ho. rewrite trace_pair.
  replace (f + Z.of_nat (S count))%Z with (f + 1 + Z.of_nat count)%Z by lia.
  pose proof (updateStep_pos total) as Hstep.
  unfold updateEvents. destruct (Z.eqb_spec (Z.rem (f + 1) (updateStep total)) 0) as [Hhit | Hmiss].
  - simpl. rewrite default_last_cons.
    apply (IH (f + 1)%Z (progressOf f total)); [lia | | exact Ho].
    rewrite floor_multiple_hit by lia. apply Qle_refl.
  - simpl. apply (IH (f + 1)%Z q); [lia | | exact Ho].
    rewrite floor_multiple_succ by lia. exact Hq.
Qed.

End FrameLoop.


Definition optionsOf (env : Env) : option jsstring :=
  if truthy (selectMimeType env) then Some (selectMimeType env) else None.

Definition loopRun (props : Props) (env : Env) : Run unit :=
  frameLoop env (Z.to_nat (totalFramesOf (durationSec props))) 0
    (totalFramesOf (durationSec props)).

Lemma generateBody_eq (props : Props) (env : Env) :
  generateBody props env =
  (emit (SetState (Recording 0)) ;;
   (if getContext_2d env then ret tt
    else throw (newError "Canvas 2D context not available.")) ;;
   prepareMedia props env ;;
   emit (CaptureStream fps) ;;
   call (captureStream_throws env) ;;
   emit (NewMediaRecorder (optionsOf env)) ;;
   call (MediaRecorder_throws env (optionsOf env)) ;;
   emit RecorderStart ;;
   call (recorder_start_throws env) ;;
   loopRun props env ;;
   emit RecorderStop ;;
   call (recorder_stop_throws env) ;;
   emit (NewBlob (or_else (selectMimeType env) (js "video/webm"))) ;;
   emit CreateObjectURL ;;
   match createObjectURL_result env with
   | inl e => throw e
   | inr url => emit (SetState (Done url (blob_size env)))
   end)%run.
Proof. reflexivity. Qed.

(** What a run of the frame loop contributes to the trace. *)
Record LoopFacts (props : Props) (env : Env) (loop : list Event) (r : Res unit) : Prop := {
  loop_not_suspended : r <> Suspended;
  loop_calls_prefix :
    drawCalls loop `prefix_of`
      map (fun f => (f, totalFramesOf (durationSec props)))
          (seqZ 0 (totalFramesOf (durationSec props)));
  loop_calls_all :
    r = Value tt ->
    drawCalls loop = map (fun f => (f, totalFramesOf (durationSec props)))
                         (seqZ 0 (totalFramesOf (durationSec props)));
  loop_throws :
    forall e, r = Thrown e ->
    exists g, (0 <= g < totalFramesOf (durationSec props))%Z /\
              drawFrame_throws env g = Some e /\
              last (drawCalls loop) = Some (g, totalFramesOf (durationSec props));
  loop_succeeds :
    r = Value tt ->
    forall g, (0 <= g < totalFramesOf (durationSec props))%Z ->
              drawFrame_throws env g = None;
  loop_states : states loop = map Recording (progressValues loop);
  loop_recorders : recorders loop = [];
  loop_terminals : terminals loop = [];
  loop_attempts : attempts loop = map (fun c => DrawFrameCall c.1 c.2) (drawCalls loop);
  loop_sorted : StronglySorted Qle (progressValues loop);
  loop_bounds : Forall (fun p => 0 <= p /\ p <= 1) (progressValues loop);
  loop_last :
    r = Value tt ->
    1 - ratio (updateStep (totalFramesOf (durationSec props)))
              (totalFramesOf (durationSec props))
    <= default 0 (last (progressValues loop))
}.

Lemma loopRun_facts (props : Props) (env : Env) (loop : list Event) (r : Res unit) :
  loopRun props env = (loop, r) -> LoopFacts props env loop r.
Proof.
  unfold loopRun. set (T := totalFramesOf (durationSec props)). intros Hrun.
  assert (HT : (1 <= T)%Z) by apply totalFramesOf_pos.
  assert (Hloop : loop = trace (frameLoop env (Z.to_nat T) 0 T)) by now rewrite Hrun.
  assert (Hr : r = outcome (frameLoop env (Z.to_nat T) 0 T)) by now rewrite Hrun.
  pose proof (frameLoop_drawCalls env T (Z.to_nat T) 0) as [Hpre Hall].
  pose proof (frameLoop_events env T (Z.to_nat T) 0) as (Hst & Hrec & Hterm & Hatt).
  destruct (frameLoop_progress env T ltac:(lia) (Z.to_nat T) 0) as [Hsorted Hbounds];
    [lia | lia |].
  rewrite Z2Nat.id in Hpre, Hall by lia. rewrite <- Hloop in *. rewrite <- Hr in *.
  split; try assumption.
  - rewrite Hr. apply frameLoop_never_suspended.
  - intros e He. rewrite Hr in He. apply frameLoop_throws in He as (g & Hg & He & Hlast).
    exists g. rewrite Hloop. split; [lia |]. split; [exact He | exact Hlast].
  - intros Hv g Hg. rewrite Hr in Hv. apply (frameLoop_value _ _ _ _ Hv). lia.
  - eapply Forall_impl; [exact Hbounds |]. intros p [Hlo Hhi]. split; [|exact Hhi].
    eapply Qle_trans; [|exact Hlo]. rewrite progressOf_ratio.
    rewrite <- (ratio_0 T). apply ratio_le; lia.
  - intros Hv. rewrite Hr in Hv.
    pose proof (frameLoop_last_progress env T (Z.to_nat T) 0 0) as Hlast.
    rewrite <- Hloop in Hlast. cbv zeta in Hlast.
    rewrite Z2Nat.id, Z.add_0_l, Zmod_0_l in Hlast by lia.
    eapply Qle_trans; [|apply Hlast; [lia | | exact Hv]].
    + fold T. rewrite <- (ratio_same T) by lia.
      rewrite <- (ratio_minus T (updateStep T) T).
      pose proof (updateStep_pos T) as Hstep.
      pose proof (Z.mod_pos_bound T (updateStep T) ltac:(lia)).
      apply ratio_le; lia.
    + change (0 - 0)%Z with 0%Z. rewrite ratio_0. apply Qle_refl.
Qed.

(** One step along a run: ask the environment for the answer the code
    waits for next. *)
Ltac run_step env props r :=
  cbn [try_catch bind emit call throw ret never app];
  match goal with
  | |- context [getContext_2d env] => destruct (getContext_2d env) eqn:Hctx
  | |- context [mediaType props] => destruct (mediaType props) eqn:Hmt
  | |- context [image_loads env] => destruct (image_loads env) eqn:Himg
  | |- context [video_play_rejects env] =>
      destruct (video_play_rejects env) as [ePlay|] eqn:Hplay
  | |- context [video_becomes_ready env] =>
      destruct (video_becomes_ready env) eqn:Hready
  | |- context [captureStream_throws env] =>
      destruct (captureStream_throws env) as [eCap|] eqn:Hcap
  | |- context [MediaRecorder_throws env (optionsOf env)] =>
      destruct (MediaRecorder_throws env (optionsOf env)) as [eRec|] eqn:Hrec
  | |- context [recorder_start_throws env] =>
      destruct (recorder_start_throws env) as [eStart|] eqn:Hstart
  | |- context [match r with _ => _ end] => destruct r as [[]|eLoop|]
  | |- context [recorder_stop_throws env] =>
      destruct (recorder_stop_throws env) as [eStop|] eqn:Hstop
  | |- context [createObjectURL_result env] =>
      destruct (createObjectURL_result env) as [eUrl|url] eqn:Hurl
  end.

(** All the runs of [handleGenerate], one goal for each; [F] holds the
    facts about the frame loop. *)
Ltac run_paths env props F :=
  let loop := fresh "loop" in
  let r := fresh "r" in
  let Hloop := fresh "Hloop" in
  unfold handleGenerate; rewrite generateBody_eq;
  unfold prepareMedia, waitImage, waitVideoReady, swallow;
  destruct (loopRun props env) as [loop r] eqn:Hloop;
  pose proof (loopRun_facts props env loop r Hloop) as F;
  clear Hloop;
  repeat run_step env props r;
  cbn [try_catch bind emit call throw ret never app];
  try (exfalso; apply (loop_not_suspended _ _ _ _ F); reflexivity).

(** Normal form of the projections of a trace. *)
Ltac norm_trace :=
  rewrite ?trace_pair, ?outcome_pair;
  rewrite <- ?app_assoc;
  cbn [app progressValues states drawCalls recorders terminals attempts isAttempt];
  rewrite ?progressValues_app, ?states_app, ?drawCalls_app, ?recorders_app,
    ?terminals_app, ?attempts_app;
  cbn [app progressValues states drawCalls recorders terminals attempts isAttempt];
  rewrite ?app_nil_r.

Ltac norm_last :=
  rewrite ?trace_pair; rewrite <- ?app_assoc; cbn [app];
  rewrite ?last_cons, ?last_app; cbn [last].

Lemma errorMessage_nonempty (e : Exn) : errorMessage e <> [].
Proof.
  unfold errorMessage, or_else. destruct (exn_message e) as [m|]; [|discriminate].
  destruct m; simpl; discriminate.
Qed.

(** C6.  Over a run, the progress values of the [Recording] states start
    at 0, never decrease and lie between 0 and 1; and when the run ends
    with the [Done] transition, the last value reported is within one
    update step of 1. *)
Theorem progress_monotone (props : Props) (env : Env) :
  let run := handleGenerate props env in
  let totalFrames := totalFramesOf (durationSec props) in
  head (progressValues (trace run)) = Some 0 /\
  StronglySorted Qle (progressValues (trace run)) /\
  Forall (fun p => 0 <= p /\ p <= 1) (progressValues (trace run)) /\
  (forall url size,
     last (trace run) = Some (SetState (Done url size)) ->
     exists p, last (progressValues (trace run)) = Some p /\
               1 - ratio (updateStep totalFrames) totalFrames <= p).
Proof.
  intros run totalFrames. subst run totalFrames.
  assert (Hzero : forall ps, StronglySorted Qle ps ->
                             Forall (fun p => 0 <= p /\ p <= 1) ps ->
                             StronglySorted Qle (0 :: ps) /\
                             Forall (fun p => 0 <= p /\ p <= 1) (0 :: ps)).
  { intros ps Hs Hb. split.
    - constructor; [exact Hs |]. eapply Forall_impl; [exact Hb |]. now intros p [Hlo _].
    - constructor; [split; discriminate | exact Hb]. }
  run_paths env props F.
  all: pose proof (Hzero _ (loop_sorted _ _ _ _ F) (loop_bounds _ _ _ _ F)) as [Hs Hb].
  all: pose proof (Hzero [] ltac:(constructor) ltac:(constructor)) as [Hs0 Hb0].
  all: split; [norm_trace; reflexivity |].
  all: split; [norm_trace; assumption |].
  all: split; [norm_trace; assumption |].
  all: intros url' size'; norm_last; intros Hdone; try discriminate Hdone.
  all: norm_trace.
  all: pose proof (loop_last _ _ _ _ F eq_refl) as Hlast.
  all: rewrite last_cons; destruct (last (progressValues loop)) as [p|];
    eexists; (split; [reflexivity | exact Hlast]).
Qed.

(** The steps of a run that can throw. *)
Inductive Step :=
| AtContext
| AtImage
| AtCaptureStream
| AtRecorder
| AtStart
| AtFrame (g : Z)
| AtStop
| AtObjectURL.

(** Step [s] of the run throws [e] (or rejects with it) when it is
    reached. *)
Definition stepThrows (props : Props) (env : Env) (s : Step) (e : Exn) : Prop :=
  match s with
  | AtContext =>
      getContext_2d env = false /\ e = newError "Canvas 2D context not available."
  | AtImage =>
      mediaType props = Image /\ image_loads env = false /\
      e = newError "Failed to load image for canvas."
  | AtCaptureStream => captureStream_throws env = Some e
  | AtRecorder => MediaRecorder_throws env (optionsOf env) = Some e
  | AtStart => recorder_start_throws env = Some e
  | AtFrame g =>
      (0 <= g < totalFramesOf (durationSec props))%Z /\ drawFrame_throws env g = Some e
  | AtStop => recorder_stop_throws env = Some e
  | AtObjectURL => createObjectURL_result env = inl e
  end.

(** The trace event of a step; the request for the context leaves none. *)
Definition stepEvent (props : Props) (env : Env) (s : Step) : option Event :=
  match s with
  | AtContext => None
  | AtImage => Some (ImageSrc (or_else (mediaUrl props) (js "/breaking-news-image.jpg")))
  | AtCaptureStream => Some (CaptureStream fps)
  | AtRecorder => Some (NewMediaRecorder (optionsOf env))
  | AtStart => Some RecorderStart
  | AtFrame g => Some (DrawFrameCall g (totalFramesOf (durationSec props)))
  | AtStop => Some RecorderStop
  | AtObjectURL => Some CreateObjectURL
  end.

Lemma last_map {A B} (f : A -> B) (l : list A) : last (map f l) = option_map f (last l).
Proof.
  induction l as [|a [|b l] IH]; [reflexivity | reflexivity |].
  change (last (f a :: map f (b :: l)) = option_map f (last (a :: b :: l))).
  now rewrite !last_cons_cons.
Qed.

(** The steps of a run in which nothing fails, in program order. *)
Definition plannedSteps (props : Props) (env : Env) : list Event :=
  match mediaType props with
  | Image => [ImageSrc (or_else (mediaUrl props) (js "/breaking-news-image.jpg"))]
  | Video => [VideoSrc (mediaUrl props); VideoPlay]
  end ++
  [CaptureStream fps; NewMediaRecorder (optionsOf env); RecorderStart] ++
  map (fun c => DrawFrameCall c.1 c.2)
      (map (fun f => (f, totalFramesOf (durationSec props)))
           (seqZ 0 (totalFramesOf (durationSec props)))) ++
  [RecorderStop; NewBlob (or_else (selectMimeType env) (js "video/webm")); CreateObjectURL].

Lemma prefix_map {A B} (f : A -> B) (l k : list A) :
  l `prefix_of` k -> map f l `prefix_of` map f k.
Proof. intros [rest ->]. exists (map f rest). apply map_app. Qed.

Ltac solve_prefix F :=
  repeat apply prefix_cons;
  first
    [ apply prefix_nil
    | reflexivity
    | rewrite (loop_attempts _ _ _ _ F), ?(loop_calls_all _ _ _ _ F eq_refl);
      first [ reflexivity
            | apply prefix_app; repeat apply prefix_cons; apply prefix_nil
            | apply prefix_app_r, prefix_map, (loop_calls_prefix _ _ _ _ F) ] ].

(** The steps attempted in a run are an initial part of the planned ones:
    no step is taken twice or out of order. *)
Lemma attempts_planned (props : Props) (env : Env) :
  attempts (trace (handleGenerate props env)) `prefix_of` plannedSteps props env.
Proof.
  unfold plannedSteps. run_paths env props F.
  all: norm_trace; cbn [app]; solve_prefix F.
Qed.

(** The failure met on a path: [k] gets the step, the exception and the
    proof that the step throws it. *)
Ltac with_failure props env F k :=
  let Hthrow := fresh "Hthrow" in
  match goal with
  | H : getContext_2d env = false |- _ =>
      assert (Hthrow : stepThrows props env AtContext
                         (newError "Canvas 2D context not available."))
        by (split; [exact H | reflexivity]);
      k AtContext (newError "Canvas 2D context not available.") Hthrow
  | Hm : mediaType props = Image, H : image_loads env = false |- _ =>
      assert (Hthrow : stepThrows props env AtImage
                         (newError "Failed to load image for canvas."))
        by (split; [exact Hm | split; [exact H | reflexivity]]);
      k AtImage (newError "Failed to load image for canvas.") Hthrow
  | H : captureStream_throws env = Some ?e |- _ =>
      assert (Hthrow : stepThrows props env AtCaptureStream e) by exact H;
      k AtCaptureStream e Hthrow
  | H : MediaRecorder_throws env (optionsOf env) = Some ?e |- _ =>
      assert (Hthrow : stepThrows props env AtRecorder e) by exact H;
      k AtRecorder e Hthrow
  | H : recorder_start_throws env = Some ?e |- _ =>
      assert (Hthrow : stepThrows props env AtStart e) by exact H;
      k AtStart e Hthrow
  | _ : LoopFacts _ _ _ (Thrown ?e) |- _ =>
      let g := fresh "g" in
      let Hg := fresh "Hg" in
      let He := fresh "He" in
      let Hlast := fresh "Hlast" in
      destruct (loop_throws _ _ _ _ F e eq_refl) as (g & Hg & He & Hlast);
      assert (Hthrow : stepThrows props env (AtFrame g) e) by (split; assumption);
      k (AtFrame g) e Hthrow
  | H : recorder_stop_throws env = Some ?e |- _ =>
      assert (Hthrow : stepThrows props env AtStop e) by exact H;
      k AtStop e Hthrow
  | H : createObjectURL_result env = inl ?e |- _ =>
      assert (Hthrow : stepThrows props env AtObjectURL e) by exact H;
      k AtObjectURL e Hthrow
  end.

(** On the path to [Done] no step throws. *)
Ltac no_failure F H :=
  match type of H with
  | stepThrows _ _ ?s _ =>
      destruct s; cbn [stepThrows] in H;
      [ destruct H as [H _]; congruence
      | destruct H as (? & ? & _); congruence
      | congruence
      | congruence
      | congruence
      | let Hg := fresh "Hg" in
        destruct H as [Hg H];
        pose proof (loop_succeeds _ _ _ _ F eq_refl _ Hg); congruence
      | congruence
      | congruence ]
  end.

(** A run in which nothing fails: the video, if any, becomes ready, and no
    step throws. *)
Definition allSucceed (props : Props) (env : Env) : Prop :=
  (mediaType props = Video -> video_becomes_ready env = true) /\
  forall s e, ~ stepThrows props env s e.

(** C3, as the code has it.  [totalFrames] is
    [max 1 (floor (durationSec * 30))], the product being the double that
    the multiplication of the two doubles rounds to: 150 for 5 seconds, 21
    for 0.7 and 122 for 4.1.  The compositor is called on the frame indices in increasing order from 0,
    at most once each, always with that total; a run that reaches [Done]
    has called it exactly once for every index below [totalFrames], and a
    run in which nothing fails reaches [Done].  A run that is not left
    waiting for the video makes exactly one terminal transition, to [Done]
    or to [Error], and that is the last thing it does. *)
Theorem frames_drawn_in_order (props : Props) (env : Env) :
  let run := handleGenerate props env in
  let totalFrames := totalFramesOf (durationSec props) in
  let allFrames := map (fun f => (f, totalFrames)) (seqZ 0 totalFrames) in
  totalFrames = Z.max 1 (Qfloor (toDouble (toDouble (durationSec props) * 30))) /\
  (1 <= totalFrames)%Z /\
  totalFramesOf 5 = 150%Z /\
  totalFramesOf (7 # 10) = 21%Z /\
  totalFramesOf (41 # 10) = 122%Z /\
  drawCalls (trace run) `prefix_of` allFrames /\
  (forall url size,
     terminals (trace run) = [Done url size] -> drawCalls (trace run) = allFrames) /\
  (allSucceed props env ->
   exists url, last (trace run) = Some (SetState (Done url (blob_size env))) /\
               drawCalls (trace run) = allFrames) /\
  (outcome run <> Suspended ->
   exists s, terminals (trace run) = [s] /\ last (trace run) = Some (SetState s)).
Proof.
  intros run totalFrames allFrames. subst run totalFrames allFrames.
  split; [reflexivity |]. split; [apply totalFramesOf_pos |].
  split; [vm_compute; reflexivity |]. split; [vm_compute; reflexivity |].
  split; [vm_compute; reflexivity |].
  run_paths env props F.
  all: split; [norm_trace; first [apply prefix_nil | apply (loop_calls_prefix _ _ _ _ F)] |].
  all: split;
    [intros url' size'; norm_trace; rewrite ?(loop_terminals _ _ _ _ F); cbn [app];
     intros Hdone; try discriminate Hdone; apply (loop_calls_all _ _ _ _ F eq_refl) |].
  all: split.
  all: try (intros [Hready' Hall];
            first [ with_failure props env F ltac:(fun s e H => now destruct (Hall s e H))
                  | specialize (Hready' Hmt); congruence
                  | eexists; split;
                    [norm_last; reflexivity
                    | norm_trace; apply (loop_calls_all _ _ _ _ F eq_refl)] ]).
  all: rewrite outcome_pair; intros Hout; try congruence.
  all: eexists; split;
    [norm_trace; rewrite ?(loop_terminals _ _ _ _ F); reflexivity | norm_last; reflexivity].
Qed.

Definition vp9 : jsstring := js "video/webm;codecs=vp9".
Definition vp8 : jsstring := js "video/webm;codecs=vp8".
Definition webm : jsstring := js "video/webm".

(** An environment for the examples: everything succeeds but what the
    arguments say. *)
Definition exampleEnv (imageLoads : bool) (play : option Exn) (videoReady : bool)
  (supported : list jsstring) (recorder : option Exn) (frame : Z -> option Exn) : Env :=
  {| getContext_2d := true;
     image_loads := imageLoads;
     video_play_rejects := play;
     video_becomes_ready := videoReady;
     captureStream_throws := None;
     isTypeSupported := fun m => existsb (fun c => bool_decide (c = m)) supported;
     MediaRecorder_throws := fun _ => recorder;
     recorder_start_throws := None;
     drawFrame_throws := frame;
     recorder_stop_throws := None;
     blob_size := 4096;
     createObjectURL_result := inr (js "blob:breaking-news") |}.

Definition exampleProps (mt : MediaType) (seconds : Q) : Props :=
  {| title := js "Hello world"; mediaUrl := js "/a.jpg"; mediaType := mt;
     durationSec := seconds; width := 1280; height := 720 |}.

Definition quietEnv : Env := exampleEnv true None true [vp8; webm] None (fun _ => None).

(** Five seconds, nothing fails: 150 draw calls and one transition, to
    [Done]. *)
Lemma frames_drawn_in_order_witness :
  length (drawCalls (trace (handleGenerate (exampleProps Image 5) quietEnv))) = 150%nat /\
  exists s,
    terminals (trace (handleGenerate (exampleProps Image 5) quietEnv)) = [s] /\
    last (trace (handleGenerate (exampleProps Image 5) quietEnv)) = Some (SetState s).
Proof.
  pose proof (frames_drawn_in_order (exampleProps Image 5) quietEnv)
    as (_ & _ & _ & _ & _ & _ & Hall & _ & Hterminal).
  split.
  - rewrite (Hall (js "blob:breaking-news") 4096%Z); vm_compute; reflexivity.
  - apply Hterminal. vm_compute. discriminate.
Defined.

(** C3 as stated fails on runs that do not get through the frame loop.
    When the image fails to load, a run of five seconds makes no draw call
    before its [Error]; and when the video never becomes ready, the run
    makes no terminal transition at all. *)
Lemma frames_not_always_drawn :
  (totalFramesOf (durationSec (exampleProps Image 5)) = 150%Z /\
   drawCalls (trace (handleGenerate (exampleProps Image 5)
                       (exampleEnv false None true [webm] None (fun _ => None)))) = [] /\
   terminals (trace (handleGenerate (exampleProps Image 5)
                       (exampleEnv false None true [webm] None (fun _ => None))))
   = [Error (js "Failed to load image for canvas.")]) /\
  (handleGenerate (exampleProps Video 5)
     (exampleEnv true None false [webm] None (fun _ => None))
   = ([SetState (Recording 0); VideoSrc (js "/a.jpg"); VideoPlay], Suspended)).
Proof. vm_compute. repeat split. Qed.

(** The first supported candidate, if any. *)
Lemma find_first {A} (f : A -> bool) (l : list A) :
  match find f l with
  | Some m =>
      f m = true /\
      exists before after, l = before ++ m :: after /\ Forall (fun c => f c = false) before
  | None => Forall (fun c => f c = false) l
  end.
Proof.
  induction l as [|c l IH]; simpl; [constructor |].
  destruct (f c) eqn:Hc.
  - split; [exact Hc |]. exists [], l. split; [reflexivity | constructor].
  - destruct (find f l) as [m|].
    + destruct IH as (Hm & before & after & -> & Hbefore).
      split; [exact Hm |]. exists (c :: before), after.
      split; [reflexivity | now constructor].
    + now constructor.
Qed.

Lemma selectMimeType_found (env : Env) (m : jsstring) :
  find (isTypeSupported env) mimeTypeCandidates = Some m ->
  selectMimeType env = m /\ optionsOf env = Some m.
Proof.
  intros Hfind. unfold optionsOf, selectMimeType. rewrite Hfind.
  assert (Hm : truthy m = true).
  { apply find_some in Hfind as [Hin _].
    simpl in Hin. destruct Hin as [<- | [<- | [<- | []]]]; reflexivity. }
  unfold or_else. rewrite Hm. cbn iota. rewrite Hm. auto.
Qed.

(** The types of the blobs a run makes. *)
Fixpoint blobs (tr : list Event) : list jsstring :=
  match tr with
  | [] => []
  | NewBlob type :: tr' => type :: blobs tr'
  | _ :: tr' => blobs tr'
  end.

Lemma blobs_app (a b : list Event) : blobs (a ++ b) = blobs a ++ blobs b.
Proof. induction a as [|[] a IH]; simpl; congruence. Qed.

(** The frame loop makes no blob, and its first step is the draw call of
    frame 0. *)
Lemma frameLoop_blobs (env : Env) (total : Z) (count : nat) (f : Z) :
  blobs (trace (frameLoop env count f total)) = [].
Proof.
  revert f. induction count as [|count IH]; intros f; [reflexivity |].
  rewrite frameLoop_S. destruct (drawFrame_throws env f); [reflexivity |].
  rewrite trace_pair. cbn [blobs]. rewrite blobs_app, IH.
  unfold updateEvents. destruct (_ =? _)%Z; reflexivity.
Qed.

Lemma loopRun_blobs (props : Props) (env : Env) : blobs (trace (loopRun props env)) = [].
Proof. apply frameLoop_blobs. Qed.

Lemma loopRun_first (props : Props) (env : Env) :
  head (drawCalls (trace (loopRun props env)))
  = Some (0%Z, totalFramesOf (durationSec props)).
Proof.
  unfold loopRun. pose proof (totalFramesOf_pos (durationSec props)) as Hpos.
  destruct (Z.to_nat (totalFramesOf (durationSec props))) as [|count] eqn:Hcount; [lia |].
  rewrite frameLoop_S. destruct (drawFrame_throws env 0); reflexivity.
Qed.

(** Every step before the frame loop succeeds. *)
Definition reachesLoop (props : Props) (env : Env) : Prop :=
  getContext_2d env = true /\
  match mediaType props with
  | Image => image_loads env = true
  | Video => video_becomes_ready env = true
  end /\
  captureStream_throws env = None /\
  MediaRecorder_throws env (optionsOf env) = None /\
  recorder_start_throws env = None.

Ltac norm_blobs :=
  rewrite ?trace_pair; rewrite <- ?app_assoc;
  cbn [app blobs]; rewrite ?blobs_app; cbn [app blobs]; rewrite ?app_nil_r.

(** What a run does with the format, whatever it is: the recorder is
    constructed at most once, with [optionsOf env], and it is constructed
    and frame 0 is drawn when every step before the loop succeeds; a blob
    is made at most once, of the type chosen or [video/webm], and a run
    that ends in [Done] has constructed the recorder and made the blob. *)
Lemma format_in_run (props : Props) (env : Env) :
  let run := handleGenerate props env in
  let type := or_else (selectMimeType env) (js "video/webm") in
  (recorders (trace run) = [] \/ recorders (trace run) = [optionsOf env]) /\
  (blobs (trace run) = [] \/ blobs (trace run) = [type]) /\
  (reachesLoop props env ->
   recorders (trace run) = [optionsOf env] /\
   head (drawCalls (trace run)) = Some (0%Z, totalFramesOf (durationSec props))) /\
  (forall href size,
     last (trace run) = Some (SetState (Done href size)) ->
     recorders (trace run) = [optionsOf env] /\ blobs (trace run) = [type]).
Proof.
  intros run type. subst run type.
  pose proof (loopRun_blobs props env) as Hblobs.
  pose proof (loopRun_first props env) as Hfirst.
  unfold reachesLoop. revert Hblobs Hfirst. run_paths env props F.
  all: rewrite ?trace_pair; intros Hblobs Hfirst.
  all: split;
    [norm_trace; rewrite ?(loop_recorders _ _ _ _ F); cbn [app]; auto |].
  all: split; [norm_blobs; rewrite ?Hblobs; cbn [app]; auto |].
  all: split.
  all: try (intros (Hc' & Hm' & Hcap' & Hrec' & Hstart'); cbn beta iota in Hm';
            first [ congruence
                  | split; [norm_trace; rewrite ?(loop_recorders _ _ _ _ F); reflexivity
                           | norm_trace; exact Hfirst] ]).
  all: intros href size; norm_last; intros Hdone; try discriminate Hdone.
  all: split; [norm_trace; rewrite ?(loop_recorders _ _ _ _ F); reflexivity
              | norm_blobs; rewrite ?Hblobs; reflexivity].
Qed.

(** C4, as the code has it.  The format is the first candidate that the
    environment supports, and the recorder is constructed with it.  When no
    candidate is supported the run does not fail for that: the recorder is
    constructed without options, the run goes on to the frame loop when the
    steps before it succeed, and the blob is typed [video/webm].  A run
    goes to [Error] without a turn of the frame loop when the constructor
    of the recorder throws. *)
Theorem mimeType_selection (props : Props) (env : Env) :
  let run := handleGenerate props env in
  (forall m,
     find (isTypeSupported env) mimeTypeCandidates = Some m ->
     selectMimeType env = m /\ optionsOf env = Some m /\
     isTypeSupported env m = true /\
     (exists before after,
        mimeTypeCandidates = before ++ m :: after /\
        Forall (fun c => isTypeSupported env c = false) before) /\
     (reachesLoop props env -> recorders (trace run) = [Some m]) /\
     (forall url size,
        last (trace run) = Some (SetState (Done url size)) ->
        recorders (trace run) = [Some m] /\ blobs (trace run) = [m])) /\
  (Forall (fun c => isTypeSupported env c = false) mimeTypeCandidates ->
   selectMimeType env = [] /\ optionsOf env = None /\
   or_else (selectMimeType env) (js "video/webm") = js "video/webm" /\
   (recorders (trace run) = [] \/ recorders (trace run) = [None]) /\
   (blobs (trace run) = [] \/ blobs (trace run) = [js "video/webm"]) /\
   (reachesLoop props env ->
    recorders (trace run) = [None] /\
    head (drawCalls (trace run)) = Some (0%Z, totalFramesOf (durationSec props))) /\
   (forall url size,
      last (trace run) = Some (SetState (Done url size)) ->
      recorders (trace run) = [None] /\ blobs (trace run) = [js "video/webm"])) /\
  (recorders (trace run) = [] \/ recorders (trace run) = [optionsOf env]) /\
  (forall e,
     MediaRecorder_throws env (optionsOf env) = Some e ->
     recorders (trace run) = [optionsOf env] ->
     drawCalls (trace run) = [] /\
     terminals (trace run) = [Error (errorMessage e)] /\
     last (trace run) = Some (SetState (Error (errorMessage e)))).
Proof.
  intros run. subst run.
  destruct (format_in_run props env) as (Hrecorders & Hblobs & Hloop & Hdone).
  cbv zeta in Hblobs, Hdone.
  split; [|split].
  - intros m Hfind. destruct (selectMimeType_found env m Hfind) as [Hsel Hopt].
    pose proof (find_first (isTypeSupported env) mimeTypeCandidates) as Hfirst.
    rewrite Hfind in Hfirst. destruct Hfirst as [Hm Hbefore].
    assert (Htype : or_else (selectMimeType env) (js "video/webm") = m).
    { rewrite Hsel. unfold optionsOf in Hopt. rewrite Hsel in Hopt.
      unfold or_else. destruct (truthy m); [reflexivity | discriminate]. }
    rewrite Hopt in Hloop, Hdone. rewrite Htype in Hdone.
    repeat (split; [assumption |]). split; [|exact Hdone].
    intros Hreach. now destruct (Hloop Hreach).
  - intros Hnone.
    assert (Hfind : find (isTypeSupported env) mimeTypeCandidates = None).
    { destruct (find _ _) as [m|] eqn:Hfind; [|reflexivity].
      apply find_some in Hfind as [Hin Hm]. rewrite List.Forall_forall in Hnone.
      rewrite (Hnone m Hin) in Hm. discriminate. }
    assert (Hsel : selectMimeType env = []) by (unfold selectMimeType; now rewrite Hfind).
    assert (Hopt : optionsOf env = None) by (unfold optionsOf; now rewrite Hsel).
    assert (Htype : or_else (selectMimeType env) (js "video/webm") = js "video/webm")
      by now rewrite Hsel.
    rewrite Hopt in Hrecorders, Hloop, Hdone. rewrite Htype in Hblobs, Hdone.
    repeat (split; [assumption |]). exact Hdone.
  - split; [exact Hrecorders |]. clear Hrecorders Hblobs Hloop Hdone.
    run_paths env props F.
    all: intros e He; norm_trace; rewrite ?(loop_recorders _ _ _ _ F); cbn [app];
      intros Hrecorders; try discriminate Hrecorders; try congruence.
    all: replace e with eRec by congruence.
    all: split; [reflexivity |]; split; [reflexivity |]; norm_last; reflexivity.
Qed.

(** VP9 is not supported, VP8 is: VP8 is chosen.  Nothing is supported and
    nothing fails: the recorder is constructed without options, frame 0 is
    drawn, and the blob is typed [video/webm].  A recorder that cannot be
    constructed ends the run before the first frame. *)
Lemma mimeType_selection_witness :
  (selectMimeType quietEnv = vp8 /\ optionsOf quietEnv = Some vp8 /\
   isTypeSupported quietEnv vp8 = true) /\
  (recorders (trace (handleGenerate (exampleProps Image 5)
      (exampleEnv true None true [] None (fun _ => None)))) = [None] /\
   head (drawCalls (trace (handleGenerate (exampleProps Image 5)
      (exampleEnv true None true [] None (fun _ => None))))) = Some (0%Z, 150%Z) /\
   blobs (trace (handleGenerate (exampleProps Image 5)
      (exampleEnv true None true [] None (fun _ => None)))) = [js "video/webm"]) /\
  (drawCalls (trace (handleGenerate (exampleProps Image 5)
      (exampleEnv true None true [] (Some (newError "NotSupportedError")) (fun _ => None))))
   = [] /\
   terminals (trace (handleGenerate (exampleProps Image 5)
      (exampleEnv true None true [] (Some (newError "NotSupportedError")) (fun _ => None))))
   = [Error (errorMessage (newError "NotSupportedError"))] /\
   last (trace (handleGenerate (exampleProps Image 5)
      (exampleEnv true None true [] (Some (newError "NotSupportedError")) (fun _ => None))))
   = Some (SetState (Error (errorMessage (newError "NotSupportedError"))))).
Proof.
  split; [|split].
  - destruct (proj1 (mimeType_selection (exampleProps Image 5) quietEnv) vp8 eq_refl)
      as (Hsel & Hopt & Hsup & _).
    auto.
  - destruct (proj1 (proj2 (mimeType_selection (exampleProps Image 5)
                (exampleEnv true None true [] None (fun _ => None))))
                ltac:(repeat constructor))
      as (_ & _ & _ & _ & _ & Hloop & Hdone).
    destruct Hloop as [Hrec Hfirst]; [vm_compute; repeat split |].
    split; [exact Hrec |]. split; [exact Hfirst |].
    exact (proj2 (Hdone (js "blob:breaking-news") 4096%Z ltac:(vm_compute; reflexivity))).
  - apply (mimeType_selection (exampleProps Image 5)
             (exampleEnv true None true [] (Some (newError "NotSupportedError"))
                (fun _ => None))); vm_compute; reflexivity.
Defined.

(** C4 as stated fails when no candidate is supported but the platform
    still constructs a recorder with its default format: the loop runs and
    the run ends in [Done]. *)
Lemma unsupported_formats_still_record :
  Forall (fun c => isTypeSupported (exampleEnv true None true [] None (fun _ => None)) c = false)
         mimeTypeCandidates /\
  recorders (trace (handleGenerate (exampleProps Image 5)
                      (exampleEnv true None true [] None (fun _ => None)))) = [None] /\
  length (drawCalls (trace (handleGenerate (exampleProps Image 5)
                              (exampleEnv true None true [] None (fun _ => None))))) = 150%nat /\
  terminals (trace (handleGenerate (exampleProps Image 5)
                      (exampleEnv true None true [] None (fun _ => None))))
  = [Done (js "blob:breaking-news") 4096].
Proof. repeat split; repeat constructor. Qed.

(** C5, as the code has it.  When a step of the run throws (the context is
    missing, the image fails to load, [captureStream], the recorder's
    constructor, [start] or [stop], a [drawFrame] call or
    [createObjectURL] throws) and the run is not left waiting for the
    video, the run ends with a transition to [Error] that carries the
    message of the exception a step threw, or the default message when it
    has none; the message is not empty; that transition is the only terminal
    one, so there is no [Done]; the steps taken are an initial part of the
    planned ones, so nothing is tried again; and the step that threw is the
    last one taken. *)
Theorem failure_ends_in_Error (props : Props) (env : Env) (s : Step) (e : Exn) :
  stepThrows props env s e ->
  outcome (handleGenerate props env) <> Suspended ->
  exists s' e',
    stepThrows props env s' e' /\
    outcome (handleGenerate props env) = Value tt /\
    last (trace (handleGenerate props env)) = Some (SetState (Error (errorMessage e'))) /\
    terminals (trace (handleGenerate props env)) = [Error (errorMessage e')] /\
    errorMessage e' <> [] /\
    attempts (trace (handleGenerate props env)) `prefix_of` plannedSteps props env /\
    last (attempts (trace (handleGenerate props env))) = stepEvent props env s'.
Proof.
  intros Hthrows Hout.
  pose proof (attempts_planned props env) as Hplanned.
  revert Hout Hplanned. run_paths env props F.
  all: rewrite outcome_pair; intros Hout Hplanned; try congruence.
  all: first
    [ with_failure props env F ltac:(fun s' e' H =>
        exists s', e'; split; [exact H |]; split; [reflexivity |];
        split; [norm_last; reflexivity |];
        split; [norm_trace; rewrite ?(loop_terminals _ _ _ _ F); reflexivity |];
        split; [apply errorMessage_nonempty |]; split; [exact Hplanned |];
        norm_trace; cbn [stepEvent];
        rewrite ?(loop_attempts _ _ _ _ F), ?last_cons, ?last_app, ?last_map;
        try match goal with
            | Hl : last (drawCalls _) = Some _ |- _ => rewrite Hl
            end;
        reflexivity)
    | exfalso; no_failure F Hthrows ].
Qed.

Definition throwsAt (g : Z) (e : Exn) (f : Z) : option Exn :=
  if (f =? g)%Z then Some e else None.

(** Frame 2 of a run of one second throws an exception without a message:
    three draw calls, then [Error] with the default message. *)
Lemma failure_ends_in_Error_witness :
  exists s' e',
    stepThrows (exampleProps Image 1)
      (exampleEnv true None true [webm] None (throwsAt 2 {| exn_message := None |})) s' e' /\
    outcome (handleGenerate (exampleProps Image 1)
      (exampleEnv true None true [webm] None (throwsAt 2 {| exn_message := None |})))
    = Value tt /\
    last (trace (handleGenerate (exampleProps Image 1)
      (exampleEnv true None true [webm] None (throwsAt 2 {| exn_message := None |}))))
    = Some (SetState (Error (errorMessage e'))) /\
    terminals (trace (handleGenerate (exampleProps Image 1)
      (exampleEnv true None true [webm] None (throwsAt 2 {| exn_message := None |}))))
    = [Error (errorMessage e')] /\
    errorMessage e' <> [] /\
    attempts (trace (handleGenerate (exampleProps Image 1)
      (exampleEnv true None true [webm] None (throwsAt 2 {| exn_message := None |}))))
    `prefix_of` plannedSteps (exampleProps Image 1)
      (exampleEnv true None true [webm] None (throwsAt 2 {| exn_message := None |})) /\
    last (attempts (trace (handleGenerate (exampleProps Image 1)
      (exampleEnv true None true [webm] None (throwsAt 2 {| exn_message := None |})))))
    = stepEvent (exampleProps Image 1)
        (exampleEnv true None true [webm] None (throwsAt 2 {| exn_message := None |})) s'.
Proof.
  apply (failure_ends_in_Error (exampleProps Image 1)
           (exampleEnv true None true [webm] None (throwsAt 2 {| exn_message := None |}))
           (AtFrame 2) {| exn_message := None |}).
  - split; [vm_compute; split; [discriminate | reflexivity] | reflexivity].
  - vm_compute. discriminate.
Defined.

(** C5 as stated fails for the start of the video playback: a rejected
    [play()] is swallowed, and the run goes on to [Done]. *)
Lemma rejected_play_still_done :
  video_play_rejects (exampleEnv true (Some (newError "NotAllowedError")) true [webm] None
                        (fun _ => None))
  = Some (newError "NotAllowedError") /\
  outcome (handleGenerate (exampleProps Video 5)
             (exampleEnv true (Some (newError "NotAllowedError")) true [webm] None
                (fun _ => None))) = Value tt /\
  terminals (trace (handleGenerate (exampleProps Video 5)
                      (exampleEnv true (Some (newError "NotAllowedError")) true [webm] None
                         (fun _ => None))))
  = [Done (js "blob:breaking-news") 4096].
Proof. repeat split. Qed.

(** Five seconds, nothing fails: the step is 3 frames, and the last value
    reported before [Done] is 150/150. *)
Lemma progress_monotone_witness :
  updateStep (totalFramesOf 5) = 3%Z /\
  exists p,
    last (progressValues (trace (handleGenerate (exampleProps Image 5) quietEnv))) = Some p /\
    1 - ratio (updateStep (totalFramesOf (durationSec (exampleProps Image 5))))
              (totalFramesOf (durationSec (exampleProps Image 5))) <= p.
Proof.
  split; [reflexivity |].
  apply (proj2 (proj2 (proj2 (progress_monotone (exampleProps Image 5) quietEnv)))
           (js "blob:breaking-news") 4096%Z).
  reflexivity.
Defined.

End GenerateProofs.


(** ** The feed parsers *)

Module NewsRouteProofs.

Import NewsRoute.

(** *** What the claim about the media type speaks of, in its own words *)

(** Two code units are the same letter, in upper or in lower case. *)
Definition sameLetter (c d : N) : Prop :=
  c = d \/
  ((65 <= c <= 90)%N /\ d = (c + 32)%N) \/
  ((65 <= d <= 90)%N /\ c = (d + 32)%N).

(** Equal case-insensitively. *)
Definition sameText (a b : jsstring) : Prop := Forall2 sameLetter a b.

(** White space only. *)
Definition blank (s : jsstring) : Prop := Forall (fun c => isWhiteSpace c = true) s.

(** The label names the column [name]: white space around it apart, it
    equals [name] case-insensitively. *)
Definition labelNames (name : jsstring) (label : option jsstring) : Prop :=
  exists before core after,
    label = Some (before ++ core ++ after) /\ blank before /\ blank after /\
    sameText core name.

(** Column [j] is the column of [name]: the last one whose label names
    it. *)
Definition columnOf (name : jsstring) (labels : list (option jsstring)) (j : nat) : Prop :=
  (exists label, labels !! j = Some label /\ labelNames name label) /\
  forall j' label, j < j' -> labels !! j' = Some label -> ~ labelNames name label.

Definition noColumn (name : jsstring) (labels : list (option jsstring)) : Prop :=
  forall j label, labels !! j = Some label -> ~ labelNames name label.

(** The cell of a row under the column of [name]; [None] when there is no
    such column, or no such cell in the row. *)
Inductive cellUnder {A} (labels : list (option jsstring)) (cells : list A)
  (name : jsstring) : option A -> Prop :=
| cellUnder_column (j : nat) :
    columnOf name labels j -> cellUnder labels cells name (cells !! j)
| cellUnder_none :
    noColumn name labels -> cellUnder labels cells name None.

(** *** The cells of a row *)

(** The cells of a row under the five columns that the parsers read. *)
Definition rowCells {A} (labels : list (option jsstring)) (cells : list A)
  (t u u' m m' : option A) : Prop :=
  cellUnder labels cells (js "title") t /\
  cellUnder labels cells (js "mediaUrl") u /\
  cellUnder labels cells (js "media_url") u' /\
  cellUnder labels cells (js "mediaType") m /\
  cellUnder labels cells (js "media_type") m'.

(** A CSV row: the text of a cell is empty when the row has no such cell;
    the row is kept when the title or one of the URLs is not empty; the
    media-type text is the one under [mediaType], or the one under
    [media_type] when that is empty. *)
Definition csvText (cell : option jsstring) : jsstring :=
  match cell with
  | Some s => s
  | None => []
  end.

Definition firstNonEmpty (a b : jsstring) : jsstring :=
  match a with
  | [] => b
  | _ => a
  end.

Definition csvKept (t u u' : option jsstring) : Prop :=
  ~ (csvText t = [] /\ csvText u = [] /\ csvText u' = []).

Definition csvRule (m m' : option jsstring) (type : MediaType) : Prop :=
  let raw := firstNonEmpty (csvText m) (csvText m') in
  (type = Video <-> sameText raw (js "video")) /\
  (type = Image <-> ~ sameText raw (js "video")).

(** A GViz row: the value of a cell is absent when the cell is missing or
    null or has no value; a value is empty when it is absent, the empty
    string, zero or false; the row is kept when the title or the URL is
    not empty; the media-type value is the one under [mediaType], or the
    one under [media_type] when that is absent. *)
Definition gvizValue (cell : option (option GCell)) : option GValue :=
  match cell with
  | Some (Some c) => cell_v c
  | _ => None
  end.

Definition firstPresent (a b : option GValue) : option GValue :=
  match a with
  | Some x => Some x
  | None => b
  end.

Definition emptyValue (x : option GValue) : Prop :=
  match x with
  | None => True
  | Some (VString s) => s = []
  | Some (VNumber q) => q == 0
  | Some (VBool b) => b = false
  end.

Definition gvizKept (t u u' : option (option GCell)) : Prop :=
  ~ (emptyValue (gvizValue t) /\
     emptyValue (firstPresent (gvizValue u) (gvizValue u'))).

Definition gvizRule (m m' : option (option GCell)) (type : MediaType) : Prop :=
  let raw := firstPresent (gvizValue m) (gvizValue m') in
  (type = Video <-> exists s, raw = Some (VString s) /\ sameText s (js "video")) /\
  (type = Image <-> ~ exists s, raw = Some (VString s) /\ sameText s (js "video")).

(** *** The labels, the rows and the cells of a response *)

Definition labelsOf (json : GResponse) : list (option jsstring) :=
  map (fun c => c ≫= col_label) (default [] (response_table json ≫= table_cols)).

Definition rowsOf (json : GResponse) : list (option GRow) :=
  default [] (response_table json ≫= table_rows).

Definition cellsOf (r : option GRow) : list (option GCell) := default [] (r ≫= row_c).

(** *** What the index of the columns holds *)

(** The column that the index filled by [indexLabels] holds for a key: the
    last column whose label has the key as its normal form; [None] when
    there is none. *)
Fixpoint columnNamed (labels : list (option jsstring)) (i : nat) (name : jsstring)
  : option nat :=
  match labels with
  | [] => None
  | l :: labels' =>
      match columnNamed labels' (S i) name with
      | Some j => Some j
      | None => if streq (normalizeLabel l) name then Some i else None
      end
  end.

(** What [get] finds under a key in a CSV row, and what [c[colIndex[key]]?.v]
    is in a GViz row. *)
Definition csvCellNamed (header cols : list jsstring) (name : string) : jsstring :=
  match columnNamed (map Some header) 0 (js name) with
  | Some i => default [] (cols !! i)
  | None => []
  end.

Definition gvizValueNamed (labels : list (option jsstring)) (c : list (option GCell))
  (name : string) : option GValue :=
  match columnNamed labels 0 (js name) with
  | Some i =>
      match c !! i with
      | Some (Some cell) => cell_v cell
      | _ => None
      end
  | None => None
  end.

(** The text of a cell value as [String] gives it; empty for a missing or
    falsy value. *)
Definition cellText (String_of_number : Q -> jsstring) (x : option GValue) : jsstring :=
  match x with
  | Some x => String_or_empty String_of_number x
  | None => []
  end.

Lemma streq_true (a b : jsstring) : streq a b = true <-> a = b.
Proof. unfold streq. apply bool_decide_eq_true. Qed.

(** The index filled by the [forEach] finds the column that carries the
    name. *)
Lemma indexLabels_lookup (labels : list (option jsstring)) (i : nat)
  (acc : gmap jsstring nat) (name : jsstring) :
  name <> [] ->
  indexLabels labels i acc !! name =
  match columnNamed labels i name with
  | Some j => Some j
  | None => acc !! name
  end.
Proof.
  intros Hname. revert i acc.
  induction labels as [|l labels IH]; intros i acc; [reflexivity |].
  simpl. rewrite IH. destruct (columnNamed labels (S i) name); [reflexivity |].
  destruct (streq (normalizeLabel l) name) eqn:Heq.
  - apply streq_true in Heq. rewrite Heq.
    destruct name as [|c name]; [congruence |]. simpl.
    apply lookup_insert_eq.
  - assert (Hne : normalizeLabel l <> name).
    { intros H. apply streq_true in H. congruence. }
    destruct (truthy (normalizeLabel l)); [|reflexivity].
    now apply lookup_insert_ne.
Qed.

Lemma indexLabels_column (labels : list (option jsstring)) (name : string) :
  js name <> [] ->
  indexLabels labels 0 ∅ !! js name = columnNamed labels 0 (js name).
Proof.
  intros Hname. rewrite indexLabels_lookup by exact Hname.
  destruct (columnNamed _ _ _); [reflexivity | apply lookup_empty].
Qed.

Lemma or_else_empty (a : jsstring) : or_else a [] = a.
Proof. now destruct a. Qed.

Lemma csvGet_cell (headerLine : jsstring) (cols : list jsstring) (name : string) :
  js name <> [] ->
  csvGet (csvIndices headerLine) cols name = csvCellNamed (splitCsvLine headerLine) cols name.
Proof.
  intros Hname. unfold csvGet, csvCellNamed, csvIndices.
  rewrite indexLabels_column by exact Hname.
  destruct (columnNamed _ _ _); [apply or_else_empty | reflexivity].
Qed.

Lemma csvRows_from_lines (indices : gmap jsstring nat) (i : nat) (lines : list jsstring)
  (item : NewsItem) :
  In item (csvRows indices i lines) ->
  exists k line, lines !! k = Some line /\ csvRow indices (i + k) line = Some item.
Proof.
  revert i. induction lines as [|line lines IH]; intros i; [intros [] |].
  simpl. destruct (csvRow indices i line) as [it|] eqn:Hrow.
  - intros [<- | Hin].
    + exists 0, line. rewrite Nat.add_0_r. auto.
    + destruct (IH _ Hin) as (k & l & Hl & Hr). exists (S k), l.
      rewrite Nat.add_succ_r. auto.
  - intros Hin. destruct (IH _ Hin) as (k & l & Hl & Hr). exists (S k), l.
    rewrite Nat.add_succ_r. auto.
Qed.

Section Gviz.

Variable JSON_parse : jsstring -> option GResponse.
Variable String_of_number : Q -> jsstring.

Lemma gvizCell_value (labels : list (option jsstring)) (c : list (option GCell))
  (name : string) :
  js name <> [] ->
  gvizCell (indexLabels labels 0 ∅) c name = gvizValueNamed labels c name.
Proof.
  intros Hname. unfold gvizCell, gvizValueNamed.
  now rewrite indexLabels_column by exact Hname.
Qed.

Lemma gvizItems_from_rows (json : GResponse) (item : NewsItem) :
  In item (gvizItems String_of_number json) ->
  exists idx r,
    default [] (response_table json ≫= table_rows) !! idx = Some r /\
    gvizRow String_of_number (gvizIndex json) idx r = Some item.
Proof.
  unfold gvizItems. intros Hin. apply list_elem_of_In, list_elem_of_omap in Hin.
  destruct Hin as (o & Ho & Hitem). subst o.
  apply elem_of_lookup_imap_1 in Ho as (idx & r & Hrow & Hidx). eauto.
Qed.

Lemma gvizRow_id (colIndex : gmap jsstring nat) (idx : nat) (r : option GRow)
  (item : NewsItem) :
  gvizRow String_of_number colIndex idx r = Some item -> id item = String_of_nat (idx + 1).
Proof. unfold gvizRow. destruct (_ && _); [discriminate |]. now intros [= <-]. Qed.

End Gviz.

Lemma parseCsv_from_lines (text : jsstring) (item : NewsItem) :
  In item (parseCsv text) ->
  exists headerLine lines k line,
    filter (fun l => truthy l = true) (splitLines text) = headerLine :: lines /\
    lines !! k = Some line /\
    csvRow (csvIndices headerLine) (1 + k) line = Some item.
Proof.
  unfold parseCsv. destruct (filter _ _) as [|headerLine lines]; [intros [] |].
  intros Hin. apply csvRows_from_lines in Hin as (k & line & Hline & Hrow).
  exists headerLine, lines, k, line. auto.
Qed.

Lemma csvRow_id (indices : gmap jsstring nat) (i : nat) (line : jsstring) (item : NewsItem) :
  csvRow indices i line = Some item -> id item = String_of_nat i.
Proof. unfold csvRow. destruct (_ && _); [discriminate |]. now intros [= <-]. Qed.

Lemma js_inj (s t : string) : js s = js t -> s = t.
Proof.
  unfold js. intros H.
  rewrite <- (string_of_list_ascii_of_string s), <- (string_of_list_ascii_of_string t).
  f_equal. revert H.
  generalize (list_ascii_of_string s) (list_ascii_of_string t).
  induction l as [|a l IH]; intros [|b k]; simpl; intros H; try discriminate H;
    [reflexivity |].
  injection H as Hab Hlk. f_equal; [|now apply IH].
  now rewrite <- (ascii_N_embedding a), <- (ascii_N_embedding b), Hab.
Qed.

Lemma String_of_nat_inj (n m : nat) : String_of_nat n = String_of_nat m -> n = m.
Proof.
  unfold String_of_nat. intros H. apply js_inj in H.
  apply Unsigned.to_uint_inj.
  pose proof (NilEmpty.usu (Nat.to_uint n)) as Hn. rewrite H, NilEmpty.usu in Hn.
  now injection Hn.
Qed.

(** *** Trimming *)

(** No white space at either end. *)
Definition trimmed (s : jsstring) : Prop :=
  forall c, head s = Some c \/ last s = Some c -> isWhiteSpace c = false.

Lemma trimStart_head (s : jsstring) (c : N) :
  head (trimStart s) = Some c -> isWhiteSpace c = false.
Proof.
  induction s as [|d s IH]; [discriminate |]. simpl.
  destruct (isWhiteSpace d) eqn:Hd; [exact IH |]. now intros [= <-].
Qed.

Lemma trimStart_last (s : jsstring) :
  trimStart s <> [] -> last (trimStart s) = last s.
Proof.
  induction s as [|d s IH]; [intros H; exfalso; apply H; reflexivity |]. simpl.
  destruct (isWhiteSpace d); [|reflexivity].
  intros Hne. rewrite (IH Hne). destruct s; [exfalso; apply Hne; reflexivity | reflexivity].
Qed.

Lemma last_rev (s : jsstring) : last (rev s) = head s.
Proof. destruct s as [|c s]; [reflexivity |]. simpl. apply last_snoc. Qed.

Lemma head_rev (s : jsstring) : head (rev s) = last s.
Proof. now rewrite <- (rev_involutive s) at 2; rewrite last_rev. Qed.

Lemma trim_trimmed (s : jsstring) : trimmed (trim s).
Proof.
  unfold trimmed, trim. intros c. rewrite head_rev, last_rev.
  intros [Hc | Hc]; [|exact (trimStart_head _ _ Hc)].
  rewrite trimStart_last in Hc by (intros H; rewrite H in Hc; discriminate).
  rewrite last_rev in Hc. exact (trimStart_head _ _ Hc).
Qed.

(** *** The wrapper of a GViz response *)

Lemma indexOf_first (c : N) (before rest : jsstring) :
  ~ In c before -> indexOf c (before ++ c :: rest) = Some (length before).
Proof.
  induction before as [|d before IH]; intros Hnot.
  { simpl. now rewrite N.eqb_refl. }
  cbn [app indexOf length].
  destruct (N.eqb_spec d c) as [-> | _]; [exfalso; apply Hnot; now left |].
  rewrite IH; [reflexivity |]. intros Hin. apply Hnot. now right.
Qed.

Lemma lastIndexOf_none (c : N) (s : jsstring) : ~ In c s -> lastIndexOf c s = None.
Proof.
  induction s as [|d s IH]; intros Hnot; [reflexivity |].
  cbn [lastIndexOf]. rewrite IH by (intros Hin; apply Hnot; now right).
  destruct (N.eqb_spec d c) as [-> | _]; [exfalso; apply Hnot; now left | reflexivity].
Qed.

Lemma lastIndexOf_last (c : N) (before after : jsstring) :
  ~ In c after -> lastIndexOf c (before ++ c :: after) = Some (length before).
Proof.
  intros Hnot. induction before as [|d before IH].
  { cbn [app lastIndexOf length]. rewrite lastIndexOf_none by exact Hnot.
    now rewrite N.eqb_refl. }
  cbn [app lastIndexOf length]. now rewrite IH.
Qed.

Lemma indexOf_none (c : N) (s : jsstring) : ~ In c s -> indexOf c s = None.
Proof.
  induction s as [|d s IH]; intros Hnot; [reflexivity |].
  cbn [indexOf]. rewrite IH by (intros Hin; apply Hnot; now right).
  destruct (N.eqb_spec d c) as [-> | _]; [exfalso; apply Hnot; now left | reflexivity].
Qed.

Lemma indexOf_after (c : N) (before rest : jsstring) (k : nat) :
  ~ In c before -> indexOf c (before ++ rest) = Some k -> length before <= k.
Proof.
  revert k. induction before as [|d before IH]; intros k Hnot; [simpl; lia |].
  cbn [app indexOf length].
  destruct (N.eqb_spec d c) as [-> | _]; [exfalso; apply Hnot; now left |].
  destruct (indexOf c (before ++ rest)) as [j|] eqn:Hj; [|discriminate].
  intros [= <-]. specialize (IH j ltac:(intros Hin; apply Hnot; now right) eq_refl). lia.
Qed.

(** *** Letters *)

Lemma sameLetter_lower (c d : N) : sameLetter c d <-> lowerUnit c = lowerUnit d.
Proof.
  unfold sameLetter, lowerUnit.
  destruct (N.leb_spec 65 c), (N.leb_spec c 90), (N.leb_spec 65 d), (N.leb_spec d 90);
    cbn [andb]; lia.
Qed.

Lemma sameText_lower (a b : jsstring) : sameText a b <-> toLowerCase a = toLowerCase b.
Proof.
  unfold sameText, toLowerCase. split.
  - induction 1 as [|c d a b Hcd _ IH]; [reflexivity |].
    simpl. apply sameLetter_lower in Hcd. congruence.
  - revert b. induction a as [|c a IH]; intros [|d b] H; try discriminate H;
      [constructor |].
    simpl in H. injection H as Hcd Hab. constructor; [now apply sameLetter_lower | auto].
Qed.

Lemma isWhiteSpace_lower (c : N) : isWhiteSpace (lowerUnit c) = isWhiteSpace c.
Proof.
  unfold lowerUnit.
  destruct (N.leb_spec 65 c) as [Hlo | Hlo]; [|reflexivity].
  destruct (N.leb_spec c 90) as [Hhi | Hhi]; [|reflexivity].
  cbn [andb]. unfold isWhiteSpace.
  repeat match goal with
         | |- context [(?a <=? ?b)%N] => destruct (N.leb_spec a b); try lia
         | |- context [(?a =? ?b)%N] => destruct (N.eqb_spec a b); try lia
         end.
  all: reflexivity.
Qed.

(** *** White space around a text *)

Lemma trimStart_blank (before rest : jsstring) :
  blank before -> trimStart (before ++ rest) = trimStart rest.
Proof. induction 1 as [|c before Hc _ IH]; [reflexivity |]. simpl. now rewrite Hc. Qed.

Lemma trimStart_all_blank (s : jsstring) : blank s -> trimStart s = [].
Proof. intros H. rewrite <- (app_nil_r s). now rewrite trimStart_blank. Qed.

Lemma trimStart_id (s : jsstring) :
  (forall c, head s = Some c -> isWhiteSpace c = false) -> trimStart s = s.
Proof.
  destruct s as [|c s]; [reflexivity |]. intros H. simpl.
  now rewrite (H c eq_refl).
Qed.

Lemma trimStart_split (s : jsstring) :
  exists before, s = before ++ trimStart s /\ blank before.
Proof.
  induction s as [|c s (before & IH & Hblank)]; [exists []; split; [reflexivity | constructor] |].
  simpl. destruct (isWhiteSpace c) eqn:Hc.
  - exists (c :: before). split; [simpl; congruence | now constructor].
  - exists []. split; [reflexivity | constructor].
Qed.

Lemma blank_rev (s : jsstring) : blank s -> blank (rev s).
Proof. unfold blank. rewrite !List.Forall_forall. intros H c Hc. apply H, in_rev, Hc. Qed.

(** [trim] takes white space away at both ends, and nothing else. *)
Lemma trim_split (s : jsstring) :
  exists before after, s = before ++ trim s ++ after /\ blank before /\ blank after.
Proof.
  destruct (trimStart_split s) as (before & Hs & Hbefore).
  destruct (trimStart_split (rev (trimStart s))) as (after & Hr & Hafter).
  exists before, (rev after). split; [|split; [exact Hbefore | now apply blank_rev]].
  unfold trim. rewrite <- rev_app_distr, <- Hr, rev_involutive. exact Hs.
Qed.

Lemma trim_around (before core after : jsstring) :
  blank before -> blank after -> trimmed core ->
  trim (before ++ core ++ after) = core.
Proof.
  intros Hbefore Hafter Hcore. unfold trim. rewrite trimStart_blank by exact Hbefore.
  destruct core as [|c core].
  { cbn [app]. rewrite (trimStart_all_blank _ Hafter). reflexivity. }
  rewrite (trimStart_id ((c :: core) ++ after))
    by (intros d Hd; apply Hcore; left; exact Hd).
  rewrite rev_app_distr, trimStart_blank by now apply blank_rev.
  rewrite trimStart_id; [apply rev_involutive |].
  intros d Hd. apply Hcore. right. now rewrite <- head_rev.
Qed.

Lemma trimmed_lower (s : jsstring) : trimmed (toLowerCase s) -> trimmed s.
Proof.
  unfold trimmed, toLowerCase. intros H c Hc.
  rewrite <- isWhiteSpace_lower. apply H.
  destruct Hc as [Hc | Hc]; [left | right].
  - destruct s; [discriminate |]. simpl in *. congruence.
  - rewrite GenerateProofs.last_map, Hc. reflexivity.
Qed.

(** *** The columns *)

(** The label names the column exactly when the code's normal form of the
    label is the name in lower case. *)
Lemma labelNames_normalize (name : jsstring) (label : option jsstring) :
  name <> [] -> trimmed (toLowerCase name) ->
  labelNames name label <-> normalizeLabel label = toLowerCase name.
Proof.
  intros Hname Htrimmed. split.
  - intros (before & core & after & -> & Hbefore & Hafter & Hcore).
    apply sameText_lower in Hcore. unfold normalizeLabel. cbn [default from_option Datatypes.id].
    rewrite or_else_empty, trim_around; try assumption.
    apply trimmed_lower. now rewrite Hcore.
  - intros Hnorm. destruct label as [s|].
    + unfold normalizeLabel in Hnorm. cbn [default from_option Datatypes.id] in Hnorm.
      rewrite or_else_empty in Hnorm.
      destruct (trim_split s) as (before & after & Hs & Hbefore & Hafter).
      exists before, (trim s), after. split; [f_equal; exact Hs |].
      split; [exact Hbefore |]. split; [exact Hafter |]. now apply sameText_lower.
    + exfalso. apply Hname. destruct name; [reflexivity | discriminate Hnorm].
Qed.

Lemma columnNamed_last (labels : list (option jsstring)) (i : nat) (name : jsstring) :
  match columnNamed labels i name with
  | Some j =>
      exists k label, j = i + k /\ labels !! k = Some label /\
        normalizeLabel label = name /\
        forall k' label', k < k' -> labels !! k' = Some label' ->
                          normalizeLabel label' <> name
  | None => forall k label, labels !! k = Some label -> normalizeLabel label <> name
  end.
Proof.
  revert i. induction labels as [|l labels IH]; intros i; [intros k label [=] |].
  cbn [columnNamed]. specialize (IH (S i)).
  destruct (columnNamed labels (S i) name) as [j|].
  - destruct IH as (k & label & -> & Hk & Hnorm & Hlast).
    exists (S k), label. split; [lia |]. split; [exact Hk |]. split; [exact Hnorm |].
    intros [|k'] label' Hlt Hk'; [lia |]. apply (Hlast k' label'); [lia | exact Hk'].
  - destruct (streq (normalizeLabel l) name) eqn:Heq.
    + apply streq_true in Heq. exists 0, l. split; [lia |]. split; [reflexivity |].
      split; [exact Heq |].
      intros [|k'] label' Hlt Hk'; [lia |]. apply (IH k' label' Hk').
    + intros [|k] label Hk.
      * injection Hk as <-. intros H. apply streq_true in H. congruence.
      * apply (IH k label Hk).
Qed.

Section Columns.

Variable name : jsstring.
Hypothesis name_nonempty : name <> [].
Hypothesis name_trimmed : trimmed (toLowerCase name).

Lemma columnOf_columnNamed (labels : list (option jsstring)) (j : nat) :
  columnOf name labels j <-> columnNamed labels 0 (toLowerCase name) = Some j.
Proof.
  pose proof (columnNamed_last labels 0 (toLowerCase name)) as Hlast.
  split.
  - intros [(label & Hj & Hnames) Hnone].
    apply labelNames_normalize in Hnames; try assumption.
    destruct (columnNamed labels 0 (toLowerCase name)) as [j'|].
    + destruct Hlast as (k & label' & -> & Hk & Hnorm & Hlater). cbn [Nat.add].
      f_equal. destruct (Nat.lt_trichotomy k j) as [Hlt | [-> | Hgt]]; [|reflexivity |].
      * exfalso. exact (Hlater j label Hlt Hj Hnames).
      * exfalso. apply (Hnone k label' Hgt Hk).
        apply labelNames_normalize; assumption.
    + exfalso. exact (Hlast j label Hj Hnames).
  - intros Hcol. rewrite Hcol in Hlast.
    destruct Hlast as (k & label & -> & Hk & Hnorm & Hlater). cbn [Nat.add]. split.
    + exists label. split; [exact Hk |]. apply labelNames_normalize; assumption.
    + intros j' label' Hlt Hj' Hnames. apply (Hlater j' label' Hlt Hj').
      apply labelNames_normalize in Hnames; assumption.
Qed.

Lemma noColumn_columnNamed (labels : list (option jsstring)) :
  noColumn name labels <-> columnNamed labels 0 (toLowerCase name) = None.
Proof.
  pose proof (columnNamed_last labels 0 (toLowerCase name)) as Hlast.
  split.
  - intros Hnone. destruct (columnNamed labels 0 (toLowerCase name)) as [j|];
      [|reflexivity].
    destruct Hlast as (k & label & _ & Hk & Hnorm & _). exfalso.
    apply (Hnone k label Hk). apply labelNames_normalize; assumption.
  - intros Hcol. rewrite Hcol in Hlast. intros j label Hj Hnames.
    apply (Hlast j label Hj). apply labelNames_normalize in Hnames; assumption.
Qed.

(** Every row has a cell, or none, under the column of the name; and the
    code's index finds it. *)
Lemma cellUnder_exists {A} (labels : list (option jsstring)) (cells : list A) :
  exists cell, cellUnder labels cells name cell.
Proof.
  destruct (columnNamed labels 0 (toLowerCase name)) as [j|] eqn:Hcol.
  - exists (cells !! j). constructor. now apply columnOf_columnNamed.
  - exists None. constructor. now apply noColumn_columnNamed.
Qed.

Lemma cellUnder_columnNamed {A} (labels : list (option jsstring)) (cells : list A)
  (cell : option A) :
  cellUnder labels cells name cell <->
  cell = match columnNamed labels 0 (toLowerCase name) with
         | Some j => cells !! j
         | None => None
         end.
Proof.
  split.
  - intros [j Hcol | Hnone].
    + apply columnOf_columnNamed in Hcol. now rewrite Hcol.
    + apply noColumn_columnNamed in Hnone. now rewrite Hnone.
  - intros ->. destruct (columnNamed labels 0 (toLowerCase name)) as [j|] eqn:Hcol.
    + constructor. now apply columnOf_columnNamed.
    + constructor. now apply noColumn_columnNamed.
Qed.

End Columns.

(** *** The code's lookups find the cells *)

Lemma cellUnder_key {A} (labels : list (option jsstring)) (cells : list A)
  (name : jsstring) (key : jsstring) (cell : option A) :
  toLowerCase name = key -> name <> [] -> trimmed key ->
  cellUnder labels cells name cell ->
  cell = match columnNamed labels 0 key with
         | Some j => cells !! j
         | None => None
         end.
Proof.
  intros <- Hname Htrimmed. now apply cellUnder_columnNamed.
Qed.

(** The side conditions on a column name that is given. *)
Ltac name_side :=
  first [ reflexivity | discriminate
        | intros c [H | H]; vm_compute in H; injection H as <-; reflexivity ].

Lemma csvGet_cellUnder (headerLine : jsstring) (cols : list jsstring)
  (name : jsstring) (key : string) (cell : option jsstring) :
  toLowerCase name = js key -> name <> [] -> trimmed (js key) ->
  cellUnder (map Some (splitCsvLine headerLine)) cols name cell ->
  csvGet (csvIndices headerLine) cols key = csvText cell.
Proof.
  intros Hkey Hname Htrimmed Hcell.
  rewrite csvGet_cell
    by (intros H; rewrite H in Hkey; destruct name; [congruence | discriminate Hkey]).
  unfold csvCellNamed.
  rewrite (cellUnder_key _ _ _ _ _ Hkey Hname Htrimmed Hcell).
  destruct (columnNamed _ _ _) as [j|]; [|reflexivity].
  now destruct (cols !! j).
Qed.

Lemma csvRow_cells (headerLine : jsstring) (i : nat) (line : jsstring)
  (t u u' m m' : option jsstring) :
  rowCells (map Some (splitCsvLine headerLine)) (splitCsvLine line) t u u' m m' ->
  csvRow (csvIndices headerLine) i line
  = if negb (truthy (csvText t)) && negb (truthy (or_else (csvText u) (csvText u')))
    then None
    else Some {| id := String_of_nat i;
                 title := trim (csvText t);
                 mediaUrl := trim (or_else (or_else (csvText u) (csvText u')) []);
                 mediaType :=
                   mediaTypeOfText (or_else (or_else (csvText m) (csvText m')) []) |}.
Proof.
  intros (Ht & Hu & Hu' & Hm & Hm'). unfold csvRow.
  rewrite (csvGet_cellUnder _ _ (js "title") "title" t) by (exact Ht || name_side).
  rewrite (csvGet_cellUnder _ _ (js "mediaUrl") "mediaurl" u) by (exact Hu || name_side).
  rewrite (csvGet_cellUnder _ _ (js "media_url") "media_url" u') by (exact Hu' || name_side).
  rewrite (csvGet_cellUnder _ _ (js "mediaType") "mediatype" m) by (exact Hm || name_side).
  rewrite (csvGet_cellUnder _ _ (js "media_type") "media_type" m') by (exact Hm' || name_side).
  reflexivity.
Qed.

Lemma mediaTypeOfText_sameText (raw : jsstring) :
  (mediaTypeOfText raw = Video <-> sameText raw (js "video")) /\
  (mediaTypeOfText raw = Image <-> ~ sameText raw (js "video")).
Proof.
  rewrite sameText_lower. change (toLowerCase (js "video")) with (js "video").
  unfold mediaTypeOfText. destruct (streq _ _) eqn:Heq.
  - apply streq_true in Heq. split; split; intros H; congruence.
  - assert (toLowerCase raw <> js "video").
    { intros H. apply streq_true in H. congruence. }
    split; split; intros H'; congruence.
Qed.

Lemma not_all_empty (a b c : jsstring) :
  ~ (a = [] /\ b = [] /\ c = []) <->
  negb (truthy a) && negb (truthy (or_else b c)) = false.
Proof. unfold or_else. destruct a, b, c; simpl; intuition congruence. Qed.

Lemma or_else_firstNonEmpty (a b : jsstring) : or_else a b = firstNonEmpty a b.
Proof. now destruct a. Qed.

Lemma csvRow_kept (headerLine : jsstring) (i : nat) (line : jsstring)
  (t u u' m m' : option jsstring) :
  rowCells (map Some (splitCsvLine headerLine)) (splitCsvLine line) t u u' m m' ->
  csvKept t u u' <-> exists item, csvRow (csvIndices headerLine) i line = Some item.
Proof.
  intros Hcells. rewrite (csvRow_cells _ i _ _ _ _ _ _ Hcells). unfold csvKept.
  rewrite not_all_empty. destruct (_ && _); split; intros H; try discriminate H; eauto.
  destruct H as [item H]. discriminate H.
Qed.

Lemma csvRow_rule (headerLine : jsstring) (i : nat) (line : jsstring)
  (t u u' m m' : option jsstring) (item : NewsItem) :
  rowCells (map Some (splitCsvLine headerLine)) (splitCsvLine line) t u u' m m' ->
  csvRow (csvIndices headerLine) i line = Some item ->
  csvRule m m' (mediaType item).
Proof.
  intros Hcells. rewrite (csvRow_cells _ i _ _ _ _ _ _ Hcells).
  destruct (_ && _); [discriminate |]. intros [= <-]. cbn [mediaType].
  unfold csvRule. rewrite or_else_empty, or_else_firstNonEmpty.
  apply mediaTypeOfText_sameText.
Qed.

Lemma csvRows_complete (indices : gmap jsstring nat) (i : nat) (lines : list jsstring)
  (k : nat) (line : jsstring) (item : NewsItem) :
  lines !! k = Some line -> csvRow indices (i + k) line = Some item ->
  In item (csvRows indices i lines).
Proof.
  revert i k. induction lines as [|l lines IH]; intros i k; [discriminate |].
  destruct k as [|k]; cbn [csvRows].
  - intros [= ->]. rewrite Nat.add_0_r. intros ->. now left.
  - intros Hline Hrow. rewrite Nat.add_succ_r in Hrow.
    specialize (IH (S i) k Hline Hrow).
    destruct (csvRow indices i l); [now right | exact IH].
Qed.

(** The items of a CSV feed and the rows they are made from. *)
Lemma parseCsv_rows (text headerLine : jsstring) (lines : list jsstring) :
  filter (fun l => truthy l = true) (splitLines text) = headerLine :: lines ->
  (forall item,
     In item (parseCsv text) ->
     exists k line, lines !! k = Some line /\
                    csvRow (csvIndices headerLine) (k + 1) line = Some item) /\
  (forall k line item,
     lines !! k = Some line ->
     (In item (parseCsv text) /\ id item = String_of_nat (k + 1) <->
      csvRow (csvIndices headerLine) (k + 1) line = Some item)).
Proof.
  intros Hlines. unfold parseCsv. rewrite Hlines.
  assert (Hfrom : forall item,
             In item (csvRows (csvIndices headerLine) 1 lines) ->
             exists k line, lines !! k = Some line /\
                            csvRow (csvIndices headerLine) (k + 1) line = Some item).
  { intros item Hin. apply csvRows_from_lines in Hin as (k & line & Hline & Hrow).
    exists k, line. now rewrite Nat.add_comm. }
  split; [exact Hfrom |].
  intros k line item Hline. split.
  - intros [Hin Hid]. destruct (Hfrom item Hin) as (k' & line' & Hline' & Hrow).
    pose proof (csvRow_id _ _ _ _ Hrow) as Hid'. rewrite Hid in Hid'.
    apply String_of_nat_inj in Hid'.
    assert (k' = k) as -> by lia. congruence.
  - intros Hrow. split; [|exact (csvRow_id _ _ _ _ Hrow)].
    apply (csvRows_complete _ 1 lines k line); [exact Hline |].
    now rewrite Nat.add_comm.
Qed.

Section GvizRows.

Variable JSON_parse : jsstring -> option GResponse.
Variable String_of_number : Q -> jsstring.
Hypothesis numbers_are_not_video :
  forall q, ~ sameText (String_of_number q) (js "video").

Lemma gvizCell_cellUnder (labels : list (option jsstring)) (c : list (option GCell))
  (name : jsstring) (key : string) (cell : option (option GCell)) :
  toLowerCase name = js key -> name <> [] -> trimmed (js key) ->
  cellUnder labels c name cell ->
  gvizCell (indexLabels labels 0 ∅) c key = gvizValue cell.
Proof.
  intros Hkey Hname Htrimmed Hcell.
  rewrite gvizCell_value
    by (intros H; rewrite H in Hkey; destruct name; [congruence | discriminate Hkey]).
  unfold gvizValueNamed.
  rewrite (cellUnder_key _ _ _ _ _ Hkey Hname Htrimmed Hcell).
  now destruct (columnNamed _ _ _) as [j|].
Qed.

Lemma gvizRow_cells (json : GResponse) (idx : nat) (r : option GRow)
  (t u u' m m' : option (option GCell)) :
  rowCells (labelsOf json) (cellsOf r) t u u' m m' ->
  gvizRow String_of_number (gvizIndex json) idx r
  = let title := default (VString []) (gvizValue t) in
    let mediaUrl := coalesce2 (gvizValue u) (gvizValue u') in
    let mediaTypeRaw := coalesce2 (gvizValue m) (gvizValue m') in
    if negb (valueTruthy title) && negb (valueTruthy mediaUrl) then None
    else Some {| id := String_of_nat (idx + 1);
                 title := trim (String_or_empty String_of_number title);
                 mediaUrl := trim (String_or_empty String_of_number mediaUrl);
                 mediaType :=
                   mediaTypeOfText (String_or_empty String_of_number mediaTypeRaw) |}.
Proof.
  intros (Ht & Hu & Hu' & Hm & Hm'). unfold gvizRow, gvizIndex.
  fold (labelsOf json). fold (cellsOf r).
  rewrite (gvizCell_cellUnder _ _ (js "title") "title" t) by (exact Ht || name_side).
  rewrite (gvizCell_cellUnder _ _ (js "mediaUrl") "mediaurl" u) by (exact Hu || name_side).
  rewrite (gvizCell_cellUnder _ _ (js "media_url") "media_url" u')
    by (exact Hu' || name_side).
  rewrite (gvizCell_cellUnder _ _ (js "mediaType") "mediatype" m) by (exact Hm || name_side).
  rewrite (gvizCell_cellUnder _ _ (js "media_type") "media_type" m')
    by (exact Hm' || name_side).
  reflexivity.
Qed.

Lemma valueTruthy_empty (x : option GValue) :
  valueTruthy (default (VString []) x) = false <-> emptyValue x.
Proof.
  destruct x as [[s | q | b]|]; cbn [default from_option Datatypes.id valueTruthy emptyValue].
  - destruct s; simpl; split; intros H; congruence.
  - rewrite negb_false_iff. apply Qeq_bool_iff.
  - reflexivity.
  - simpl. tauto.
Qed.

Lemma coalesce2_firstPresent (a b : option GValue) :
  coalesce2 a b = default (VString []) (firstPresent a b).
Proof. now destruct a. Qed.

Lemma videoValue_text (x : option GValue) :
  sameText (String_or_empty String_of_number (default (VString []) x)) (js "video")
  <-> exists s, x = Some (VString s) /\ sameText s (js "video").
Proof.
  assert (Hnil : ~ sameText [] (js "video")) by (intros H; inversion H).
  destruct x as [[s | q | b]|];
    cbn [default from_option Datatypes.id]; unfold String_or_empty;
    cbn [valueTruthy String_].
  - destruct s as [|c s]; cbn [truthy].
    + split; [intros H; now apply Hnil in H |]. intros (s & [= <-] & H). exact H.
    + split; [eauto |]. intros (s' & [= <-] & H). exact H.
  - split.
    + destruct (negb _); intros H; [now apply numbers_are_not_video in H | now apply Hnil in H].
    + intros (s & [=] & _).
  - split.
    + destruct b; intros H; [|now apply Hnil in H].
      apply sameText_lower in H. discriminate H.
    + intros (s & [=] & _).
  - cbn [truthy]. split; [intros H; now apply Hnil in H |]. intros (s & [=] & _).
Qed.

Lemma gvizRow_kept (json : GResponse) (idx : nat) (r : option GRow)
  (t u u' m m' : option (option GCell)) :
  rowCells (labelsOf json) (cellsOf r) t u u' m m' ->
  gvizKept t u u' <->
  exists item, gvizRow String_of_number (gvizIndex json) idx r = Some item.
Proof.
  intros Hcells. rewrite (gvizRow_cells _ idx _ _ _ _ _ _ Hcells). cbv zeta.
  unfold gvizKept. rewrite <- !valueTruthy_empty, <- coalesce2_firstPresent.
  destruct (valueTruthy (default _ _)), (valueTruthy (coalesce2 _ _)); cbn [negb andb];
    split; intros H; eauto; try (destruct H as [item H]; discriminate H);
    try (intros [H1 H2]; discriminate); exfalso; apply H; auto.
Qed.

Lemma gvizRow_rule (json : GResponse) (idx : nat) (r : option GRow)
  (t u u' m m' : option (option GCell)) (item : NewsItem) :
  rowCells (labelsOf json) (cellsOf r) t u u' m m' ->
  gvizRow String_of_number (gvizIndex json) idx r = Some item ->
  gvizRule m m' (mediaType item).
Proof.
  intros Hcells. rewrite (gvizRow_cells _ idx _ _ _ _ _ _ Hcells). cbv zeta.
  destruct (_ && _); [discriminate |]. intros [= <-]. cbn [mediaType].
  unfold gvizRule. cbv zeta. rewrite <- videoValue_text, <- coalesce2_firstPresent.
  apply mediaTypeOfText_sameText.
Qed.

Lemma gvizItems_complete (json : GResponse) (idx : nat) (r : option GRow)
  (item : NewsItem) :
  rowsOf json !! idx = Some r ->
  gvizRow String_of_number (gvizIndex json) idx r = Some item ->
  In item (gvizItems String_of_number json).
Proof.
  intros Hr Hrow. unfold gvizItems. apply list_elem_of_In, list_elem_of_omap.
  exists (Some item). split; [|reflexivity].
  rewrite <- Hrow. now apply elem_of_lookup_imap_2.
Qed.

(** The items of a GViz response and the rows they are made from. *)
Lemma gvizItems_rows (json : GResponse) :
  (forall item,
     In item (gvizItems String_of_number json) ->
     exists k r, rowsOf json !! k = Some r /\
                 gvizRow String_of_number (gvizIndex json) k r = Some item) /\
  (forall k r item,
     rowsOf json !! k = Some r ->
     (In item (gvizItems String_of_number json) /\ id item = String_of_nat (k + 1) <->
      gvizRow String_of_number (gvizIndex json) k r = Some item)).
Proof.
  split; [intros item; apply gvizItems_from_rows |].
  intros k r item Hr. split.
  - intros [Hin Hid]. apply gvizItems_from_rows in Hin as (k' & r' & Hr' & Hrow).
    pose proof (gvizRow_id _ _ _ _ _ Hrow) as Hid'. rewrite Hid in Hid'.
    apply String_of_nat_inj in Hid'.
    assert (k' = k) as -> by lia. unfold rowsOf in Hr. congruence.
  - intros Hrow. split; [|exact (gvizRow_id _ _ _ _ _ Hrow)].
    now apply (gvizItems_complete json k r).
Qed.

End GvizRows.

Lemma rowCells_exist {A} (labels : list (option jsstring)) (cells : list A) :
  exists t u u' m m', rowCells labels cells t u u' m m'.
Proof.
  destruct (cellUnder_exists (js "title") ltac:(discriminate) ltac:(name_side)
              labels cells) as [t Ht].
  destruct (cellUnder_exists (js "mediaUrl") ltac:(discriminate) ltac:(name_side)
              labels cells) as [u Hu].
  destruct (cellUnder_exists (js "media_url") ltac:(discriminate) ltac:(name_side)
              labels cells) as [u' Hu'].
  destruct (cellUnder_exists (js "mediaType") ltac:(discriminate) ltac:(name_side)
              labels cells) as [m Hm].
  destruct (cellUnder_exists (js "media_type") ltac:(discriminate) ltac:(name_side)
              labels cells) as [m' Hm'].
  exists t, u, u', m, m'. repeat split; assumption.
Qed.


Lemma parseGviz_wrapped (JSON_parse : jsstring -> option GResponse)
  (String_of_number : Q -> jsstring) (before inner after : jsstring) :
  ~ In 123%N before -> ~ In 125%N after ->
  parseGviz JSON_parse String_of_number (before ++ 123%N :: inner ++ 125%N :: after)
  = gvizItems String_of_number <$> JSON_parse (123%N :: inner ++ [125%N]).
Proof.
  intros Hbefore Hafter.
  unfold parseGviz. rewrite indexOf_first by exact Hbefore.
  replace (before ++ 123%N :: inner ++ 125%N :: after)
    with ((before ++ 123%N :: inner) ++ 125%N :: after)
    by now rewrite <- app_assoc.
  rewrite lastIndexOf_last by exact Hafter.
  rewrite length_app. cbn [length].
  destruct (Nat.leb_spec (length before + S (length inner)) (length before)) as [Hle | _];
    [lia |].
  f_equal. f_equal. unfold slice.
  rewrite <- app_assoc. rewrite drop_app_length. cbn [app].
  replace (length before + S (length inner) + 1 - length before)
    with (length (123%N :: inner ++ [125%N]))
    by (cbn [length]; rewrite length_app; simpl; lia).
  change (123%N :: inner ++ 125%N :: after)
    with ((123%N :: inner) ++ [125%N] ++ after).
  rewrite app_assoc. apply take_app_length.
Qed.

(** C8.  In both parsers an item stands for one row of the feed, the row
    whose number, counted from 1, is its id; a row has an item exactly
    when it is kept, that is when its title or its media URL is not empty;
    and the media type of the item is video exactly when the row's
    media-type cell equals "video" case-insensitively, and image in every
    other case.  A cell stands under the last column whose label, white
    space around it apart, equals the column name case-insensitively.  In
    a CSV feed the media-type cell is the one under mediaType, or the one
    under media_type when that is empty or missing; in a GViz response it
    is the one under mediaType, or the one under media_type when that is
    null or missing, and only a string value can equal "video". *)
Theorem mediaType_normalized (JSON_parse : jsstring -> option GResponse)
  (String_of_number : Q -> jsstring) :
  (forall text headerLine lines,
     filter (fun l => truthy l = true) (splitLines text) = headerLine :: lines ->
     (forall item,
        In item (parseCsv text) ->
        exists k line, lines !! k = Some line /\ id item = String_of_nat (k + 1)) /\
     (forall k line t u u' m m',
        lines !! k = Some line ->
        rowCells (map Some (splitCsvLine headerLine)) (splitCsvLine line) t u u' m m' ->
        (csvKept t u u' <->
         exists item, In item (parseCsv text) /\ id item = String_of_nat (k + 1)) /\
        (forall item,
           In item (parseCsv text) -> id item = String_of_nat (k + 1) ->
           csvRule m m' (mediaType item)))) /\
  ((forall q, ~ sameText (String_of_number q) (js "video")) ->
   forall before inner after json,
     ~ In 123%N before -> ~ In 125%N after ->
     JSON_parse (123%N :: inner ++ [125%N]) = Some json ->
     exists items,
       parseGviz JSON_parse String_of_number (before ++ 123%N :: inner ++ 125%N :: after)
       = Some items /\
       (forall item,
          In item items ->
          exists k r, rowsOf json !! k = Some r /\ id item = String_of_nat (k + 1)) /\
       (forall k r t u u' m m',
          rowsOf json !! k = Some r ->
          rowCells (labelsOf json) (cellsOf r) t u u' m m' ->
          (gvizKept t u u' <->
           exists item, In item items /\ id item = String_of_nat (k + 1)) /\
          (forall item,
             In item items -> id item = String_of_nat (k + 1) ->
             gvizRule m m' (mediaType item)))) /\
  (forall A (labels : list (option jsstring)) (cells : list A),
     exists t u u' m m', rowCells labels cells t u u' m m').
Proof.
  split; [|split; [|intros A; apply rowCells_exist]].
  - intros text headerLine lines Hlines.
    destruct (parseCsv_rows text headerLine lines Hlines) as [Hfrom Hrow]. split.
    + intros item Hin. destruct (Hfrom item Hin) as (k & line & Hline & Hitem).
      exists k, line. split; [exact Hline | exact (csvRow_id _ _ _ _ Hitem)].
    + intros k line t u u' m m' Hline Hcells. split.
      * rewrite (csvRow_kept headerLine (k + 1) line t u u' m m' Hcells).
        split; intros [item H]; exists item; now apply (Hrow k line item Hline).
      * intros item Hin Hid.
        apply (csvRow_rule headerLine (k + 1) line t u u' m m' item Hcells).
        now apply (Hrow k line item Hline).
  - intros Hnumbers before inner after json Hbefore Hafter Hjson.
    exists (gvizItems String_of_number json). split.
    { rewrite parseGviz_wrapped by assumption. now rewrite Hjson. }
    destruct (gvizItems_rows String_of_number json) as [Hfrom Hrow]. split.
    + intros item Hin. destruct (Hfrom item Hin) as (k & r & Hr & Hitem).
      exists k, r. split; [exact Hr | exact (gvizRow_id _ _ _ _ _ Hitem)].
    + intros k r t u u' m m' Hr Hcells. split.
      * rewrite (gvizRow_kept String_of_number json k r t u u' m m' Hcells).
        split; intros [item H]; exists item; now apply (Hrow k r item Hr).
      * intros item Hin Hid.
        apply (gvizRow_rule String_of_number Hnumbers json k r t u u' m m' item Hcells).
        now apply (Hrow k r item Hr).
Qed.

(** A feed of two rows under the header [Title, Media_Type], in both
    formats. *)
Definition exampleHeader : jsstring := js "Title, Media_Type ".
Definition exampleGviz : GResponse :=
  {| response_table := Some
       {| table_cols := Some [Some {| col_label := Some (js "title") |};
                              Some {| col_label := Some (js "MediaType") |}];
          table_rows := Some
            [Some {| row_c := Some [Some {| cell_v := Some (VString (js "Storm")) |};
                                    Some {| cell_v := Some (VString (js "Video")) |}] |};
             Some {| row_c := Some [Some {| cell_v := Some (VString (js "Flood")) |};
                                    None] |}] |} |}.

Definition exampleStringOfNumber (q : Q) : jsstring := js "0".

Definition exampleFeed : jsstring :=
  exampleHeader ++ [10%N] ++ js "Storm,VIDEO" ++ [13%N; 10%N] ++ js "Flood,photo".

Lemma mediaType_normalized_witness :
  csvRule None (Some (js "VIDEO")) Video /\
  gvizRule (Some None) None Image.
Proof.
  destruct (mediaType_normalized (fun _ => Some exampleGviz) exampleStringOfNumber)
    as (Hcsv & Hgviz & _).
  split.
  - destruct (Hcsv exampleFeed exampleHeader
                [js "Storm,VIDEO"; js "Flood,photo"]) as [_ Hrow];
      [vm_compute; reflexivity |].
    destruct (Hrow 0 (js "Storm,VIDEO") (Some (js "Storm")) None None None
                (Some (js "VIDEO"))) as [_ Hrule]; [reflexivity | |].
    { repeat split; apply cellUnder_columnNamed; name_side. }
    apply (Hrule {| id := js "1"; title := js "Storm"; mediaUrl := [];
                    mediaType := Video |}); [vm_compute; left; reflexivity | reflexivity].
  - destruct (Hgviz (fun q H => ltac:(apply sameText_lower in H; discriminate H))
                (js "f(") [] (js ");") exampleGviz)
      as (items & Hitems & _ & Hrow);
      [intros H; vm_compute in H; intuition discriminate
      |intros H; vm_compute in H; intuition discriminate
      |reflexivity |].
    vm_compute in Hitems. injection Hitems as <-.
    destruct (Hrow 1 (Some {| row_c := Some [Some {| cell_v := Some (VString (js "Flood")) |};
                                             None] |})
                (Some (Some {| cell_v := Some (VString (js "Flood")) |})) None None
                (Some None) None) as [_ Hrule]; [reflexivity | |].
    { repeat split; apply cellUnder_columnNamed; name_side. }
    apply (Hrule {| id := js "2"; title := js "Flood"; mediaUrl := [];
                    mediaType := Image |}); [right; left; reflexivity | reflexivity].
Defined.

(** The row [Hello], empty, [video] under the columns title, mediaType and
    media_type, in both formats. *)
Definition emptyThenVideo : GResponse :=
  {| response_table := Some
       {| table_cols := Some [Some {| col_label := Some (js "title") |};
                              Some {| col_label := Some (js "mediaType") |};
                              Some {| col_label := Some (js "media_type") |}];
          table_rows := Some
            [Some {| row_c := Some [Some {| cell_v := Some (VString (js "Hello")) |};
                                    Some {| cell_v := Some (VString []) |};
                                    Some {| cell_v := Some (VString (js "video")) |}] |}]
       |} |}.

(** The same row is a video in a CSV feed and an image in a GViz response:
    an empty cell under mediaType gives way to the cell under media_type in
    the one and not in the other.  And a label is matched with white space
    around it. *)
Lemma mediaType_cell_differs :
  parseCsv (js "title,mediaType,media_type" ++ [10%N] ++ js "Hello,,video")
  = [ {| id := js "1"; title := js "Hello"; mediaUrl := []; mediaType := Video |} ] /\
  gvizItems exampleStringOfNumber emptyThenVideo
  = [ {| id := js "1"; title := js "Hello"; mediaUrl := []; mediaType := Image |} ] /\
  parseCsv (js "title, mediaType " ++ [10%N] ++ js "Hello,video")
  = [ {| id := js "1"; title := js "Hello"; mediaUrl := []; mediaType := Video |} ].
Proof. repeat split. Qed.

Example parseCsv_example :
  parseCsv (js "Title, Media_Type " ++ [10%N] ++ js "Storm,VIDEO" ++ [13%N; 10%N]
            ++ js "Flood,photo")
  = [ {| id := js "1"; title := js "Storm"; mediaUrl := []; mediaType := Video |};
      {| id := js "2"; title := js "Flood"; mediaUrl := []; mediaType := Image |} ].
Proof. reflexivity. Qed.

Example gvizItems_example :
  gvizItems exampleStringOfNumber exampleGviz
  = [ {| id := js "1"; title := js "Storm"; mediaUrl := []; mediaType := Video |};
      {| id := js "2"; title := js "Flood"; mediaUrl := []; mediaType := Image |} ].
Proof. reflexivity. Qed.

End NewsRouteProofs.

(** * Further properties *)

(** ** wrapText: what is drawn, and where *)

Module WrapTextExtras.

Import VideoGenerator.
Import WrapTextProofs.

(** The string of a [fillText]. *)
Definition opText (o : CanvasOp) : jsstring :=
  match o with
  | FillText s _ _ => s
  | _ => []
  end.

(** The tokens from index [n] on, each after a space. *)
Definition spaced (ws : list jsstring) : jsstring := flat_map (fun w => space :: w) ws.

Lemma join_space_spaced (w : jsstring) (ws : list jsstring) :
  join_space (w :: ws) = w ++ spaced ws.
Proof.
  revert w. induction ws as [|w' ws IH]; intros w; [simpl; now rewrite app_nil_r |].
  rewrite join_space_cons by discriminate. rewrite IH. reflexivity.
Qed.

Lemma join_space_snoc (ws : list jsstring) (w : jsstring) :
  ws <> [] -> join_space (ws ++ [w]) = join_space ws ++ space :: w.
Proof.
  induction ws as [|w0 ws IH]; [congruence |]. intros _.
  destruct ws as [|w1 ws]; [reflexivity |].
  change ((w0 :: w1 :: ws) ++ [w]) with (w0 :: ((w1 :: ws) ++ [w])).
  rewrite join_space_cons by discriminate. rewrite IH by discriminate.
  rewrite (join_space_cons w0 (w1 :: ws)) by discriminate.
  rewrite <- app_assoc. reflexivity.
Qed.

Lemma take_S_nth {A} (l : list A) (n : nat) (d : A) :
  n < length l -> take (S n) l = take n l ++ [nth n l d].
Proof.
  revert n. induction l as [|a l IH]; intros n Hn; [simpl in Hn; lia |].
  destruct n as [|n]; [reflexivity |]. simpl. f_equal. apply IH. simpl in Hn. lia.
Qed.

Section Extras.

Variable measureText : jsstring -> Q.
Variables (text : jsstring) (x y maxWidth lineHeight : Q) (maxLines : Z).

Local Abbreviation truncateStep := (truncateStep measureText maxWidth).
Local Abbreviation truncateRest := (truncateRest measureText maxWidth).
Local Abbreviation wrapTurn := (wrapTurn measureText text x y maxWidth lineHeight maxLines).
Local Abbreviation wrapLoop := (wrapLoop measureText text x y maxWidth lineHeight maxLines).
Local Abbreviation lineY := (lineY y lineHeight).
Local Abbreviation words := (words text).

(** Every prefix of [rest] longer than the result is too wide with the
    ellipsis. *)
Lemma truncateRest_longest (fuel : nat) (rest r : jsstring) :
  truncateRest fuel rest = Some r ->
  forall k, length r < k <= length rest ->
            (maxWidth < measureText (take k rest ++ ellipsis))%Q.
Proof.
  revert rest. induction fuel as [|fuel IH]; intros rest; [discriminate |].
  simpl. unfold VideoGenerator.truncateStep.
  destruct (Qgtb _ _ && _) eqn:Hc.
  - intros Hr k Hk. apply andb_true_iff in Hc as [Hwide Hlen].
    apply Qgtb_true in Hwide. apply Nat.ltb_lt in Hlen.
    destruct (Nat.eq_dec k (length rest)) as [-> | Hne].
    + now rewrite firstn_all.
    + rewrite <- firstn_removelast by lia. apply (IH _ Hr).
      rewrite removelast_firstn_len, length_take. lia.
  - intros [= <-] k Hk. lia.
Qed.

(** The [k]-th [fillText] of the loop is at [x], on line [lineCount + k]. *)
Lemma wrapLoop_positions (fuel n : nat) (line : jsstring) (lineCount : Z)
  (ops : list CanvasOp) (e : Exit) :
  wrapLoop fuel n line lineCount = Some (ops, e) ->
  forall k op, ops !! k = Some op ->
               op = FillText (opText op) x (lineY (lineCount + Z.of_nat k)).
Proof.
  revert n line lineCount ops e.
  induction fuel as [|fuel IH]; intros n line lineCount ops e; [discriminate |].
  simpl. destruct (n <? length words).
  2:{ intros [= <- <-] [|k] op [= <-]. simpl. now rewrite Z.add_0_r. }
  unfold VideoGenerator.wrapTurn.
  destruct (Qgtb _ _ && _).
  - destruct (_ >=? _)%Z.
    + destruct (truncateRest fuel _) as [rest|]; [|discriminate].
      intros [= <- <-] [|[|k]] op [= <-]; simpl; [now rewrite Z.add_0_r | reflexivity].
    + destruct (wrapLoop fuel (S n) _ _) as [[ops' e']|] eqn:Hrec; [|discriminate].
      intros [= <- <-] [|k] op Hop.
      * injection Hop as <-. simpl. now rewrite Z.add_0_r.
      * simpl in Hop. rewrite (IH _ _ _ _ _ Hrec k op Hop) at 1.
        simpl. do 2 f_equal. lia.
  - destruct (wrapLoop fuel (S n) _ _) as [[ops' e']|] eqn:Hrec; [|discriminate].
    intros [= <- <-]. apply (IH _ _ _ _ _ Hrec).
Qed.

Lemma wrapLoop_draws (fuel n : nat) (line : jsstring) (lineCount : Z)
  (ops : list CanvasOp) (e : Exit) :
  wrapLoop fuel n line lineCount = Some (ops, e) -> ops <> [].
Proof.
  revert n line lineCount ops e.
  induction fuel as [|fuel IH]; intros n line lineCount ops e; [discriminate |].
  simpl. destruct (n <? length words); [|intros [= <- <-]; discriminate].
  unfold VideoGenerator.wrapTurn.
  destruct (Qgtb _ _ && _).
  - destruct (_ >=? _)%Z.
    + destruct (truncateRest fuel _); [|discriminate]. intros [= <- <-]. discriminate.
    + destruct (wrapLoop fuel (S n) _ _) as [[ops' e']|]; [|discriminate].
      intros [= <- <-]. discriminate.
  - destruct (wrapLoop fuel (S n) _ _) as [[ops' e']|] eqn:Hrec; [|discriminate].
    intros [= <- <-]. apply (IH _ _ _ _ _ Hrec).
Qed.

(** What the ellipsis adds to the lines of a truncated call. *)
Definition suffixOf (e : Exit) : jsstring :=
  match e with
  | ReturnedTruncated => ellipsis
  | ReachedEnd => []
  end.

Lemma spaced_join (ts : list jsstring) : ts <> [] -> spaced ts = space :: join_space ts.
Proof.
  destruct ts as [|t ts]; [congruence |]. intros _.
  rewrite join_space_spaced. reflexivity.
Qed.

(** From a turn [n > 0] on, the lines drawn, joined by spaces, spell the
    current line and the tokens that are left, up to where the text is
    cut. *)
Lemma wrapLoop_content (fuel n : nat) (line : jsstring) (lineCount : Z)
  (ops : list CanvasOp) (e : Exit) :
  Forall (fun w => w <> []) (removelast words) ->
  (n < length words -> line <> []) ->
  wrapLoop fuel n line lineCount = Some (ops, e) ->
  exists shown,
    join_space (map opText ops) = shown ++ suffixOf e /\
    shown `prefix_of` line ++ spaced (drop n words) /\
    (e = ReachedEnd -> shown = line ++ spaced (drop n words)).
Proof.
  intros Hwords. revert n line lineCount ops e.
  induction fuel as [|fuel IH]; intros n line lineCount ops e Hline; [discriminate |].
  simpl. destruct (Nat.ltb_spec n (length words)) as [Hn | Hn].
  2:{ intros [= <- <-]. exists line. rewrite drop_ge by lia. simpl.
      rewrite !app_nil_r. auto. }
  rewrite (drop_nth_cons words n ([] : jsstring) Hn). cbn [spaced flat_map].
  fold (spaced (drop (S n) words)).
  assert (Hword : S n < length words -> nth n words [] <> []).
  { intros Hnext. rewrite <- nth_removelast by lia.
    rewrite List.Forall_forall in Hwords. apply Hwords, nth_In.
    rewrite removelast_firstn_len, length_take. lia. }
  unfold VideoGenerator.wrapTurn.
  destruct (Qgtb _ _ && (0 <? n)).
  - destruct (_ >=? _)%Z.
    + destruct (truncateRest fuel _) as [rest|] eqn:Hrest; [|discriminate].
      intros [= <- <-]. exists (line ++ space :: rest).
      apply truncateRest_prefix in Hrest.
      rewrite (drop_nth_cons words n ([] : jsstring) Hn), join_space_spaced in Hrest.
      split; [simpl; now rewrite <- app_assoc |].
      split; [|discriminate]. apply prefix_app, prefix_cons, Hrest.
    + destruct (wrapLoop fuel (S n) _ _) as [[ops' e']|] eqn:Hrec; [|discriminate].
      intros [= <- <-].
      pose proof (wrapLoop_draws _ _ _ _ _ _ Hrec) as Hne.
      apply IH in Hrec as (shown & Hjoin & Hpre & Hall); [|exact Hword].
      exists (line ++ space :: shown).
      split; [|split].
      * cbn [map opText]. rewrite join_space_spaced, spaced_join, Hjoin.
        -- now rewrite <- app_assoc.
        -- destruct ops'; [congruence | discriminate].
      * apply prefix_app, prefix_cons, Hpre.
      * intros He. now rewrite (Hall He).
  - destruct (wrapLoop fuel (S n) _ _) as [[ops' e']|] eqn:Hrec; [|discriminate].
    intros [= <- <-].
    assert (Htest : testLineOf line (nth n words []) = line ++ space :: nth n words []).
    { unfold testLineOf. specialize (Hline Hn). destruct line; [congruence | reflexivity]. }
    rewrite Htest in Hrec.
    apply IH in Hrec as (shown & Hjoin & Hpre & Hall).
    + exists shown. rewrite <- app_assoc in Hpre, Hall. auto.
    + intros _. destruct line; discriminate.
Qed.

Lemma words_cons : exists w ws, words = w :: ws.
Proof.
  pose proof (split_space_nonempty text) as Hne. unfold VideoGenerator.words.
  destruct (split_space text) as [|w ws]; [congruence | eauto].
Qed.

(** The first turn never commits: it only takes the first token. *)
Lemma wrapLoop_first (fuel : nat) :
  wrapLoop (S fuel) 0 [] 0 = wrapLoop fuel 1 (nth 0 words []) 0.
Proof.
  destruct words_cons as (w & ws & Hw).
  cbn [VideoGenerator.wrapLoop].
  destruct (Nat.ltb_spec 0 (length words)) as [_ | Hlen];
    [|rewrite Hw in Hlen; simpl in Hlen; lia].
  unfold VideoGenerator.wrapTurn. cbn [testLineOf truthy Nat.ltb Nat.leb].
  rewrite andb_false_r.
  destruct (wrapLoop fuel 1 (nth 0 words []) 0) as [[ops e]|]; reflexivity.
Qed.

Lemma join_space_nonempty (ws : list jsstring) : join_space ws <> [] -> ws <> [].
Proof. destruct ws; [simpl; congruence | discriminate]. Qed.

(** While every candidate line fits, the loop only gathers tokens. *)
Lemma wrapLoop_fits (fuel n : nat) (lineCount : Z) :
  (forall k, 1 <= k <= length words ->
             (measureText (join_space (take k words)) <= maxWidth)%Q) ->
  (forall k, 1 <= k < length words -> join_space (take k words) <> []) ->
  1 <= n ->
  length words - n < fuel ->
  wrapLoop fuel n (join_space (take n words)) lineCount
  = Some ([FillText text x (lineY lineCount)], ReachedEnd).
Proof.
  intros Hfit Hne. revert n.
  induction fuel as [|fuel IH]; intros n Hn Hfuel; [lia |].
  simpl. destruct (Nat.ltb_spec n (length words)) as [Hlt | Hge].
  - unfold VideoGenerator.wrapTurn.
    assert (Hline : join_space (take n words) <> []) by (apply Hne; lia).
    assert (Htest : testLineOf (join_space (take n words)) (nth n words [])
                    = join_space (take (S n) words)).
    { rewrite (take_S_nth words n ([] : jsstring) Hlt).
      rewrite join_space_snoc by now apply join_space_nonempty.
      unfold testLineOf. destruct (join_space (take n words)); [congruence | reflexivity]. }
    rewrite Htest.
    replace (Qgtb (measureText (join_space (take (S n) words))) maxWidth) with false
      by (symmetry; apply Qgtb_false, Hfit; lia).
    cbn [andb]. rewrite IH by lia. reflexivity.
  - rewrite take_ge by lia. unfold VideoGenerator.words.
    rewrite join_split_space. reflexivity.
Qed.

End Extras.

Lemma split_space_head (c : N) (s : jsstring) :
  c <> space -> exists w ws, split_space (c :: s) = (c :: w) :: ws.
Proof.
  intros Hc. simpl. destruct (N.eqb_spec c space); [congruence |].
  pose proof (split_space_nonempty s) as Hne.
  destruct (split_space s) as [|w ws]; [congruence |]. simpl. eauto.
Qed.

(** X1.  A text that does not start with a space, and whose every initial
    run of tokens fits in [maxWidth], is drawn by [wrapText] as it is: one
    line, the whole text, at [(x, y)]. *)
Theorem wrapText_fitting_text (measureText : jsstring -> Q) (text : jsstring)
  (x y maxWidth lineHeight : Q) (maxLines : Z) :
  head text <> Some space ->
  (forall k, 1 <= k <= length (words text) ->
             (measureText (join_space (take k (words text))) <= maxWidth)%Q) ->
  wrapText measureText text x y maxWidth lineHeight maxLines
  = Some ([FillText text x (lineY y lineHeight 0)], ReachedEnd).
Proof.
  intros Hstart Hfit. unfold wrapText, wrapText_fuel, wrapText_bound.
  replace (length (words text) + length text + 2)
    with (S (length (words text) + length text + 1)) by lia.
  rewrite wrapLoop_first.
  destruct (words_cons text) as (w & ws & Hw).
  assert (Hline : nth 0 (words text) [] = join_space (take 1 (words text))).
  { rewrite Hw. reflexivity. }
  rewrite Hline. apply wrapLoop_fits; [exact Hfit | | lia | lia].
  intros k Hk. destruct text as [|c s].
  - unfold words in Hk. simpl in Hk. lia.
  - destruct (split_space_head c s) as (w' & ws' & Hsplit).
    { intros ->. now apply Hstart. }
    unfold words. rewrite Hsplit. destruct k as [|k]; [lia |].
    simpl take. rewrite join_space_spaced. discriminate.
Qed.

Lemma wrapText_fitting_text_witness :
  wrapText tenPerUnit (js "ab cd") 0 0 50 44 2
  = Some ([FillText (js "ab cd") 0 (lineY 0 44 0)], ReachedEnd).
Proof.
  apply wrapText_fitting_text.
  - discriminate.
  - intros [|[|[|k]]] Hk; simpl in Hk; try lia; vm_compute; discriminate.
Defined.



(** What the lines spell, for any fuel with which the loop returns. *)
Lemma wrapText_fuel_spells (measureText : jsstring -> Q) (text : jsstring)
  (x y maxWidth lineHeight : Q) (maxLines : Z) (fuel : nat)
  (ops : list CanvasOp) (e : Exit) :
  Forall (fun w => w <> []) (removelast (words text)) ->
  wrapText_fuel measureText text x y maxWidth lineHeight maxLines fuel = Some (ops, e) ->
  exists shown,
    join_space (map opText ops) = shown ++ suffixOf e /\
    shown `prefix_of` text /\
    (e = ReachedEnd -> shown = text).
Proof.
  intros Hwords. unfold wrapText_fuel.
  destruct fuel as [|fuel]; [discriminate |]. rewrite wrapLoop_first. intros Hrun.
  destruct (words_cons text) as (w & ws & Hw).
  apply wrapLoop_content in Hrun; [| exact Hwords |].
  - assert (Htext : nth 0 (words text) [] ++ spaced (drop 1 (words text)) = text).
    { rewrite Hw. change (w ++ spaced ws = text).
      rewrite <- join_space_spaced. rewrite <- Hw. apply join_split_space. }
    now rewrite Htext in Hrun.
  - intros Hlen. rewrite <- nth_removelast by lia.
    rewrite List.Forall_forall in Hwords. apply Hwords, nth_In.
    rewrite removelast_firstn_len, length_take. lia.
Qed.

(** X3.  When the text has no leading and no doubled space, the lines drawn
    lose nothing but the line breaks: joined by single spaces they spell
    the text itself when [wrapText] reaches its end, and an initial part of
    the text followed by the ellipsis when it returns truncated. *)
Theorem wrapText_spells_text (measureText : jsstring -> Q) (text : jsstring)
  (x y maxWidth lineHeight : Q) (maxLines : Z) :
  Forall (fun w => w <> []) (removelast (words text)) ->
  exists ops e shown,
    wrapText measureText text x y maxWidth lineHeight maxLines = Some (ops, e) /\
    join_space (map opText ops) = shown ++ suffixOf e /\
    shown `prefix_of` text /\
    (e = ReachedEnd -> shown = text).
Proof.
  intros Hwords.
  destruct (wrapText_returns measureText text x y maxWidth lineHeight maxLines)
    as [[ops e] Hrun].
  destruct (wrapText_fuel_spells measureText text x y maxWidth lineHeight maxLines _
              ops e Hwords Hrun) as (shown & Hshown).
  exists ops, e, shown. split; [exact Hrun | exact Hshown].
Qed.

Lemma wrapText_spells_text_witness :
  exists ops e shown,
    wrapText tenPerUnit (js "ab cd ef gh") 0 0 50 44 2 = Some (ops, e) /\
    join_space (map opText ops) = shown ++ suffixOf e /\
    shown `prefix_of` js "ab cd ef gh" /\
    (e = ReachedEnd -> shown = js "ab cd ef gh").
Proof.
  apply (wrapText_spells_text tenPerUnit (js "ab cd ef gh") 0 0 50 44 2).
  repeat constructor; discriminate.
Defined.

(** X4.  The [while] loop ends, and keeps the longest initial part of
    [rest] that fits with the ellipsis: the result is an initial part of
    [rest], it fits unless it is empty, and every longer initial part is
    too wide. *)
Theorem truncateRest_longest_fit (measureText : jsstring -> Q) (maxWidth : Q)
  (fuel : nat) (rest : jsstring) :
  length rest < fuel ->
  exists r,
    truncateRest measureText maxWidth fuel rest = Some r /\
    r `prefix_of` rest /\
    ((measureText (r ++ ellipsis) <= maxWidth)%Q \/ r = []) /\
    forall k, length r < k <= length rest ->
              (maxWidth < measureText (take k rest ++ ellipsis))%Q.
Proof.
  intros Hfuel.
  destruct (truncateRest_enough measureText maxWidth fuel rest Hfuel) as (r & Hr & _).
  exists r. split; [exact Hr |]. split; [eapply truncateRest_prefix, Hr |].
  split; [eapply truncateRest_result, Hr | eapply truncateRest_longest, Hr].
Qed.

Lemma truncateRest_longest_fit_witness :
  exists r,
    truncateRest tenPerUnit 50 9 (js "ef gh") = Some r /\
    r `prefix_of` js "ef gh" /\
    ((tenPerUnit (r ++ ellipsis) <= 50)%Q \/ r = []) /\
    forall k, length r < k <= length (js "ef gh") ->
              (50 < tenPerUnit (take k (js "ef gh") ++ ellipsis))%Q.
Proof.
  apply (truncateRest_longest_fit tenPerUnit 50 9 (js "ef gh")). simpl. lia.
Defined.

End WrapTextExtras.

(** ** drawFrame: how the media is fitted, and what a frame writes *)

Module DrawFrameExtras.

Import VideoGenerator.
Import WrapTextProofs.
Import WrapTextExtras.
Import DrawFrameProofs.

Local Open Scope Q_scope.

(** The height of the media band: [height - headerH - footerH]. *)
Definition bandHeight (props : Props) : Q := height props - 100 - 120.

Lemma zoomScale_ge_1 (t total : Z) : (0 <= t)%Z -> 1 <= zoomScale t total.
Proof.
  intros Ht. rewrite <- (zoomScale_first total). now apply zoomScale_monotone.
Qed.

Lemma Qgtb_cases (a b : Q) : (Qgtb a b = true /\ b < a) \/ (Qgtb a b = false /\ a <= b).
Proof.
  destruct (Qgtb a b) eqn:H; [left | right]; split; try reflexivity.
  - now apply Qgtb_true.
  - now apply Qgtb_false.
Qed.

(** The arithmetic of the fit, for a band [w] by [h], a source of aspect
    ratio [a / b] and a zoom [s]. *)
Lemma fit_wide (w h a b s : Q) :
  0 < h -> 0 < a -> 0 < b -> 0 < s ->
  w / h < a / b ->
  h * s * (a / b) * b == h * s * a /\ w * s <= h * s * (a / b).
Proof.
  intros Hh Ha Hb Hs Hlt. split; [field; lra |].
  assert (Hw : w == h * (w / h)) by (field; lra).
  assert (Hhs : 0 < h * s) by nra.
  rewrite Hw at 1. nra.
Qed.

Lemma fit_tall (w h a b s : Q) :
  0 < w -> 0 < h -> 0 < a -> 0 < b -> 0 < s ->
  a / b <= w / h ->
  w * s * b == w * s / (a / b) * a /\ h * s <= w * s / (a / b).
Proof.
  intros Hw Hh Ha Hb Hs Hle.
  assert (Hq : 0 < a / b) by (apply Qlt_shift_div_l; lra).
  split; [field; lra |].
  apply Qle_shift_div_l; [exact Hq |].
  assert (Hm : w == h * (w / h)) by (field; lra).
  assert (Hhs : 0 < h * s) by nra.
  rewrite Hm at 1. nra.
Qed.

Lemma gtQuotient_pos (a num den : Q) : 0 < den -> gtQuotient a num den = Qgtb a (num / den).
Proof.
  intros Hden. unfold gtQuotient. destruct (Qeq_bool den 0) eqn:Hzero; [|reflexivity].
  apply Qeq_bool_iff in Hzero. lra.
Qed.

Lemma nonzero_pos (n : Z) : (0 < n)%Z -> nonzero n = true.
Proof. intros Hn. apply nonzero_true. lia. Qed.

(** X5.  In image mode, an image with positive dimensions is drawn (on a
    canvas wider than 0 and higher than 220) with its aspect ratio kept,
    centred on the centre of the media band, and large enough to cover the
    band scaled by the zoom: it is never letterboxed, one of its sides is
    exactly the scaled side of the band and the other is at least as
    long. *)
Theorem drawImage_covers_band (props : Props) (t total : Z)
  (img : HTMLImageElement) (video : option HTMLVideoElement) :
  mediaType props = Image ->
  (0 < naturalWidth img)%Z -> (0 < naturalHeight img)%Z ->
  0 < width props -> 220 < height props -> (0 <= t)%Z ->
  exists dx dy dw dh,
    In (Op (DrawImage ImageSource dx dy dw dh)) (drawMedia props t total (Some img) video) /\
    dw * inject_Z (naturalHeight img) == dh * inject_Z (naturalWidth img) /\
    dx + dw / 2 == width props / 2 /\
    dy + dh / 2 == 100 + bandHeight props / 2 /\
    width props * zoomScale t total <= dw /\
    bandHeight props * zoomScale t total <= dh /\
    (dw == width props * zoomScale t total \/ dh == bandHeight props * zoomScale t total).
Proof.
  intros Hmt Hiw Hih Hw Hh Ht.
  pose proof (zoomScale_ge_1 t total Ht) as Hs.
  pose proof (GenerateProofs.inject_Z_pos _ Hiw) as Ha.
  pose proof (GenerateProofs.inject_Z_pos _ Hih) as Hb.
  assert (Hband : 0 < bandHeight props) by (unfold bandHeight; lra).
  unfold drawMedia. rewrite Hmt. unfold drawImageBranch.
  rewrite (nonzero_pos _ Hiw), (nonzero_pos _ Hih). cbn [andb].
  fold (bandHeight props). rewrite (gtQuotient_pos _ _ _ Hband).
  destruct (Qgtb_cases (inject_Z (naturalWidth img) / inject_Z (naturalHeight img))
              (width props / bandHeight props)) as [[-> Hlt] | [-> Hle]].
  - destruct (fit_wide (width props) (bandHeight props) _ _ (zoomScale t total)
                Hband Ha Hb ltac:(lra) Hlt) as [Haspect Hcover].
    set (q := inject_Z (naturalWidth img) / inject_Z (naturalHeight img)) in *.
    do 4 eexists. split; [do 5 right; left; reflexivity |].
    split; [exact Haspect |]. split; [field |]. split; [field |].
    split; [exact Hcover |]. split; [apply Qle_refl | right; reflexivity].
  - destruct (fit_tall (width props) (bandHeight props) _ _ (zoomScale t total)
                Hw Hband Ha Hb ltac:(lra) Hle) as [Haspect Hcover].
    set (q := inject_Z (naturalWidth img) / inject_Z (naturalHeight img)) in *.
    set (dh := width props * zoomScale t total / q) in *.
    do 4 eexists. split; [do 6 right; left; reflexivity |].
    split; [exact Haspect |]. split; [field |]. split; [field |].
    split; [apply Qle_refl |]. split; [exact Hcover | left; reflexivity].
Qed.

Lemma drawImage_covers_band_witness :
  exists dx dy dw dh,
    In (Op (DrawImage ImageSource dx dy dw dh))
       (drawMedia (sampleProps Image 720) 149 150
          (Some {| naturalWidth := 800; naturalHeight := 600 |}) None) /\
    dw * inject_Z 600 == dh * inject_Z 800 /\
    dx + dw / 2 == 1280 / 2 /\
    dy + dh / 2 == 100 + bandHeight (sampleProps Image 720) / 2 /\
    1280 * zoomScale 149 150 <= dw /\
    bandHeight (sampleProps Image 720) * zoomScale 149 150 <= dh /\
    (dw == 1280 * zoomScale 149 150 \/
     dh == bandHeight (sampleProps Image 720) * zoomScale 149 150).
Proof.
  apply (drawImage_covers_band (sampleProps Image 720) 149 150
           {| naturalWidth := 800; naturalHeight := 600 |} None);
    try reflexivity; simpl; lia.
Defined.

(** X6.  In video mode, a video that has a current frame
    ([readyState >= 2]) and positive dimensions is drawn with its aspect
    ratio kept, centred on the centre of the media band, and covering the
    band, without zoom. *)
Theorem drawVideo_covers_band (props : Props) (t total : Z)
  (image : option HTMLImageElement) (vid : HTMLVideoElement) :
  mediaType props = Video ->
  (2 <= readyState vid)%Z ->
  (0 < videoWidth vid)%Z -> (0 < videoHeight vid)%Z ->
  0 < width props -> 220 < height props ->
  exists dx dy dw dh,
    In (Op (DrawImage VideoSource dx dy dw dh)) (drawMedia props t total image (Some vid)) /\
    dw * inject_Z (videoHeight vid) == dh * inject_Z (videoWidth vid) /\
    dx + dw / 2 == width props / 2 /\
    dy + dh / 2 == 100 + bandHeight props / 2 /\
    width props <= dw /\
    bandHeight props <= dh /\
    (dw == width props \/ dh == bandHeight props).
Proof.
  intros Hmt Hready Hvw Hvh Hw Hh.
  pose proof (GenerateProofs.inject_Z_pos _ Hvw) as Ha.
  pose proof (GenerateProofs.inject_Z_pos _ Hvh) as Hb.
  assert (Hband : 0 < bandHeight props) by (unfold bandHeight; lra).
  assert (Hmedia : drawMedia props t total image (Some vid) = drawVideoBranch props vid).
  { unfold drawMedia. rewrite Hmt.
    replace (readyState vid >=? 2)%Z with true by (symmetry; apply Z.geb_le; lia).
    now destruct image. }
  rewrite Hmedia. unfold drawVideoBranch.
  rewrite (nonzero_pos _ Hvw), (nonzero_pos _ Hvh). cbn [andb].
  fold (bandHeight props). rewrite (gtQuotient_pos _ _ _ Hband).
  destruct (Qgtb_cases (inject_Z (videoWidth vid) / inject_Z (videoHeight vid))
              (width props / bandHeight props)) as [[-> Hlt] | [-> Hle]].
  - destruct (fit_wide (width props) (bandHeight props) _ _ 1
                Hband Ha Hb ltac:(lra) Hlt) as [Haspect Hcover].
    set (q := inject_Z (videoWidth vid) / inject_Z (videoHeight vid)) in *.
    do 4 eexists. split; [do 4 right; left; reflexivity |].
    split; [subst q; field; lra |]. split; [field |]. split; [field |].
    split; [lra |]. split; [apply Qle_refl | right; reflexivity].
  - destruct (fit_tall (width props) (bandHeight props) _ _ 1
                Hw Hband Ha Hb ltac:(lra) Hle) as [Haspect Hcover].
    assert (Hq : 0 < inject_Z (videoWidth vid) / inject_Z (videoHeight vid))
      by (apply Qlt_shift_div_l; lra).
    assert (Hsame : width props * 1 / (inject_Z (videoWidth vid) / inject_Z (videoHeight vid))
                    == width props / (inject_Z (videoWidth vid) / inject_Z (videoHeight vid)))
      by (field; lra).
    rewrite Hsame in Haspect, Hcover.
    set (q := inject_Z (videoWidth vid) / inject_Z (videoHeight vid)) in *.
    set (dh := width props / q) in *.
    do 4 eexists. split; [do 5 right; left; reflexivity |].
    split; [subst dh q; field; lra |]. split; [field |]. split; [field |].
    split; [apply Qle_refl |]. split; [lra | left; reflexivity].
Qed.

Lemma drawVideo_covers_band_witness :
  exists dx dy dw dh,
    In (Op (DrawImage VideoSource dx dy dw dh))
       (drawMedia (sampleProps Video 720) 7 150 None
          (Some {| videoWidth := 1920; videoHeight := 1080; readyState := 4 |})) /\
    dw * inject_Z 1080 == dh * inject_Z 1920 /\
    dx + dw / 2 == 1280 / 2 /\
    dy + dh / 2 == 100 + bandHeight (sampleProps Video 720) / 2 /\
    1280 <= dw /\
    bandHeight (sampleProps Video 720) <= dh /\
    (dw == 1280 \/ dh == bandHeight (sampleProps Video 720)).
Proof.
  apply (drawVideo_covers_band (sampleProps Video 720) 7 150 None
           {| videoWidth := 1920; videoHeight := 1080; readyState := 4 |});
    try reflexivity; simpl; lia.
Defined.

(** The sources of the [drawImage] calls of a frame, and its [fillText]
    calls. *)
Fixpoint drawnSources (events : list FrameEvent) : list Source :=
  match events with
  | [] => []
  | Op (DrawImage src _ _ _ _) :: events' => src :: drawnSources events'
  | _ :: events' => drawnSources events'
  end.

Fixpoint textOps (events : list FrameEvent) : list CanvasOp :=
  match events with
  | [] => []
  | Op (FillText s tx ty) :: events' => FillText s tx ty :: textOps events'
  | _ :: events' => textOps events'
  end.

Lemma drawnSources_app (a b : list FrameEvent) :
  drawnSources (a ++ b) = drawnSources a ++ drawnSources b.
Proof. induction a as [|[[]|] a IH]; simpl; congruence. Qed.

Lemma textOps_app (a b : list FrameEvent) : textOps (a ++ b) = textOps a ++ textOps b.
Proof. induction a as [|[[]|] a IH]; simpl; congruence. Qed.

Lemma map_Op_texts (ops : list CanvasOp) :
  Forall isFillText ops ->
  drawnSources (map Op ops) = [] /\ textOps (map Op ops) = ops.
Proof.
  induction 1 as [|o ops Ho _ [IH1 IH2]]; [split; reflexivity |].
  destruct o; try contradiction. simpl. rewrite IH1, IH2. auto.
Qed.

Lemma drawImageBranch_sources (props : Props) (t total : Z) (img : HTMLImageElement) :
  drawnSources (drawImageBranch props t total img)
  = (if nonzero (naturalWidth img) && nonzero (naturalHeight img) then [ImageSource] else [])
  /\ textOps (drawImageBranch props t total img) = [].
Proof.
  unfold drawImageBranch. destruct (nonzero _ && nonzero _); [|split; reflexivity].
  destruct (gtQuotient _ _ _); split; reflexivity.
Qed.

Lemma drawVideoBranch_sources (props : Props) (vid : HTMLVideoElement) :
  drawnSources (drawVideoBranch props vid)
  = (if nonzero (videoWidth vid) && nonzero (videoHeight vid) then [VideoSource] else [])
  /\ textOps (drawVideoBranch props vid) = [].
Proof.
  unfold drawVideoBranch. destruct (nonzero _ && nonzero _); [|split; reflexivity].
  destruct (gtQuotient _ _ _); split; reflexivity.
Qed.

Lemma drawMedia_texts (props : Props) (t total : Z)
  (image : option HTMLImageElement) (video : option HTMLVideoElement) :
  textOps (drawMedia props t total image video) = [].
Proof.
  unfold drawMedia.
  destruct (mediaType props), image as [img|], video as [vid|];
    try reflexivity; try apply drawImageBranch_sources.
  all: destruct (readyState vid >=? 2)%Z; [apply drawVideoBranch_sources | reflexivity].
Qed.

(** The frame, split as [drawFrame] builds it. *)
Lemma drawFrame_parts (measureText : string -> jsstring -> Q) (props : Props)
  (t total : Z) (image : option HTMLImageElement) (video : option HTMLVideoElement) :
  exists ops e events,
    wrapText (measureText titleFont) (title props) 36 (height props - 120 + 24)
      (width props - 36 * 2) 44 2 = Some (ops, e) /\
    drawFrame measureText props t total image video = Some events /\
    drawnSources events = drawnSources (drawMedia props t total image video) /\
    textOps events = FillText (js "Breaking News") 36 (100 / 2) :: ops.
Proof.
  destruct (wrapText_returns (measureText titleFont) (title props)
              36 (height props - 120 + 24) (width props - 36 * 2) 44 2)
    as ([ops e] & Hwrap).
  exists ops, e. unfold drawFrame, drawFooter. rewrite Hwrap.
  eexists. split; [reflexivity |]. split; [reflexivity |].
  destruct (map_Op_texts ops (wrapLoop_fillText _ _ _ _ _ _ _ _ _ _ _ _ _ Hwrap))
    as [Hsrc Htxt].
  cbn [drawnSources textOps drawHeader drawMediaBand app].
  rewrite drawnSources_app, textOps_app, drawMedia_texts.
  cbn [drawnSources textOps app]. rewrite Hsrc, Htxt.
  now rewrite app_nil_r.
Qed.

(** X7.  A frame calls [drawImage] at most once, and never on the source of
    the other mode: it draws the image exactly when the mode is image and
    the image is there with non-zero dimensions, and the video exactly when
    the mode is video and the video is there, has a current frame
    ([readyState >= 2]) and non-zero dimensions. *)
Theorem drawFrame_draws_its_source (measureText : string -> jsstring -> Q)
  (props : Props) (t total : Z)
  (image : option HTMLImageElement) (video : option HTMLVideoElement) :
  exists events,
  drawFrame measureText props t total image video = Some events /\
  (drawnSources events = [] \/ drawnSources events = [ImageSource] \/
   drawnSources events = [VideoSource]) /\
  (drawnSources events = [ImageSource] <->
   mediaType props = Image /\
   exists img, image = Some img /\
               naturalWidth img <> 0%Z /\ naturalHeight img <> 0%Z) /\
  (drawnSources events = [VideoSource] <->
   mediaType props = Video /\
   exists vid, video = Some vid /\ (2 <= readyState vid)%Z /\
               videoWidth vid <> 0%Z /\ videoHeight vid <> 0%Z).
Proof.
  destruct (drawFrame_parts measureText props t total image video)
    as (ops & e & events & _ & Hframe & Hsrc & _).
  exists events. split; [exact Hframe |]. rewrite Hsrc. clear Hframe Hsrc.
  unfold drawMedia.
  destruct (mediaType props) eqn:Hmt, image as [img|], video as [vid|].
  all: rewrite ?(proj1 (drawImageBranch_sources props t total _)).
  all: try (destruct (readyState vid >=? 2)%Z eqn:Hready;
            [apply Z.geb_le in Hready
            |assert (~ (2 <= readyState vid)%Z) by (rewrite <- Z.geb_le; congruence)]).
  all: rewrite ?(proj1 (drawVideoBranch_sources props _)).
  all: try (destruct (nonzero (naturalWidth img)) eqn:Hw;
            destruct (nonzero (naturalHeight img)) eqn:Hh).
  all: try (destruct (nonzero (videoWidth vid)) eqn:Hvw;
            destruct (nonzero (videoHeight vid)) eqn:Hvh).
  all: cbn [andb drawnSources].
  all: unfold nonzero in *; rewrite ?negb_true_iff, ?negb_false_iff in *;
       rewrite ?Z.eqb_eq, ?Z.eqb_neq in *.
  all: split; [auto |]; split; split.
  all: try discriminate.
  all: try (intros _; split; [reflexivity |]; eauto 6).
  all: intros [Hm (x & Hx & Hrest)]; try discriminate Hm; try discriminate Hx.
  all: injection Hx as <-; first [reflexivity | tauto].
Qed.

Lemma drawFrame_draws_its_source_witness :
  exists events,
    drawFrame widthOfFont (sampleProps Image 720) 0 150
      (Some {| naturalWidth := 1920; naturalHeight := 1080 |}) None = Some events /\
    drawnSources events = [ImageSource].
Proof.
  destruct (drawFrame_draws_its_source widthOfFont (sampleProps Image 720) 0 150
              (Some {| naturalWidth := 1920; naturalHeight := 1080 |}) None)
    as (events & Hframe & _ & Himage & _).
  exists events. split; [exact Hframe |].
  apply Himage. split; [reflexivity |].
  eexists. split; [reflexivity |]. split; discriminate.
Defined.

(** X8.  Every frame writes exactly these texts, in this order: the label
    Breaking News at (36, 50), then one or two lines of the title, line [k]
    at x = 36 and y = height - 120 + 24 + 44 k. *)
Theorem drawFrame_texts (measureText : string -> jsstring -> Q)
  (props : Props) (t total : Z)
  (image : option HTMLImageElement) (video : option HTMLVideoElement) :
  exists events titleLines,
    drawFrame measureText props t total image video = Some events /\
    textOps events = FillText (js "Breaking News") 36 (100 / 2) :: titleLines /\
    (1 <= length titleLines <= 2)%nat /\
    forall k op, titleLines !! k = Some op ->
      op = FillText (opText op) 36
             (height props - 120 + 24 + inject_Z (Z.of_nat k) * 44).
Proof.
  destruct (drawFrame_parts measureText props t total image video)
    as (ops & e & events & Hwrap & Hframe & _ & Htexts).
  exists events, ops. split; [exact Hframe |]. split; [exact Htexts |]. split.
  - pose proof (wrapLoop_draws _ _ _ _ _ _ _ _ _ _ _ _ _ Hwrap) as Hne.
    destruct (wrapLoop_lines _ _ _ _ _ _ _ _ _ _ _ _ _ ltac:(reflexivity) Hwrap)
      as [Hlen _].
    destruct ops; [congruence |]. simpl in *. lia.
  - intros k op Hop.
    apply (wrapLoop_positions _ _ _ _ _ _ _ _ _ _ _ _ _ Hwrap k op Hop).
Qed.

Lemma drawFrame_texts_witness :
  exists events titleLines,
    drawFrame widthOfFont (sampleProps Video 720) 3 150 None None = Some events /\
    textOps events = FillText (js "Breaking News") 36 (100 / 2) :: titleLines /\
    (1 <= length titleLines <= 2)%nat.
Proof.
  destruct (drawFrame_texts widthOfFont (sampleProps Video 720) 3 150 None None)
    as (events & titleLines & Hframe & Htexts & Hlen & _).
  exists events, titleLines. split; [exact Hframe |]. split; [exact Htexts | exact Hlen].
Defined.

End DrawFrameExtras.


(** ** More on a generation run *)

Module GenerateExtras.

Import VideoGenerator.
Import GenerateProofs.

Local Open Scope Q_scope.

(** The timer waits of a trace, the calls on the recorder, and the
    requests for the media. *)
Fixpoint waits (tr : list Event) : list Q :=
  match tr with
  | [] => []
  | WaitMs ms :: tr' => ms :: waits tr'
  | _ :: tr' => waits tr'
  end.


Fixpoint recorderEvents (tr : list Event) : list Event :=
  match tr with
  | [] => []
  | NewMediaRecorder o :: tr' => NewMediaRecorder o :: recorderEvents tr'
  | RecorderStart :: tr' => RecorderStart :: recorderEvents tr'
  | RecorderStop :: tr' => RecorderStop :: recorderEvents tr'
  | _ :: tr' => recorderEvents tr'
  end.

Fixpoint mediaEvents (tr : list Event) : list Event :=
  match tr with
  | [] => []
  | ImageSrc url :: tr' => ImageSrc url :: mediaEvents tr'
  | VideoSrc url :: tr' => VideoSrc url :: mediaEvents tr'
  | VideoPlay :: tr' => VideoPlay :: mediaEvents tr'
  | _ :: tr' => mediaEvents tr'
  end.

Lemma waits_app (a b : list Event) : waits (a ++ b) = waits a ++ waits b.
Proof. induction a as [|[] a IH]; simpl; congruence. Qed.

Lemma recorderEvents_app (a b : list Event) :
  recorderEvents (a ++ b) = recorderEvents a ++ recorderEvents b.
Proof. induction a as [|[] a IH]; simpl; congruence. Qed.

Lemma mediaEvents_app (a b : list Event) :
  mediaEvents (a ++ b) = mediaEvents a ++ mediaEvents b.
Proof. induction a as [|[] a IH]; simpl; congruence. Qed.

Lemma recorderEvents_In (ev : Event) (tr : list Event) :
  In ev (recorderEvents tr) -> In ev tr.
Proof.
  induction tr as [|[] tr IH]; simpl; intros H; auto.
  all: destruct H as [H | H]; auto.
Qed.

Lemma In_RecorderStop (tr : list Event) :
  In RecorderStop tr -> In RecorderStop (recorderEvents tr).
Proof.
  induction tr as [|[] tr IH]; simpl; intros H; auto.
  all: destruct H as [H | H]; try discriminate H; auto.
Qed.

(** The events of the frame loop. *)
Definition loopEvent (ev : Event) : Prop :=
  match ev with
  | DrawFrameCall _ _ | WaitMs _ | SetState (Recording _) => True
  | _ => False
  end.

Lemma loopEvent_projections (tr : list Event) :
  Forall loopEvent tr -> recorderEvents tr = [] /\ mediaEvents tr = [].
Proof.
  induction 1 as [|ev tr Hev _ [IH1 IH2]]; [split; reflexivity |].
  destruct ev as [[]| | | | | | | | | | |]; try contradiction; simpl; auto.
Qed.


Lemma StronglySorted_map {A B} (R : A -> A -> Prop) (R' : B -> B -> Prop)
  (f : A -> B) (l : list A) :
  (forall a b, R a b -> R' (f a) (f b)) ->
  StronglySorted R l -> StronglySorted R' (map f l).
Proof.
  intros Hf. induction 1 as [|a l Hs IH Hall]; simpl; constructor; [exact IH |].
  apply List.Forall_map. eapply List.Forall_impl; [|exact Hall]. intros b. apply Hf.
Qed.

(** *** Counting the progress reports *)

Lemma div_succ_hit (f s : Z) :
  (0 <= f)%Z -> (0 < s)%Z -> Z.rem (f + 1) s = 0%Z -> ((f + 1) / s = f / s + 1)%Z.
Proof.
  intros Hf Hs Hrem. rewrite Z.rem_mod_nonneg in Hrem by lia.
  pose proof (Z.div_mod (f + 1) s ltac:(lia)) as H1.
  pose proof (Z.div_mod f s ltac:(lia)) as H2.
  pose proof (Z.mod_pos_bound f s Hs) as Hb.
  nia.
Qed.

Lemma div_succ_miss (f s : Z) :
  (0 <= f)%Z -> (0 < s)%Z -> Z.rem (f + 1) s <> 0%Z -> ((f + 1) / s = f / s)%Z.
Proof.
  intros Hf Hs Hrem. rewrite Z.rem_mod_nonneg in Hrem by lia.
  pose proof (Z.div_mod (f + 1) s ltac:(lia)) as H1.
  pose proof (Z.div_mod f s ltac:(lia)) as H2.
  pose proof (Z.mod_pos_bound f s Hs) as Hb.
  pose proof (Z.mod_pos_bound (f + 1) s Hs) as Hb'.
  nia.
Qed.

(** About fifty reports: as many as there are frames when these are fewer
    than 50, and from 50 to 99 otherwise. *)
Lemma updates_bounds (total : Z) :
  (1 <= total)%Z ->
  (Z.min total 50 <= total / updateStep total <= 99)%Z.
Proof.
  intros Ht. unfold updateStep.
  destruct (Z_lt_le_dec total 50) as [Hsmall | Hbig].
  - rewrite (Z.div_small total 50) by lia. rewrite Z.max_l by lia.
    rewrite Z.div_1_r. lia.
  - pose proof (Z.div_mod total 50 ltac:(lia)) as Hdm.
    pose proof (Z.mod_pos_bound total 50 ltac:(lia)) as Hb.
    assert (Hs : (1 <= total / 50)%Z) by (apply Z.div_le_lower_bound; lia).
    rewrite Z.max_r by lia. split.
    + rewrite Z.min_r by lia. apply Z.div_le_lower_bound; lia.
    + assert (total / (total / 50) < 100)%Z; [|lia].
      apply Z.div_lt_upper_bound; lia.
Qed.

(** The last report of a loop that has run to its end is 49/50 at
    least. *)
Lemma final_progress_bound (total : Z) :
  (1 <= total)%Z ->
  49 # 50 <= ratio (total - total mod updateStep total) total.
Proof.
  intros Ht. unfold ratio. apply Qle_shift_div_l; [apply inject_Z_pos; lia |].
  assert (H : (49 * total <= 50 * (total - total mod updateStep total))%Z).
  { unfold updateStep. destruct (Z_lt_le_dec total 50) as [Hsmall | Hbig].
    - rewrite (Z.div_small total 50) by lia. rewrite Z.max_l by lia.
      rewrite Z.mod_1_r. lia.
    - pose proof (Z.div_mod total 50 ltac:(lia)) as Hdm.
      pose proof (Z.mod_pos_bound total 50 ltac:(lia)) as Hb.
      assert (Hs : (1 <= total / 50)%Z) by (apply Z.div_le_lower_bound; lia).
      rewrite Z.max_r by lia.
      pose proof (Z.mod_pos_bound total (total / 50) ltac:(lia)). lia. }
  rewrite Zle_Qle in H. rewrite !inject_Z_mult in H.
  change (inject_Z 49) with 49 in H. change (inject_Z 50) with 50 in H. lra.
Qed.

Section FrameLoopExtras.

Variable env : Env.
Variable total : Z.

Lemma frameLoop_only (count : nat) (f : Z) :
  Forall loopEvent (trace (frameLoop env count f total)).
Proof.
  revert f. induction count as [|count IH]; intros f; [constructor |].
  rewrite frameLoop_S. destruct (drawFrame_throws env f).
  - repeat constructor.
  - rewrite trace_pair. repeat (constructor; [exact I |]).
    apply Forall_app. split; [|apply IH].
    unfold updateEvents. destruct (_ =? _)%Z; repeat constructor.
Qed.

(** One wait of a frame interval after every frame that was drawn without
    an exception. *)
Lemma frameLoop_waits (count : nat) (f : Z) :
  exists n, (n <= count)%nat /\
    waits (trace (frameLoop env count f total)) = repeat frameInterval n /\
    (outcome (frameLoop env count f total) = Value tt -> n = count).
Proof.
  revert f. induction count as [|count IH]; intros f.
  { exists 0%nat. split; [lia |]. split; [reflexivity | auto]. }
  rewrite frameLoop_S. destruct (drawFrame_throws env f).
  { exists 0%nat. split; [lia |]. split; [reflexivity | discriminate]. }
  rewrite trace_pair, outcome_pair.
  destruct (IH (f + 1)%Z) as (n & Hn & Hw & Hv). exists (S n).
  split; [lia |]. split.
  - unfold updateEvents. destruct (_ =? _)%Z; simpl; now rewrite Hw.
  - intros Ho. now rewrite (Hv Ho).
Qed.

Lemma frameLoop_updates (count : nat) (f : Z) :
  (0 <= f)%Z ->
  let n := Z.of_nat (length (progressValues (trace (frameLoop env count f total)))) in
  let all := ((f + Z.of_nat count) / updateStep total - f / updateStep total)%Z in
  (n <= all)%Z /\ (outcome (frameLoop env count f total) = Value tt -> n = all).
Proof.
  pose proof (updateStep_pos total) as Hstep.
  revert f. induction count as [|count IH]; intros f Hf n all; subst n all.
  { simpl. rewrite Z.add_0_r. lia. }
  rewrite frameLoop_S.
  assert (Hf1 : (0 <= f + 1)%Z) by lia.
  assert (Hs0 : (0 < updateStep total)%Z) by lia.
  assert (Hnext : (f + 1 + Z.of_nat count = f + Z.of_nat (S count))%Z) by lia.
  assert (Hmono : (f / updateStep total <= (f + Z.of_nat (S count)) / updateStep total)%Z)
    by (apply Z.div_le_mono; lia).
  destruct (drawFrame_throws env f).
  { rewrite trace_pair. cbn [progressValues length].
    split; [|discriminate]. apply Zle_minus_le_0 in Hmono. exact Hmono. }
  rewrite trace_pair, outcome_pair.
  destruct (IH (f + 1)%Z Hf1) as [Hle Heq].
  rewrite Hnext in Hle, Heq. clear Hnext Hf1 Hstep IH.
  assert (Hlen : forall evs,
            length (progressValues
                      (DrawFrameCall f total :: WaitMs frameInterval :: evs))
            = length (progressValues evs)) by reflexivity.
  rewrite Hlen, progressValues_app, length_app, Nat2Z.inj_add.
  unfold updateEvents.
  destruct (Z.eqb_spec (Z.rem (f + 1) (updateStep total)) 0) as [Hhit | Hmiss].
  - rewrite (div_succ_hit f _ Hf Hs0 Hhit) in Hle, Heq.
    cbn [progressValues length].
    revert Hle Heq.
    generalize (Z.of_nat (length (progressValues (trace (frameLoop env count (f + 1) total))))).
    generalize ((f + Z.of_nat (S count)) / updateStep total)%Z.
    generalize (f / updateStep total)%Z.
    clear. intros a b c Hle Heq. split; [lia |]. intros Ho. specialize (Heq Ho). lia.
  - rewrite (div_succ_miss f _ Hf Hs0 Hmiss) in Hle, Heq.
    cbn [progressValues length].
    revert Hle Heq.
    generalize (Z.of_nat (length (progressValues (trace (frameLoop env count (f + 1) total))))).
    generalize ((f + Z.of_nat (S count)) / updateStep total)%Z.
    generalize (f / updateStep total)%Z.
    clear. intros a b c Hle Heq. split; [lia |]. intros Ho. specialize (Heq Ho). lia.
Qed.

End FrameLoopExtras.

(** What the frame loop of a run contributes, besides [LoopFacts]. *)
Record LoopExtras (props : Props) (loop : list Event) (r : Res unit) : Prop := {
  extra_recorder : recorderEvents loop = [];
  extra_media : mediaEvents loop = [];
  extra_waits :
    exists n, (Z.of_nat n <= totalFramesOf (durationSec props))%Z /\
              waits loop = repeat frameInterval n /\
              (r = Value tt -> n = Z.to_nat (totalFramesOf (durationSec props)));
  extra_updates :
    (Z.of_nat (length (progressValues loop))
     <= totalFramesOf (durationSec props) / updateStep (totalFramesOf (durationSec props)))%Z;
  extra_updates_all :
    r = Value tt ->
    Z.of_nat (length (progressValues loop))
    = (totalFramesOf (durationSec props) / updateStep (totalFramesOf (durationSec props)))%Z;
  extra_final :
    r = Value tt -> 49 # 50 <= default 0 (last (progressValues loop))
}.

Lemma loopRun_extras (props : Props) (env : Env) (loop : list Event) (r : Res unit) :
  loopRun props env = (loop, r) -> LoopExtras props loop r.
Proof.
  unfold loopRun. set (T := totalFramesOf (durationSec props)). intros Hrun.
  assert (HT : (1 <= T)%Z) by apply totalFramesOf_pos.
  assert (Hloop : loop = trace (frameLoop env (Z.to_nat T) 0 T)) by now rewrite Hrun.
  assert (Hr : r = outcome (frameLoop env (Z.to_nat T) 0 T)) by now rewrite Hrun.
  destruct (loopEvent_projections _ (frameLoop_only env T (Z.to_nat T) 0)) as [Hrec Hmedia].
  destruct (frameLoop_waits env T (Z.to_nat T) 0) as (n & Hn & Hw & Hv).
  destruct (frameLoop_updates env T (Z.to_nat T) 0 ltac:(lia)) as [Hle Heq].
  rewrite Z2Nat.id, Z.add_0_l, Z.div_0_l, Z.sub_0_r in Hle, Heq
    by (pose proof (updateStep_pos T); lia).
  rewrite <- Hloop in *. rewrite <- Hr in *.
  split; try assumption.
  - exists n. split; [lia |]. split; assumption.
  - intros Hv'. rewrite Hr in Hv'.
    pose proof (frameLoop_last_progress env T (Z.to_nat T) 0 0) as Hlast.
    rewrite <- Hloop in Hlast. cbv zeta in Hlast.
    rewrite Z2Nat.id, Z.add_0_l, Zmod_0_l in Hlast by lia.
    eapply Qle_trans; [apply (final_progress_bound T HT) |].
    apply Hlast; [lia | | exact Hv'].
    change (0 - 0)%Z with 0%Z. rewrite ratio_0. apply Qle_refl.
Qed.

(** All the runs of [handleGenerate], with [LoopFacts] in [F] and
    [LoopExtras] in [G]. *)
Ltac run_paths_extra env props F G :=
  let loop := fresh "loop" in
  let r := fresh "r" in
  let Hloop := fresh "Hloop" in
  unfold handleGenerate; rewrite generateBody_eq;
  unfold prepareMedia, waitImage, waitVideoReady, swallow;
  destruct (loopRun props env) as [loop r] eqn:Hloop;
  pose proof (loopRun_facts props env loop r Hloop) as F;
  pose proof (loopRun_extras props env loop r Hloop) as G;
  clear Hloop;
  repeat run_step env props r;
  cbn [try_catch bind emit call throw ret never app];
  try (exfalso; apply (loop_not_suspended _ _ _ _ F); reflexivity).

Ltac norm_extra :=
  rewrite ?trace_pair, ?outcome_pair;
  rewrite <- ?app_assoc;
  cbn [app waits recorderEvents mediaEvents progressValues drawCalls];
  rewrite ?waits_app, ?recorderEvents_app, ?mediaEvents_app, ?progressValues_app,
    ?drawCalls_app;
  cbn [app waits recorderEvents mediaEvents progressValues drawCalls];
  rewrite ?app_nil_r.

(** *** The pace of a recording *)







(** *** The recorder *)

(** X10.  The recorder is constructed, started and stopped in this order,
    at most once each.  [stop()] is only called when every frame has been
    drawn without an exception: when a frame throws, the run ends without
    stopping the recorder it has started. *)
Theorem recorder_lifecycle (props : Props) (env : Env) :
  let run := handleGenerate props env in
  let totalFrames := totalFramesOf (durationSec props) in
  recorderEvents (trace run)
    `prefix_of` [NewMediaRecorder (optionsOf env); RecorderStart; RecorderStop] /\
  (In RecorderStop (trace run) ->
   drawCalls (trace run) = map (fun f => (f, totalFrames)) (seqZ 0 totalFrames) /\
   forall g, (0 <= g < totalFrames)%Z -> drawFrame_throws env g = None) /\
  (forall g e, stepThrows props env (AtFrame g) e -> ~ In RecorderStop (trace run)).
Proof.
  intros run totalFrames.
  assert (Hboth :
    recorderEvents (trace run)
      `prefix_of` [NewMediaRecorder (optionsOf env); RecorderStart; RecorderStop] /\
    (In RecorderStop (recorderEvents (trace run)) ->
     drawCalls (trace run) = map (fun f => (f, totalFrames)) (seqZ 0 totalFrames) /\
     forall g, (0 <= g < totalFrames)%Z -> drawFrame_throws env g = None)).
  { subst run totalFrames. run_paths_extra env props F G.
    all: norm_extra; rewrite ?(extra_recorder _ _ _ G); cbn [app].
    all: split; [repeat apply prefix_cons; first [apply prefix_nil | reflexivity] |].
    all: intros Hin.
    all: try (split; [apply (loop_calls_all _ _ _ _ F eq_refl)
                     | apply (loop_succeeds _ _ _ _ F eq_refl)]).
    all: cbn [In] in Hin; intuition discriminate. }
  destruct Hboth as [Hprefix Hstop].
  split; [exact Hprefix |]. split.
  - intros Hin. apply Hstop, In_RecorderStop, Hin.
  - intros g e [Hg He] Hin.
    destruct (Hstop (In_RecorderStop _ Hin)) as [_ Hnone].
    rewrite (Hnone g Hg) in He. discriminate He.
Qed.

(** Frame 2 of a run of one second throws: the recorder has been started
    and is not stopped. *)
Lemma recorder_lifecycle_witness :
  recorderEvents (trace (handleGenerate (exampleProps Image 1)
     (exampleEnv true None true [webm] None (throwsAt 2 {| exn_message := None |}))))
  = [NewMediaRecorder (Some webm); RecorderStart] /\
  ~ In RecorderStop (trace (handleGenerate (exampleProps Image 1)
     (exampleEnv true None true [webm] None (throwsAt 2 {| exn_message := None |})))).
Proof.
  split; [reflexivity |].
  apply (proj2 (proj2 (recorder_lifecycle (exampleProps Image 1)
           (exampleEnv true None true [webm] None (throwsAt 2 {| exn_message := None |}))))
           2%Z {| exn_message := None |}).
  split; [vm_compute; split; [discriminate | reflexivity] | reflexivity].
Defined.

(** *** The media *)

(** X11.  Once the canvas context is there, the media is requested once,
    and only in the mode of the props.  An image is loaded from [mediaUrl],
    or from the placeholder when [mediaUrl] is empty; a video gets
    [mediaUrl] as it is, empty or not, and is asked to play once. *)
Theorem media_requested_once (props : Props) (env : Env) :
  getContext_2d env = true ->
  mediaEvents (trace (handleGenerate props env))
  = match mediaType props with
    | Image =>
        [ImageSrc match mediaUrl props with
                  | [] => js "/breaking-news-image.jpg"
                  | _ :: _ => mediaUrl props
                  end]
    | Video => [VideoSrc (mediaUrl props); VideoPlay]
    end.
Proof.
  intros Hcontext. revert Hcontext. run_paths_extra env props F G.
  all: intros Hcontext; try discriminate Hcontext.
  all: norm_extra; rewrite ?(extra_media _ _ _ G); cbn [app].
  all: unfold or_else; destruct (mediaUrl props); reflexivity.
Qed.

Lemma media_requested_once_witness :
  mediaEvents (trace (handleGenerate
     {| title := js "Hello world"; mediaUrl := []; mediaType := Image;
        durationSec := 1; width := 1280; height := 720 |} quietEnv))
  = [ImageSrc (js "/breaking-news-image.jpg")].
Proof.
  apply (media_requested_once
     {| title := js "Hello world"; mediaUrl := []; mediaType := Image;
        durationSec := 1; width := 1280; height := 720 |} quietEnv).
  reflexivity.
Defined.

(** *** The progress reports and the percentage shown *)

(** The progress values of a run: 0, then those of the frame loop. *)
Lemma run_progress (props : Props) (env : Env) :
  let totalFrames := totalFramesOf (durationSec props) in
  exists ps,
    progressValues (trace (handleGenerate props env)) = 0 :: ps /\
    StronglySorted Qle ps /\
    Forall (fun p => 0 <= p /\ p <= 1) ps /\
    (Z.of_nat (length ps) <= totalFrames / updateStep totalFrames)%Z /\
    (forall url size,
       last (trace (handleGenerate props env)) = Some (SetState (Done url size)) ->
       Z.of_nat (length ps) = (totalFrames / updateStep totalFrames)%Z /\
       49 # 50 <= default 0 (last ps)).
Proof.
  intros totalFrames. subst totalFrames.
  assert (Hnone : (0 <= totalFramesOf (durationSec props)
                        / updateStep (totalFramesOf (durationSec props)))%Z).
  { apply Z.div_pos; [pose proof (totalFramesOf_pos (durationSec props)); lia |].
    pose proof (updateStep_pos (totalFramesOf (durationSec props))); lia. }
  run_paths_extra env props F G.
  all: norm_extra.
  all: eexists; split; [reflexivity |].
  all: split; [first [apply (loop_sorted _ _ _ _ F) | constructor] |].
  all: split; [first [apply (loop_bounds _ _ _ _ F) | constructor] |].
  all: split; [first [apply (extra_updates _ _ _ G) | exact Hnone] |].
  all: intros url' size'; norm_last; intros Hdone; try discriminate Hdone.
  all: split; [apply (extra_updates_all _ _ _ G eq_refl) | apply (extra_final _ _ _ G eq_refl)].
Qed.

(** X12.  A run reports progress at most 100 times, the initial 0
    included.  A run that ends in [Done] has reported it
    [1 + totalFrames / updateStep] times: once per frame when there are
    fewer than 50 frames, and between 50 and 99 times otherwise, after the
    initial 0. *)
Theorem progress_reports_bounded (props : Props) (env : Env) :
  let run := handleGenerate props env in
  let totalFrames := totalFramesOf (durationSec props) in
  (length (progressValues (trace run)) <= 100)%nat /\
  (forall url size,
     last (trace run) = Some (SetState (Done url size)) ->
     Z.of_nat (length (progressValues (trace run)))
     = (1 + totalFrames / updateStep totalFrames)%Z /\
     (Z.min totalFrames 50 <= totalFrames / updateStep totalFrames <= 99)%Z).
Proof.
  intros run totalFrames. subst run.
  destruct (run_progress props env) as (ps & Hps & _ & _ & Hle & Hdone).
  fold totalFrames in Hle, Hdone.
  pose proof (updates_bounds totalFrames (totalFramesOf_pos _)) as Hbounds.
  rewrite Hps. cbn [length]. split; [lia |].
  intros url size Hlast. destruct (Hdone url size Hlast) as [Heq _].
  split; [lia | exact Hbounds].
Qed.

(** Five seconds: 150 frames, a report every 3 frames, 51 reports. *)
Lemma progress_reports_bounded_witness :
  length (progressValues (trace (handleGenerate (exampleProps Image 5) quietEnv))) = 51%nat.
Proof.
  destruct (progress_reports_bounded (exampleProps Image 5) quietEnv) as [_ Hdone].
  destruct (Hdone (js "blob:breaking-news") 4096%Z eq_refl) as [Hlen _].
  apply Nat2Z.inj. rewrite Hlen. reflexivity.
Defined.

Lemma or_zero (p : Q) : (if Qeq_bool p 0 then 0 else p) == p.
Proof.
  destruct (Qeq_bool p 0) eqn:Hp; [|reflexivity].
  apply Qeq_bool_iff in Hp. now rewrite Hp.
Qed.

Lemma percentShown_mono (p q : Q) : p <= q -> (percentShown p <= percentShown q)%Z.
Proof.
  intros Hpq. unfold percentShown, Math_round. apply Qfloor_resp_le.
  rewrite !or_zero. lra.
Qed.

(** X13.  The percentages that the status line shows during a run start
    at 0, never decrease and lie between 0 and 100; the last one shown
    before [Done] is 98 at least. *)
Theorem percent_shown (props : Props) (env : Env) :
  let run := handleGenerate props env in
  let shown := map percentShown (progressValues (trace run)) in
  head shown = Some 0%Z /\
  StronglySorted Z.le shown /\
  Forall (fun p => (0 <= p <= 100)%Z) shown /\
  (forall url size,
     last (trace run) = Some (SetState (Done url size)) ->
     exists p, last shown = Some p /\ (98 <= p)%Z).
Proof.
  intros run shown. subst shown run.
  destruct (run_progress props env) as (ps & Hps & Hsorted & Hbounds & _ & Hdone).
  rewrite Hps. cbn [map head].
  assert (Hall : Forall (fun p => (0 <= p <= 100)%Z) (map percentShown ps)).
  { apply List.Forall_map. eapply List.Forall_impl; [|exact Hbounds].
    intros p [Hlo Hhi]. split.
    - change 0%Z with (percentShown 0). now apply percentShown_mono.
    - change 100%Z with (percentShown 1). now apply percentShown_mono. }
  split; [reflexivity |]. split; [|split].
  - constructor.
    + apply (StronglySorted_map Qle Z.le percentShown ps percentShown_mono Hsorted).
    + eapply List.Forall_impl; [|exact Hall]. intros p Hp. apply Hp.
  - constructor; [split; [reflexivity | discriminate] | exact Hall].
  - intros url size Hlast. destruct (Hdone url size Hlast) as [_ Hfinal].
    rewrite last_cons, last_map.
    destruct (last ps) as [p|]; cbn [option_map default] in *.
    + exists (percentShown p). split; [reflexivity |].
      change 98%Z with (percentShown (49 # 50)). now apply percentShown_mono.
    + exfalso. revert Hfinal. apply Qlt_not_le. reflexivity.
Qed.

(** Five seconds: the last percentage shown is 100. *)
Lemma percent_shown_witness :
  exists p,
    last (map percentShown
            (progressValues (trace (handleGenerate (exampleProps Image 5) quietEnv))))
    = Some p /\ (98 <= p)%Z.
Proof.
  apply (proj2 (proj2 (proj2 (percent_shown (exampleProps Image 5) quietEnv)))
           (js "blob:breaking-news") 4096%Z).
  reflexivity.
Defined.

End GenerateExtras.


(** ** More on the feed parsers *)

Module NewsRouteExtras.

Import NewsRoute.
Import NewsRouteProofs.

(** *** splitCsvLine *)

(** The usual encoding of a line of fields: a field is written between
    quotes, with every quote in it doubled, or as it is when it has no
    quote and no comma; the cells are joined by commas. *)
Definition escapeQuotes (field : jsstring) : jsstring :=
  flat_map (fun c => if (c =? quote)%N then [quote; quote] else [c]) field.

Definition quoted (field : jsstring) : jsstring := quote :: escapeQuotes field ++ [quote].

Definition plain (field : jsstring) : Prop :=
  Forall (fun c => c <> quote /\ c <> comma) field.

Definition encodes (field cell : jsstring) : Prop :=
  cell = quoted field \/ (cell = field /\ plain field).

Fixpoint joinComma (cells : list jsstring) : jsstring :=
  match cells with
  | [] => []
  | [cell] => cell
  | cell :: cells' => cell ++ comma :: joinComma cells'
  end.

Lemma joinComma_cons (cell : jsstring) (cells : list jsstring) :
  cells <> [] -> joinComma (cell :: cells) = cell ++ comma :: joinComma cells.
Proof. destruct cells; [congruence | reflexivity]. Qed.

(** What follows a cell in a line: nothing, or a comma. *)
Definition afterCell (rest : jsstring) : Prop :=
  rest = [] \/ exists rest', rest = comma :: rest'.

Lemma splitCsvLoop_open (rest current : jsstring) (result : list jsstring) :
  splitCsvLoop (quote :: rest) current false result
  = splitCsvLoop rest current true result.
Proof. destruct rest; reflexivity. Qed.

Lemma splitCsvLoop_close (rest current : jsstring) (result : list jsstring) :
  afterCell rest ->
  splitCsvLoop (quote :: rest) current true result
  = splitCsvLoop rest current false result.
Proof. intros [-> | [rest' ->]]; reflexivity. Qed.

Lemma splitCsvLoop_escaped (field rest current : jsstring) (result : list jsstring) :
  splitCsvLoop (escapeQuotes field ++ quote :: rest) current true result
  = splitCsvLoop (quote :: rest) (current ++ field) true result.
Proof.
  revert current. induction field as [|c field IH]; intros current.
  { now rewrite app_nil_r. }
  unfold escapeQuotes. cbn [flat_map]. fold (escapeQuotes field).
  destruct (N.eqb_spec c quote) as [-> | Hc].
  - cbn [app]. cbn [splitCsvLoop]. rewrite N.eqb_refl. cbn [andb].
    rewrite IH. now rewrite <- app_assoc.
  - cbn [app]. cbn [splitCsvLoop].
    apply N.eqb_neq in Hc. rewrite Hc. rewrite andb_false_r.
    rewrite IH. now rewrite <- app_assoc.
Qed.

Lemma splitCsvLoop_plain (field rest current : jsstring) (result : list jsstring) :
  plain field ->
  splitCsvLoop (field ++ rest) current false result
  = splitCsvLoop rest (current ++ field) false result.
Proof.
  intros Hplain. revert current.
  induction Hplain as [|c field [Hq Hc] _ IH]; intros current.
  { now rewrite app_nil_r. }
  cbn [app splitCsvLoop].
  apply N.eqb_neq in Hq, Hc. rewrite Hq, Hc. cbn [andb].
  rewrite IH. now rewrite <- app_assoc.
Qed.

Lemma splitCsvLoop_cell (field cell rest : jsstring) (result : list jsstring) :
  encodes field cell -> afterCell rest ->
  splitCsvLoop (cell ++ rest) [] false result = splitCsvLoop rest field false result.
Proof.
  intros [-> | [-> Hplain]] Hrest.
  - unfold quoted. cbn [app]. rewrite splitCsvLoop_open, <- app_assoc. cbn [app].
    rewrite splitCsvLoop_escaped. now apply splitCsvLoop_close.
  - now apply splitCsvLoop_plain.
Qed.

Lemma splitCsvLoop_cells (fields cells : list jsstring) :
  Forall2 encodes fields cells ->
  forall field cell result,
    encodes field cell ->
    splitCsvLoop (joinComma (cell :: cells)) [] false result = result ++ field :: fields.
Proof.
  induction 1 as [|field' cell' fields cells Hcell' _ IH]; intros field cell result Hcell.
  - cbn [joinComma]. rewrite <- (app_nil_r cell).
    rewrite (splitCsvLoop_cell field cell [] result Hcell) by now left. reflexivity.
  - rewrite joinComma_cons by discriminate.
    rewrite (splitCsvLoop_cell field cell _ result Hcell) by (right; eauto).
    cbn [splitCsvLoop]. change (comma =? quote)%N with false.
    rewrite N.eqb_refl. cbn [andb negb].
    rewrite (IH field' cell' _ Hcell'). now rewrite <- app_assoc.
Qed.

(** X14.  [splitCsvLine] undoes the usual encoding of a line: when every
    cell is its field between quotes with the quotes doubled, or the field
    itself if it has no quote and no comma, the line of the cells joined by
    commas splits into the fields. *)
Theorem splitCsvLine_decodes (fields cells : list jsstring) :
  fields <> [] ->
  Forall2 encodes fields cells ->
  splitCsvLine (joinComma cells) = fields.
Proof.
  intros Hne Hcells. destruct Hcells as [|field cell fields cells Hcell Hcells]; [congruence |].
  unfold splitCsvLine. now rewrite (splitCsvLoop_cells fields cells Hcells field cell []).
Qed.

(** The line [say "hi",plain,"a,b"] and its three fields. *)
Lemma splitCsvLine_decodes_witness :
  splitCsvLine (joinComma [quoted (js "say " ++ [quote] ++ js "hi" ++ [quote]);
                           js "plain"; quoted (js "a,b")])
  = [js "say " ++ [quote] ++ js "hi" ++ [quote]; js "plain"; js "a,b"].
Proof.
  apply splitCsvLine_decodes; [discriminate |].
  constructor; [left; reflexivity |].
  constructor; [right; split; [reflexivity | repeat constructor; discriminate] |].
  constructor; [left; reflexivity | constructor].
Defined.

(** On a line without quotes the fields are the pieces between the
    commas. *)
Lemma splitCsvLoop_result (line current : jsstring) (inQuotes : bool)
  (result : list jsstring) :
  splitCsvLoop line current inQuotes result
  = result ++ splitCsvLoop line current inQuotes [].
Proof.
  revert current inQuotes result.
  induction line as [line IH] using (induction_ltof1 _ (@length N)); unfold ltof in IH.
  intros current inQuotes result. destruct line as [|ch rest]; [reflexivity |].
  cbn [splitCsvLoop]. destruct (ch =? quote)%N.
  - destruct rest as [|ch' rest']; [apply IH; simpl; lia |].
    destruct (inQuotes && (ch' =? quote)%N); apply IH; simpl; lia.
  - destruct ((ch =? comma)%N && negb inQuotes).
    + rewrite (IH rest ltac:(simpl; lia) [] inQuotes (result ++ [current])).
      rewrite (IH rest ltac:(simpl; lia) [] inQuotes ([] ++ [current])).
      now rewrite <- app_assoc.
    + apply IH. simpl. lia.
Qed.

Lemma splitCsvLoop_nonempty (line current : jsstring) (inQuotes : bool) :
  splitCsvLoop line current inQuotes [] <> [].
Proof.
  revert current inQuotes.
  induction line as [line IH] using (induction_ltof1 _ (@length N)); unfold ltof in IH.
  intros current inQuotes. destruct line as [|ch rest]; [discriminate |].
  cbn [splitCsvLoop]. destruct (ch =? quote)%N.
  - destruct rest as [|ch' rest']; [apply IH; simpl; lia |].
    destruct (inQuotes && (ch' =? quote)%N); apply IH; simpl; lia.
  - destruct ((ch =? comma)%N && negb inQuotes).
    + rewrite splitCsvLoop_result. discriminate.
    + apply IH. simpl. lia.
Qed.

Definition commas (line : jsstring) : nat := count_occ N.eq_dec line comma.

Lemma splitCsvLoop_unquoted (line current : jsstring) :
  Forall (fun c => c <> quote) line ->
  let fields := splitCsvLoop line current false [] in
  joinComma fields = current ++ line /\
  length fields = S (commas line) /\
  (Forall (fun c => c <> comma) current -> Forall (Forall (fun c => c <> comma)) fields).
Proof.
  intros Hline. revert current.
  induction Hline as [|ch rest Hq _ IH]; intros current fields; subst fields.
  { cbn [splitCsvLoop app joinComma]. rewrite app_nil_r.
    split; [reflexivity |]. split; [reflexivity |]. intros H. now constructor. }
  cbn [splitCsvLoop]. apply N.eqb_neq in Hq. rewrite Hq. cbn [negb].
  rewrite andb_true_r. destruct (N.eqb_spec ch comma) as [-> | Hc].
  - rewrite splitCsvLoop_result. cbn [app].
    destruct (IH []) as (Hjoin & Hlen & Hfree).
    rewrite joinComma_cons by apply splitCsvLoop_nonempty.
    rewrite Hjoin. split; [reflexivity |]. split.
    + cbn [length]. rewrite Hlen. unfold commas.
      now rewrite count_occ_cons_eq.
    + intros Hcur. constructor; [exact Hcur | apply Hfree; constructor].
  - destruct (IH (current ++ [ch])) as (Hjoin & Hlen & Hfree).
    rewrite Hjoin, <- app_assoc. split; [reflexivity |]. split.
    + rewrite Hlen. unfold commas. now rewrite count_occ_cons_neq.
    + intros Hcur. apply Hfree. apply Forall_app. split; [exact Hcur |].
      now repeat constructor.
Qed.

(** X15.  On a line without quotes [splitCsvLine] splits at every comma
    and nowhere else: joining the fields by commas gives the line back, no
    field has a comma, and there is one field more than there are
    commas. *)
Theorem splitCsvLine_unquoted (line : jsstring) :
  Forall (fun c => c <> quote) line ->
  joinComma (splitCsvLine line) = line /\
  length (splitCsvLine line) = S (commas line) /\
  Forall (Forall (fun c => c <> comma)) (splitCsvLine line).
Proof.
  intros Hline. destruct (splitCsvLoop_unquoted line [] Hline) as (Hjoin & Hlen & Hfree).
  split; [exact Hjoin |]. split; [exact Hlen |]. apply Hfree. constructor.
Qed.

Lemma splitCsvLine_unquoted_witness :
  joinComma (splitCsvLine (js "title,,mediaUrl")) = js "title,,mediaUrl" /\
  length (splitCsvLine (js "title,,mediaUrl")) = S (commas (js "title,,mediaUrl")) /\
  Forall (Forall (fun c => c <> comma)) (splitCsvLine (js "title,,mediaUrl")).
Proof.
  apply (splitCsvLine_unquoted (js "title,,mediaUrl")).
  repeat constructor; discriminate.
Defined.

(** *** The ids of the items *)

(** A feed of one row whose cells have white space around them. *)
Definition exampleCsv : jsstring :=
  js "title,mediaUrl" ++ [10%N] ++ js "  Hello , /a.jpg  ".

(** The ids of [items] are the decimal numerals of increasing row numbers
    between [first] and [last]. *)
Definition numbered (items : list NewsItem) (first last : nat) : Prop :=
  exists ns,
    map id items = map String_of_nat ns /\
    StronglySorted lt ns /\
    Forall (fun n => first <= n <= last) ns.

Lemma numbered_NoDup (items : list NewsItem) (first last : nat) :
  numbered items first last -> List.NoDup (map id items).
Proof.
  intros (ns & -> & Hsorted & _).
  induction Hsorted as [|n ns _ IH Hall]; simpl; constructor; [|exact IH].
  intros Hin. apply List.in_map_iff in Hin as (m & Hm & Hin).
  apply String_of_nat_inj in Hm. subst m.
  rewrite List.Forall_forall in Hall. specialize (Hall n Hin). lia.
Qed.

Lemma numbered_cons (item : NewsItem) (items : list NewsItem) (n last : nat) :
  id item = String_of_nat n ->
  numbered items (S n) last -> n <= last -> numbered (item :: items) n last.
Proof.
  intros Hid (ns & Hids & Hsorted & Hall) Hn. exists (n :: ns).
  split; [simpl; now rewrite Hid, Hids |]. split.
  - constructor; [exact Hsorted |].
    eapply List.Forall_impl; [|exact Hall]. simpl. intros m Hm. lia.
  - constructor; [lia |].
    eapply List.Forall_impl; [|exact Hall]. simpl. intros m Hm. lia.
Qed.

Lemma numbered_skip (items : list NewsItem) (n last : nat) :
  numbered items (S n) last -> numbered items n last.
Proof.
  intros (ns & Hids & Hsorted & Hall). exists ns. split; [exact Hids |].
  split; [exact Hsorted |].
  eapply List.Forall_impl; [|exact Hall]. simpl. intros m Hm. lia.
Qed.

Lemma csvRows_numbered (indices : gmap jsstring nat) (i : nat) (lines : list jsstring) :
  numbered (csvRows indices i lines) i (i + length lines - 1).
Proof.
  revert i. induction lines as [|line lines IH]; intros i.
  { exists []. repeat split; constructor. }
  cbn [csvRows length]. specialize (IH (S i)).
  replace (S i + length lines - 1) with (i + S (length lines) - 1) in IH by lia.
  destruct (csvRow indices i line) as [item|] eqn:Hrow.
  - apply numbered_cons; [now apply csvRow_id in Hrow | exact IH | lia].
  - now apply numbered_skip.
Qed.

Section GvizIds.

Variable String_of_number : Q -> jsstring.

Lemma gvizRows_numbered (colIndex : gmap jsstring nat) (k : nat) (rows : list (option GRow)) :
  numbered (omap (fun item => item)
              (imap (fun j => gvizRow String_of_number colIndex (k + j)) rows))
           (k + 1) (k + length rows).
Proof.
  revert k. induction rows as [|r rows IH]; intros k.
  { exists []. repeat split; constructor. }
  rewrite imap_cons. cbn [omap length]. specialize (IH (S k)).
  rewrite (imap_ext _ (fun j => gvizRow String_of_number colIndex (S k + j)))
    by (intros j x _; simpl; f_equal; lia).
  replace (S k + 1) with (S (k + 1)) in IH by lia.
  replace (S k + length rows) with (k + S (length rows)) in IH by lia.
  rewrite Nat.add_0_r.
  destruct (gvizRow String_of_number colIndex k r) as [item|] eqn:Hrow.
  - apply numbered_cons; [now apply gvizRow_id in Hrow | exact IH | lia].
  - now apply numbered_skip.
Qed.

End GvizIds.

Lemma parseCsv_numbered (text : jsstring) :
  numbered (parseCsv text) 1
    (length (filter (fun l => truthy l = true) (splitLines text)) - 1).
Proof.
  unfold parseCsv. destruct (filter _ _) as [|headerLine lines].
  - exists []. repeat split; constructor.
  - pose proof (csvRows_numbered (csvIndices headerLine) 1 lines) as H.
    cbn [length]. now replace (S (length lines) - 1) with (1 + length lines - 1) by lia.
Qed.

Lemma gvizItems_numbered (String_of_number : Q -> jsstring) (json : GResponse) :
  numbered (gvizItems String_of_number json) 1
    (length (default [] (response_table json ≫= table_rows))).
Proof. apply (gvizRows_numbered String_of_number (gvizIndex json) 0). Qed.

Lemma csvRow_fields (headerLine : jsstring) (i : nat) (line : jsstring)
  (t u u' m m' : option jsstring) (item : NewsItem) :
  rowCells (map Some (splitCsvLine headerLine)) (splitCsvLine line) t u u' m m' ->
  csvRow (csvIndices headerLine) i line = Some item ->
  title item = trim (csvText t) /\
  mediaUrl item = trim (firstNonEmpty (csvText u) (csvText u')).
Proof.
  intros Hcells. rewrite (csvRow_cells _ i _ _ _ _ _ _ Hcells).
  destruct (_ && _); [discriminate |]. intros [= <-]. cbn [title mediaUrl].
  now rewrite or_else_empty, or_else_firstNonEmpty.
Qed.

Lemma gvizRow_fields (String_of_number : Q -> jsstring) (json : GResponse) (idx : nat)
  (r : option GRow) (t u u' m m' : option (option GCell)) (item : NewsItem) :
  rowCells (labelsOf json) (cellsOf r) t u u' m m' ->
  gvizRow String_of_number (gvizIndex json) idx r = Some item ->
  title item = trim (cellText String_of_number (gvizValue t)) /\
  mediaUrl item
  = trim (cellText String_of_number (firstPresent (gvizValue u) (gvizValue u'))).
Proof.
  intros Hcells. rewrite (gvizRow_cells _ _ idx _ _ _ _ _ _ Hcells). cbv zeta.
  destruct (_ && _); [discriminate |]. intros [= <-]. cbn [title mediaUrl].
  split; [now destruct (gvizValue t) |].
  now destruct (gvizValue u), (gvizValue u').
Qed.

(** X16.  The id of an item is the decimal numeral of the row it is made
    from: the number of the line after the header among the non-empty
    lines of a CSV feed, and of the row in a GViz table, both counted from
    1.  The title and the media URL of the item with id n are those of row
    n, trimmed, and every row that is kept has an item with its number.
    The ids of a feed are increasing numbers, so no two items share an id;
    rows that are skipped leave gaps. *)
Theorem ids_number_the_rows (String_of_number : Q -> jsstring)
  (text : jsstring) (json : GResponse) :
  numbered (parseCsv text) 1
    (length (filter (fun l => truthy l = true) (splitLines text)) - 1) /\
  List.NoDup (map id (parseCsv text)) /\
  numbered (gvizItems String_of_number json) 1
    (length (default [] (response_table json ≫= table_rows))) /\
  List.NoDup (map id (gvizItems String_of_number json)) /\
  (forall headerLine lines,
     filter (fun l => truthy l = true) (splitLines text) = headerLine :: lines ->
     (forall item,
        In item (parseCsv text) ->
        exists k line,
          lines !! k = Some line /\ id item = String_of_nat (k + 1) /\
          forall t u u' m m',
            rowCells (map Some (splitCsvLine headerLine)) (splitCsvLine line) t u u' m m' ->
            csvKept t u u' /\
            title item = trim (csvText t) /\
            mediaUrl item = trim (firstNonEmpty (csvText u) (csvText u'))) /\
     (forall k line t u u' m m',
        lines !! k = Some line ->
        rowCells (map Some (splitCsvLine headerLine)) (splitCsvLine line) t u u' m m' ->
        csvKept t u u' ->
        exists item, In item (parseCsv text) /\ id item = String_of_nat (k + 1))) /\
  (forall item,
     In item (gvizItems String_of_number json) ->
     exists k r,
       rowsOf json !! k = Some r /\ id item = String_of_nat (k + 1) /\
       forall t u u' m m',
         rowCells (labelsOf json) (cellsOf r) t u u' m m' ->
         gvizKept t u u' /\
         title item = trim (cellText String_of_number (gvizValue t)) /\
         mediaUrl item
         = trim (cellText String_of_number (firstPresent (gvizValue u) (gvizValue u')))) /\
  (forall k r t u u' m m',
     rowsOf json !! k = Some r ->
     rowCells (labelsOf json) (cellsOf r) t u u' m m' ->
     gvizKept t u u' ->
     exists item, In item (gvizItems String_of_number json) /\
                  id item = String_of_nat (k + 1)).
Proof.
  pose proof (parseCsv_numbered text) as Hcsv.
  pose proof (gvizItems_numbered String_of_number json) as Hgviz.
  split; [exact Hcsv |]. split; [exact (numbered_NoDup _ _ _ Hcsv) |].
  split; [exact Hgviz |]. split; [exact (numbered_NoDup _ _ _ Hgviz) |].
  destruct (gvizItems_rows String_of_number json) as [Hfrom' Hrow'].
  split; [|split].
  - intros headerLine lines Hlines.
    destruct (parseCsv_rows text headerLine lines Hlines) as [Hfrom Hrow]. split.
    + intros item Hin. destruct (Hfrom item Hin) as (k & line & Hline & Hitem).
      exists k, line. split; [exact Hline |]. split; [exact (csvRow_id _ _ _ _ Hitem) |].
      intros t u u' m m' Hcells. split.
      * apply (csvRow_kept headerLine (k + 1) line t u u' m m' Hcells). eauto.
      * exact (csvRow_fields _ _ _ _ _ _ _ _ _ Hcells Hitem).
    + intros k line t u u' m m' Hline Hcells Hkept.
      apply (csvRow_kept headerLine (k + 1) line t u u' m m' Hcells) in Hkept
        as [item Hitem].
      exists item. now apply (Hrow k line item Hline).
  - intros item Hin. destruct (Hfrom' item Hin) as (k & r & Hr & Hitem).
    exists k, r. split; [exact Hr |]. split; [exact (gvizRow_id _ _ _ _ _ Hitem) |].
    intros t u u' m m' Hcells. split.
    + apply (gvizRow_kept String_of_number json k r t u u' m m' Hcells). eauto.
    + exact (gvizRow_fields _ _ _ _ _ _ _ _ _ _ Hcells Hitem).
  - intros k r t u u' m m' Hr Hcells Hkept.
    apply (gvizRow_kept String_of_number json k r t u u' m m' Hcells) in Hkept
      as [item Hitem].
    exists item. now apply (Hrow' k r item Hr).
Qed.

(** The feed of the lines [title], a comma, and [Hello]: the line of the
    comma is skipped, and the item of [Hello] has the id 2. *)
Definition skippingCsv : jsstring := js "title" ++ [10%N] ++ js "," ++ [10%N] ++ js "Hello".

Lemma ids_number_the_rows_witness :
  (numbered (parseCsv exampleCsv) 1 1 /\ List.NoDup (map id (parseCsv exampleCsv))) /\
  exists item, In item (parseCsv skippingCsv) /\ id item = js "2".
Proof.
  split.
  - destruct (ids_number_the_rows (fun _ => []) exampleCsv {| response_table := None |})
      as (Hnumbered & Hids & _).
    split; [exact Hnumbered | exact Hids].
  - destruct (ids_number_the_rows (fun _ => []) skippingCsv {| response_table := None |})
      as (_ & _ & _ & _ & Hcsv & _).
    destruct (Hcsv (js "title") [js ","; js "Hello"]) as [_ Hkept];
      [vm_compute; reflexivity |].
    apply (Hkept 1 (js "Hello") (Some (js "Hello")) None None None None);
      [reflexivity | | ].
    + repeat split; apply cellUnder_columnNamed; name_side.
    + intros (H & _). discriminate H.
Defined.

(** *** Trimmed fields *)

Lemma csv_item_trimmed (text : jsstring) (item : NewsItem) :
  In item (parseCsv text) -> trimmed (title item) /\ trimmed (mediaUrl item).
Proof.
  intros Hin.
  apply parseCsv_from_lines in Hin as (headerLine & lines & k & line & _ & _ & Hrow).
  unfold csvRow in Hrow. destruct (_ && _); [discriminate |].
  injection Hrow as <-. split; apply trim_trimmed.
Qed.

Lemma gviz_item_trimmed (String_of_number : Q -> jsstring) (json : GResponse)
  (item : NewsItem) :
  In item (gvizItems String_of_number json) ->
  trimmed (title item) /\ trimmed (mediaUrl item).
Proof.
  intros Hin. apply gvizItems_from_rows in Hin as (idx & r & _ & Hrow).
  unfold gvizRow in Hrow. destruct (_ && _); [discriminate |].
  injection Hrow as <-. split; apply trim_trimmed.
Qed.

(** X17.  The title and the media URL of every item of a feed are
    trimmed: they neither begin nor end with white space. *)
Theorem item_fields_trimmed (String_of_number : Q -> jsstring)
  (text : jsstring) (json : GResponse) (item : NewsItem) :
  In item (parseCsv text) \/ In item (gvizItems String_of_number json) ->
  trimmed (title item) /\ trimmed (mediaUrl item).
Proof.
  intros [Hin | Hin];
    [exact (csv_item_trimmed text item Hin)
    | exact (gviz_item_trimmed String_of_number json item Hin)].
Qed.

Lemma item_fields_trimmed_witness :
  In {| id := js "1"; title := js "Hello"; mediaUrl := js "/a.jpg"; mediaType := Image |}
     (parseCsv exampleCsv) /\
  trimmed (js "Hello") /\ trimmed (js "/a.jpg").
Proof.
  assert (Hin : In {| id := js "1"; title := js "Hello"; mediaUrl := js "/a.jpg";
                      mediaType := Image |} (parseCsv exampleCsv))
    by (vm_compute; left; reflexivity).
  split; [exact Hin |].
  apply (item_fields_trimmed (fun _ => []) exampleCsv {| response_table := None |}
           {| id := js "1"; title := js "Hello"; mediaUrl := js "/a.jpg";
              mediaType := Image |}).
  left. exact Hin.
Defined.

(** *** Line ends *)

(** Every line feed of [text] written as carriage return, line feed. *)
Definition toCRLF (text : jsstring) : jsstring :=
  flat_map (fun c => if (c =? 10)%N then [13%N; 10%N] else [c]) text.

Lemma splitLines_toCRLF (text : jsstring) :
  Forall (fun c => c <> 13%N) text -> splitLines (toCRLF text) = splitLines text.
Proof.
  induction 1 as [|c text Hc _ IH]; [reflexivity |].
  unfold toCRLF. cbn [flat_map]. fold (toCRLF text).
  destruct (N.eqb_spec c 10) as [-> | Hlf].
  - cbn [app splitLines N.eqb Pos.eqb andb]. now rewrite IH.
  - cbn [app splitLines]. apply N.eqb_neq in Hlf, Hc. rewrite Hlf, Hc. cbn [andb].
    rewrite IH. destruct text as [|d text']; [reflexivity |].
    unfold toCRLF. cbn [flat_map]. destruct (d =? 10)%N; reflexivity.
Qed.

(** X18.  A CSV feed is read the same with either line end: writing every
    line feed of a text without carriage returns as carriage return, line
    feed does not change the items. *)
Theorem parseCsv_line_ends (text : jsstring) :
  Forall (fun c => c <> 13%N) text -> parseCsv (toCRLF text) = parseCsv text.
Proof. intros Htext. unfold parseCsv. now rewrite splitLines_toCRLF. Qed.

Lemma parseCsv_line_ends_witness :
  parseCsv (toCRLF exampleCsv) = parseCsv exampleCsv.
Proof.
  apply (parseCsv_line_ends exampleCsv). repeat constructor; discriminate.
Defined.

(** *** The wrapper of a GViz response *)

(** X19.  [parseGviz] strips the wrapper of a GViz response: what stands
    before the first opening brace and after the last closing brace is
    dropped, and the text from the one to the other is what [JSON.parse]
    gets; the call fails when [JSON.parse] does.  A text without an opening
    brace or without a closing brace, or whose last closing brace comes
    before its first opening brace, has no items and is not an error. *)
Theorem parseGviz_unwraps (JSON_parse : jsstring -> option GResponse)
  (String_of_number : Q -> jsstring) :
  (forall before inner after,
     ~ In 123%N before -> ~ In 125%N after ->
     parseGviz JSON_parse String_of_number (before ++ 123%N :: inner ++ 125%N :: after)
     = gvizItems String_of_number <$> JSON_parse (123%N :: inner ++ [125%N])) /\
  (forall text,
     ~ In 123%N text \/ ~ In 125%N text ->
     parseGviz JSON_parse String_of_number text = Some []) /\
  (forall before after,
     ~ In 123%N before -> ~ In 125%N after ->
     parseGviz JSON_parse String_of_number (before ++ 125%N :: after) = Some []).
Proof.
  split; [|split].
  - intros before inner after Hbefore Hafter.
    unfold parseGviz. rewrite indexOf_first by exact Hbefore.
    replace (before ++ 123%N :: inner ++ 125%N :: after)
      with ((before ++ 123%N :: inner) ++ 125%N :: after)
      by now rewrite <- app_assoc.
    rewrite lastIndexOf_last by exact Hafter.
    rewrite length_app. cbn [length].
    destruct (Nat.leb_spec (length before + S (length inner)) (length before)) as [Hle | _];
      [lia |].
    f_equal. f_equal. unfold slice.
    rewrite <- app_assoc. rewrite drop_app_length. cbn [app].
    replace (length before + S (length inner) + 1 - length before)
      with (length (123%N :: inner ++ [125%N]))
      by (cbn [length]; rewrite length_app; simpl; lia).
    change (123%N :: inner ++ 125%N :: after)
      with ((123%N :: inner) ++ [125%N] ++ after).
    rewrite app_assoc. apply take_app_length.
  - intros text [Hopen | Hclose]; unfold parseGviz.
    + now rewrite indexOf_none by exact Hopen.
    + rewrite (lastIndexOf_none 125%N text Hclose).
      now destruct (indexOf 123%N text).
  - intros before after Hbefore Hafter. unfold parseGviz.
    rewrite lastIndexOf_last by exact Hafter.
    destruct (indexOf 123%N (before ++ 125%N :: after)) as [start|] eqn:Hstart;
      [|reflexivity].
    apply indexOf_after in Hstart; [|exact Hbefore].
    destruct (Nat.leb_spec (length before) start) as [_ | Hlt]; [reflexivity | lia].
Qed.

(** The response [f({x});] with a [JSON.parse] that fails: the braces are
    found, the text between them is parsed, and the call fails. *)
Lemma parseGviz_unwraps_witness :
  parseGviz (fun _ => None) (fun _ => []) (js "f({x});") = None /\
  parseGviz (fun _ => None) (fun _ => []) (js "no braces") = Some [].
Proof.
  destruct (parseGviz_unwraps (fun _ => None) (fun _ => [])) as (Hwrap & Hnone & _).
  split.
  - apply (Hwrap (js "f(") (js "x") (js ");")).
    + intros H. vm_compute in H. intuition discriminate.
    + intros H. vm_compute in H. intuition discriminate.
  - apply Hnone. left. intros H. vm_compute in H. intuition discriminate.
Defined.

(** *** The rows that become items *)

Lemma or_else_nil (a b : jsstring) : or_else a b = [] <-> a = [] /\ b = [].
Proof. unfold or_else. destruct a; simpl; intuition congruence. Qed.

Lemma both_falsy (a b : jsstring) :
  negb (truthy a) && negb (truthy b) = true <-> a = [] /\ b = [].
Proof. destruct a, b; simpl; intuition congruence. Qed.

Lemma csvRow_skipped (headerLine : jsstring) (i : nat) (line : jsstring) :
  csvRow (csvIndices headerLine) i line = None <->
  csvCellNamed (splitCsvLine headerLine) (splitCsvLine line) "title" = [] /\
  csvCellNamed (splitCsvLine headerLine) (splitCsvLine line) "mediaurl" = [] /\
  csvCellNamed (splitCsvLine headerLine) (splitCsvLine line) "media_url" = [].
Proof.
  unfold csvRow. rewrite !csvGet_cell by discriminate.
  rewrite <- or_else_nil, <- both_falsy.
  destruct (_ && _); split; intros H; congruence.
Qed.

Lemma csvRows_length (indices : gmap jsstring nat) (i : nat) (lines : list jsstring) :
  length (csvRows indices i lines) <= length lines.
Proof.
  revert i. induction lines as [|line lines IH]; intros i; [reflexivity |].
  cbn [csvRows length]. specialize (IH (S i)).
  destruct (csvRow indices i line); cbn [length]; lia.
Qed.

Lemma csvRows_none (indices : gmap jsstring nat) (i : nat) (lines : list jsstring) :
  (forall j line, csvRow indices j line = None) -> csvRows indices i lines = [].
Proof.
  intros Hnone. revert i. induction lines as [|line lines IH]; intros i; [reflexivity |].
  cbn [csvRows]. now rewrite Hnone.
Qed.

(** The header has no column for the title or for the URL. *)
Definition lacksColumns (labels : list (option jsstring)) : Prop :=
  columnNamed labels 0 (js "title") = None /\
  columnNamed labels 0 (js "mediaurl") = None /\
  columnNamed labels 0 (js "media_url") = None.

Lemma omap_imap_none {A B} (f : nat -> A -> option B) (l : list A) :
  (forall i x, f i x = None) -> omap (fun y => y) (imap f l) = [].
Proof.
  intros Hnone. revert f Hnone. induction l as [|x l IH]; intros f Hnone; [reflexivity |].
  rewrite imap_cons. cbn [omap]. rewrite Hnone. apply IH. intros i y. apply Hnone.
Qed.

(** X22.  A line of a CSV feed is skipped exactly when its cells under
    the title column and under both URL columns are empty or missing; so
    there are never more items than lines after the header, and a feed
    whose header has no column labelled title, mediaurl or media_url (up to
    case and surrounding white space) has no items at all, in either
    format, and gives no error. *)
Theorem rows_without_title_and_url_are_skipped (String_of_number : Q -> jsstring) :
  (forall headerLine i line,
     csvRow (csvIndices headerLine) i line = None <->
     csvCellNamed (splitCsvLine headerLine) (splitCsvLine line) "title" = [] /\
     csvCellNamed (splitCsvLine headerLine) (splitCsvLine line) "mediaurl" = [] /\
     csvCellNamed (splitCsvLine headerLine) (splitCsvLine line) "media_url" = []) /\
  (forall text,
     length (parseCsv text)
     <= length (filter (fun l => truthy l = true) (splitLines text)) - 1) /\
  (forall text headerLine lines,
     filter (fun l => truthy l = true) (splitLines text) = headerLine :: lines ->
     lacksColumns (map Some (splitCsvLine headerLine)) ->
     parseCsv text = []) /\
  (forall json,
     lacksColumns (labelsOf json) -> gvizItems String_of_number json = []).
Proof.
  split; [exact csvRow_skipped |]. split; [|split].
  - intros text. unfold parseCsv. destruct (filter _ _) as [|headerLine lines];
      [simpl; lia |].
    pose proof (csvRows_length (csvIndices headerLine) 1 lines). cbn [length]. lia.
  - intros text headerLine lines Hlines (Htitle & Hurl & Hurl'). unfold parseCsv.
    rewrite Hlines. apply csvRows_none. intros j line. apply csvRow_skipped.
    unfold csvCellNamed. now rewrite Htitle, Hurl, Hurl'.
  - intros json (Htitle & Hurl & Hurl'). unfold gvizItems.
    apply omap_imap_none. intros idx r. unfold gvizRow, gvizIndex.
    fold (labelsOf json). rewrite !gvizCell_value by discriminate.
    unfold gvizValueNamed. now rewrite Htitle, Hurl, Hurl'.
Qed.

(** A feed with the columns headline and link: no items. *)
Lemma rows_without_title_and_url_are_skipped_witness :
  parseCsv (js "headline,link" ++ [10%N] ++ js "Hello,/a.jpg") = [].
Proof.
  destruct (rows_without_title_and_url_are_skipped (fun _ => [])) as (_ & _ & Hcsv & _).
  apply (Hcsv _ (js "headline,link") [js "Hello,/a.jpg"]); [reflexivity |].
  repeat split.
Defined.

(** *** GET *)

(** The items of a response are well formed: no two share an id, and the
    titles and URLs are trimmed. *)
Definition wellFormed (items : list NewsItem) : Prop :=
  List.NoDup (map id items) /\
  Forall (fun item => trimmed (title item) /\ trimmed (mediaUrl item)) items.

Lemma wellFormed_nil : wellFormed [].
Proof. split; constructor. Qed.

Lemma wellFormed_csv (text : jsstring) : wellFormed (parseCsv text).
Proof.
  split; [exact (numbered_NoDup _ _ _ (parseCsv_numbered text)) |].
  apply List.Forall_forall. intros item. apply csv_item_trimmed.
Qed.

Lemma wellFormed_gviz (String_of_number : Q -> jsstring) (json : GResponse) :
  wellFormed (gvizItems String_of_number json).
Proof.
  split; [exact (numbered_NoDup _ _ _ (gvizItems_numbered String_of_number json)) |].
  apply List.Forall_forall. intros item. apply gviz_item_trimmed.
Qed.

Lemma wellFormed_sample : wellFormed sampleItems.
Proof.
  split.
  - repeat constructor; simpl; intuition discriminate.
  - repeat constructor; intros c [H | H]; vm_compute in H; injection H as <-; reflexivity.
Qed.

Lemma errorText_nonempty (e : Err) : errorText e <> [].
Proof.
  unfold errorText, or_else. destruct (err_message e) as [m|]; [|discriminate].
  destruct m; simpl; discriminate.
Qed.

Section GetExtras.

Variable JSON_parse : jsstring -> option GResponse.
Variable String_of_number : Q -> jsstring.
Variable parseGviz_throws : jsstring -> Err.
Variable process_env : ProcessEnv.
Variable fetch : jsstring -> Err + FetchResponse.

Local Abbreviation response :=
  (GET JSON_parse String_of_number parseGviz_throws process_env fetch).

Lemma parseGviz_wellFormed (text : jsstring) (items : list NewsItem) :
  parseGviz JSON_parse String_of_number text = Some items -> wellFormed items.
Proof.
  unfold parseGviz.
  destruct (indexOf _ _) as [start|]; [|intros [= <-]; apply wellFormed_nil].
  destruct (lastIndexOf _ _) as [end_|]; [|intros [= <-]; apply wellFormed_nil].
  destruct (_ <=? _)%nat; [intros [= <-]; apply wellFormed_nil |].
  destruct (JSON_parse _) as [json|]; [|discriminate].
  intros [= <-]. apply wellFormed_gviz.
Qed.

(** X20.  [GET] always answers: with status 200 and no error, or with
    status 500, an error message that is not empty, and no items.  It
    fetches one URL at most: the GViz URL when that is set and not empty,
    else the CSV URL when that is; a failure of the GViz feed is answered
    with the error, not with the CSV feed or the sample.  With neither URL
    the answer is the sample. *)
Theorem GET_response :
  let gvizUrl := default [] (GSHEETS_GVIZ_URL process_env) in
  let csvUrl := default [] (GSHEETS_CSV_URL process_env) in
  ((json_status (snd response) = 200 /\ json_error (snd response) = None) \/
   (json_status (snd response) = 500 /\ json_items (snd response) = [] /\
    exists m, json_error (snd response) = Some m /\ m <> [])) /\
  fst response
  = (if truthy gvizUrl then [gvizUrl] else if truthy csvUrl then [csvUrl] else []) /\
  (fst response = [] ->
   snd response
   = {| json_status := 200; json_error := None; json_items := sampleItems |}) /\
  (forall res,
     truthy gvizUrl = true -> fetch gvizUrl = inr res -> res_ok res = false ->
     snd response
     = {| json_status := 500;
          json_error := Some (js "GViz fetch failed: " ++ String_of_nat (res_status res));
          json_items := [] |}).
Proof.
  intros gvizUrl csvUrl. unfold GET, getItems. fold gvizUrl csvUrl.
  assert (Herr : forall e,
            json_status {| json_status := 500; json_error := Some (errorText e);
                           json_items := [] |} = 500 /\
            json_items {| json_status := 500; json_error := Some (errorText e);
                          json_items := [] |} = [] /\
            exists m, json_error {| json_status := 500;
                                    json_error := Some (errorText e);
                                    json_items := [] |} = Some m /\ m <> []).
  { intros e. split; [reflexivity |]. split; [reflexivity |].
    eexists. split; [reflexivity | apply errorText_nonempty]. }
  destruct (truthy gvizUrl) eqn:Hgviz; [|destruct (truthy csvUrl) eqn:Hcsv].
  - cbn [fst snd]. split; [|split; [reflexivity | split; [discriminate |]]].
    + destruct (fetch gvizUrl) as [e|res]; [right; apply Herr |].
      destruct (res_ok res); cbn [negb]; [|right; apply Herr].
      destruct (res_text res) as [e|text]; [right; apply Herr |].
      destruct (parseGviz _ _ _); [left; split; reflexivity | right; apply Herr].
    + intros res _ -> ->. reflexivity.
  - cbn [fst snd]. split; [|split; [reflexivity | split; [discriminate |]]].
    + destruct (fetch csvUrl) as [e|res]; [right; apply Herr |].
      destruct (res_ok res); cbn [negb]; [|right; apply Herr].
      destruct (res_text res) as [e|text]; [right; apply Herr |].
      left; split; reflexivity.
    + intros res Hfalse. discriminate Hfalse.
  - cbn [fst snd]. split; [left; split; reflexivity |].
    split; [reflexivity |]. split; [reflexivity |].
    intros res Hfalse. discriminate Hfalse.
Qed.

(** X21.  Whatever the feed and whatever fails, no two items of the
    answer of [GET] share an id, and the title and the media URL of every
    item are trimmed. *)
Theorem GET_items_wellFormed :
  List.NoDup (map id (json_items (snd response))) /\
  forall item, In item (json_items (snd response)) ->
               trimmed (title item) /\ trimmed (mediaUrl item).
Proof.
  assert (H : wellFormed (json_items (snd response))).
  { unfold GET, getItems.
    destruct (truthy (default [] (GSHEETS_GVIZ_URL process_env)));
      [|destruct (truthy (default [] (GSHEETS_CSV_URL process_env)))].
    - cbn [snd]. destruct (fetch _) as [e|res]; [apply wellFormed_nil |].
      destruct (res_ok res); cbn [negb]; [|apply wellFormed_nil].
      destruct (res_text res) as [e|text]; [apply wellFormed_nil |].
      destruct (parseGviz _ _ _) as [items|] eqn:Hparse; [|apply wellFormed_nil].
      exact (parseGviz_wellFormed text items Hparse).
    - cbn [snd]. destruct (fetch _) as [e|res]; [apply wellFormed_nil |].
      destruct (res_ok res); cbn [negb]; [|apply wellFormed_nil].
      destruct (res_text res) as [e|text]; [apply wellFormed_nil |].
      apply wellFormed_csv.
    - apply wellFormed_sample. }
  destruct H as [Hids Htrim]. split; [exact Hids |].
  now apply List.Forall_forall.
Qed.

End GetExtras.

(** Both URLs are set and the GViz feed answers 503: the CSV URL is not
    fetched, and the answer is the error. *)
Definition exampleProcessEnv : ProcessEnv :=
  {| GSHEETS_GVIZ_URL := Some (js "https://sheets.example/gviz");
     GSHEETS_CSV_URL := Some (js "https://sheets.example/csv") |}.

Definition exampleFetch (url : jsstring) : Err + FetchResponse :=
  if streq url (js "https://sheets.example/gviz")
  then inr {| res_ok := false; res_status := 503; res_text := inr [] |}
  else inr {| res_ok := true; res_status := 200; res_text := inr exampleCsv |}.

Lemma GET_items_wellFormed_witness :
  List.NoDup (map id (json_items (snd
    (GET (fun _ => None) (fun _ => []) (fun _ => new_Error (js "SyntaxError"))
       {| GSHEETS_GVIZ_URL := None;
          GSHEETS_CSV_URL := Some (js "https://sheets.example/csv") |}
       exampleFetch)))).
Proof.
  exact (proj1 (GET_items_wellFormed (fun _ => None) (fun _ => [])
                  (fun _ => new_Error (js "SyntaxError"))
                  {| GSHEETS_GVIZ_URL := None;
                     GSHEETS_CSV_URL := Some (js "https://sheets.example/csv") |}
                  exampleFetch)).
Defined.

Lemma GET_response_witness :
  fst (GET (fun _ => None) (fun _ => []) (fun _ => new_Error (js "SyntaxError"))
         exampleProcessEnv exampleFetch)
  = [js "https://sheets.example/gviz"] /\
  snd (GET (fun _ => None) (fun _ => []) (fun _ => new_Error (js "SyntaxError"))
         exampleProcessEnv exampleFetch)
  = {| json_status := 500;
       json_error := Some (js "GViz fetch failed: 503");
       json_items := [] |}.
Proof.
  destruct (GET_response (fun _ => None) (fun _ => [])
              (fun _ => new_Error (js "SyntaxError")) exampleProcessEnv exampleFetch)
    as (_ & Hfetched & _ & Hfailed).
  split; [exact Hfetched |].
  apply (Hfailed {| res_ok := false; res_status := 503; res_text := inr [] |});
    reflexivity.
Defined.

End NewsRouteExtras.
